(** * DigSig: verification of the execution gate of [security/digsig/digsig.c]

    A shallow embedding of the LSM hooks of DigSig (the ELF signature
    check run when a file is mapped executable) and the properties of its
    header reader, signature locator, streaming verify engine, verdict
    cache and write/exec guard.

    Conventions.  The model is that of a 64-bit little-endian kernel:
    [unsigned int] is 32 bits, [unsigned long] and pointers are 64 bits.
    Machine integers are values of [Z] with the wrap-around written out
    ([u32], [u64]).  Buffers are lists of bytes.  Objects reached through
    pointers ([struct inode], [struct file]) live in a store indexed by
    numbers, so that several files alias one inode.  A hook runs to its end
    before the next one starts: the semaphore and the spin lock of the
    source, which serialise the hooks, are not modelled.  Every hook
    returns, besides its result and the new state, the log of its calls
    into the cache, the file and the signature primitives. *)

From Stdlib Require Import ZArith List Lia Strings.Byte String Bool.
From stdpp Require Import base gmap sets list strings.

Local Open Scope Z_scope.

(** ** Machine integers and buffers *)

Definition u32 (x : Z) : Z := x mod 2 ^ 32.
Definition u64 (x : Z) : Z := x mod 2 ^ 64.

Definition byte_val (b : byte) : Z := Z.of_N (Byte.to_N b).

(** Little-endian value of a run of bytes. *)
Fixpoint le_word (bs : list byte) : Z :=
  match bs with
  | [] => 0
  | b :: t => byte_val b + 256 * le_word t
  end.

(** The [len]-byte field found [off] bytes into a structure. *)
Definition field (buf : list byte) (off len : nat) : Z :=
  le_word (take len (drop off buf)).

(** [memset(buf + start, 0, len)], confined to the buffer. *)
Definition memset0 (buf : list byte) (start len : Z) : list byte :=
  imap (λ i b, if bool_decide (start ≤ Z.of_nat i < start + len)
               then x00 else b) buf.

(** ** Constants of the kernel headers *)

Definition EPERM : Z := 1.
Definition ENOMEM : Z := 12.
Definition EINVAL : Z := 22.
Definition ETXTBSY : Z := 26.

Definition MAY_WRITE : Z := 2.
Definition VM_EXEC : Z := 4.

Definition ELFMAG : list byte := [x7f; x45; x4c; x46].
Definition SELFMAG : nat := 4.
Definition EI_CLASS : nat := 4.
Definition ELFCLASS32 : Z := 1.

Definition sizeof_elf64_hdr : Z := 64.
Definition sizeof_Elf32_Shdr : Z := 40.
Definition sizeof_Elf64_Shdr : Z := 64.

(** ** Constants of [digsig_common.h] and of the build configuration

    The header is not part of the sources at hand, so its constants are
    parameters.  [DIGSIG_MODE] is [0] in a build with
    [CONFIG_SECURITY_DIGSIG_DEBUG] (permissive) and [-EPERM] otherwise. *)

Record config := {
  DIGSIG_ELF_SIG_SIZE : Z;
  DIGSIG_ELF_READ_BLOCK_SIZE : Z;
  DIGSIG_ELF_SIG_SECTION : Z;
  DIGSIG_BSIGN_INFOS : Z;
  DIGSIG_MODE : Z;
  CONFIG_SECURITY_DIGSIG_RESTRICT_USB_DEVICES : bool
}.

(** ** The zeroing step of [digsig_verify_signature]

    [lower], [upper] and [offset] are [unsigned int]; [sh_offset] is
    [unsigned long]. *)

Definition zero_signature (C : config) (sh_offset offset : Z)
    (read_blocks : list byte) : list byte :=
  let lower := u32 sh_offset in
  let upper := u32 (u64 (sh_offset + DIGSIG_ELF_SIG_SIZE C)) in
  let block_end := u32 (offset + DIGSIG_ELF_READ_BLOCK_SIZE C) in
  if (lower <? block_end) && (offset <? upper) then
    let lower := if lower <? offset then offset else lower in
    let upper := if block_end <? upper then block_end else upper in
    memset0 read_blocks (u32 (lower - offset)) (u32 (upper - lower))
  else read_blocks.

(** The bytes of one block that reach the hash: the first [retval] bytes
    of the buffer after the zeroing step. *)
Definition hashed_block (C : config) (sh_offset offset : Z)
    (read_blocks : list byte) (retval : Z) : list byte :=
  take (Z.to_nat retval) (zero_signature C sh_offset offset read_blocks).

(** What the canonical form asks for: byte [i] of the block at [offset]
    is zero when it lies inside the signature section and is the byte read
    otherwise. *)
Definition in_signature (C : config) (sh_offset pos : Z) : bool :=
  bool_decide (sh_offset ≤ pos < sh_offset + DIGSIG_ELF_SIG_SIZE C).

Definition canonical_block (C : config) (sh_offset offset : Z)
    (data : list byte) : list byte :=
  imap (λ i b, if in_signature C sh_offset (offset + Z.of_nat i)
               then x00 else b) data.

(** ** The outside world of one hook call

    File contents, allocation and the signature primitives are reached
    through [kernel_read], [kmalloc], [digsig_revocation.h] and
    [digsig_verify.h]; none of them is defined in [digsig.c].  They are
    taken as an environment.  The hash/verify context is represented by
    the bytes fed to it so far, of which any deterministic primitive is a
    function. *)

Inductive read_result :=
  | ReadErr (errno : positive)
  | ReadData (data : list byte).

Inductive alloc_site := AllocElfHeader | AllocSectionTable | AllocSignature | AllocReadBlocks.

Record env := {
  (* the file behind an inode: bytes delivered for (offset, count) *)
  vfs_read : nat → Z → Z → read_result;
  i_size_read : nat → Z;
  (* [None]: the allocation fails; [Some junk]: what the fresh memory holds *)
  kmalloc_memory : alloc_site → option (list byte);
  digsig_is_revoked_sig : list byte → bool;
  digsig_sign_verify_init : bool;
  digsig_sign_verify_update : list byte → list byte → Z;
  digsig_sign_verify_final : list byte → list byte → Z
}.

Inductive read_kind := RdHeader | RdSectionTable | RdSignature | RdBlock.

(** What a hook did, in order: calls into the cache, file reads, and calls
    into the revocation list and the signature primitives. *)
Inductive event :=
  | EvCacheLookup (ino : nat) (hit : bool)
  | EvCacheInsert (ino : nat)
  | EvCacheRemove (ino : nat)
  | EvRead (k : read_kind) (offset count retval : Z)
  | EvRevocationCheck (revoked : bool)
  | EvVerifyInit (ok : bool)
  | EvVerifyUpdate (data : list byte) (retval : Z)
  | EvVerifyFinal (retval : Z).

Definition kmalloc (E : env) (site : alloc_site) (size : Z) : option (list byte) :=
  resize (Z.to_nat size) x00 <$> kmalloc_memory E site.

(** [kernel_read(file, offset, buf, count)]: the return value and the
    buffer afterwards. *)
Definition kernel_read (E : env) (ino : nat) (offset : Z) (buf : list byte)
    (count : Z) : Z * list byte :=
  match vfs_read E ino offset count with
  | ReadErr e => (Z.neg e, buf)
  | ReadData d =>
      let d := take (Z.to_nat count) d in
      (Z.of_nat (length d), d ++ drop (length d) buf)
  end.

#[global] Instance byte_eq_dec : EqDecision byte := Byte.byte_eq_dec.

(** ** ELF structures, as laid out in memory *)

Definition e_class (hdr : list byte) : Z := field hdr EI_CLASS 1.

Definition elf32_e_shoff (hdr : list byte) : Z := field hdr 32 4.
Definition elf32_e_shentsize (hdr : list byte) : Z := field hdr 46 2.
Definition elf32_e_shnum (hdr : list byte) : Z := field hdr 48 2.

Definition elf64_e_shoff (hdr : list byte) : Z := field hdr 40 8.
Definition elf64_e_shentsize (hdr : list byte) : Z := field hdr 58 2.
Definition elf64_e_shnum (hdr : list byte) : Z := field hdr 60 2.

Definition elf32_sh_type (shdata : list byte) (i : nat) : Z := field shdata (i * 40 + 4) 4.
Definition elf32_sh_offset (shdata : list byte) (i : nat) : Z := field shdata (i * 40 + 16) 4.
Definition elf32_sh_size (shdata : list byte) (i : nat) : Z := field shdata (i * 40 + 20) 4.

Definition elf64_sh_type (shdata : list byte) (i : nat) : Z := field shdata (i * 64 + 4) 4.
Definition elf64_sh_offset (shdata : list byte) (i : nat) : Z := field shdata (i * 64 + 24) 8.
Definition elf64_sh_size (shdata : list byte) (i : nat) : Z := field shdata (i * 64 + 32) 8.

(** ** Binary header reader *)

Definition elf_sanity_check32 (elf_hdr : list byte) : Z :=
  if negb (bool_decide (take SELFMAG elf_hdr = ELFMAG)) then -2
  else if elf32_e_shoff elf_hdr =? 0 then -1
  else if negb (elf32_e_shentsize elf_hdr =? sizeof_Elf32_Shdr) then -1
  else if 65536 / sizeof_Elf32_Shdr <? elf32_e_shnum elf_hdr then -1
  else 0.

Definition elf_sanity_check64 (elf_hdr : list byte) : Z :=
  if negb (bool_decide (take SELFMAG elf_hdr = ELFMAG)) then -2
  else if elf64_e_shoff elf_hdr =? 0 then -1
  else if negb (elf64_e_shentsize elf_hdr =? sizeof_Elf64_Shdr) then -1
  else if 65536 / sizeof_Elf64_Shdr <? elf64_e_shnum elf_hdr then -1
  else 0.

(** A pointer result: [NULL], [ERR_PTR(errno)] or a valid object. *)
Inductive ptr_result (A : Type) :=
  | NullPtr
  | ErrPtr (errno : Z)
  | Ptr (a : A).
Arguments NullPtr {A}.
Arguments ErrPtr {A} errno.
Arguments Ptr {A} a.

(** [NONELF_PERM] is [NULL]. *)
Definition read_elf_header (E : env) (ino : nat)
    : ptr_result (list byte) * list event :=
  match kmalloc E AllocElfHeader sizeof_elf64_hdr with
  | None => (ErrPtr (- ENOMEM), [])
  | Some elf_ex =>
      let '(r, elf_ex) := kernel_read E ino 0 elf_ex sizeof_elf64_hdr in
      let log := [EvRead RdHeader 0 sizeof_elf64_hdr r] in
      let retval :=
        if e_class elf_ex =? ELFCLASS32 then elf_sanity_check32 elf_ex
        else elf_sanity_check64 elf_ex in
      if negb (retval =? 0) then
        if retval =? -1 then (ErrPtr (- EINVAL), log) else (NullPtr, log)
      else (Ptr elf_ex, log)
  end.

(** ** Section table reader *)

Definition read_section_header (E : env) (ino : nat) (sh_size sh_off : Z)
    : (Z + list byte) * list event :=
  match kmalloc E AllocSectionTable sh_size with
  | None => (inl (- ENOMEM), [])
  | Some elf_shdata =>
      let '(retval, elf_shdata) := kernel_read E ino sh_off elf_shdata sh_size in
      let log := [EvRead RdSectionTable sh_off sh_size retval] in
      if (retval <? 0) || negb (u64 retval =? sh_size) then (inl (- EINVAL), log)
      else (inr elf_shdata, log)
  end.

(** ** Signature locator *)

Definition digsig_read_signature (C : config) (E : env) (ino : nat) (offset : Z)
    : option (list byte) * list event :=
  match kmalloc E AllocSignature (DIGSIG_ELF_SIG_SIZE C) with
  | None => (None, [])
  | Some buffer =>
      let '(retval, buffer) :=
        kernel_read E ino offset buffer (DIGSIG_ELF_SIG_SIZE C) in
      let log := [EvRead RdSignature offset (DIGSIG_ELF_SIG_SIZE C) retval] in
      if negb (retval =? DIGSIG_ELF_SIG_SIZE C) then (None, log)
      else (Some buffer, log)
  end.

(** The [while] loop of the locator: the index at which it stops, started
    at [i] with [n] entries left. *)
Fixpoint scan_sections (C : config) (sh_type : nat → Z) (i n : nat) : nat :=
  match n with
  | O => i
  | S n' =>
      if negb (sh_type i =? DIGSIG_ELF_SIG_SECTION C)
      then scan_sections C sh_type (S i) n'
      else i
  end.

(** On success: the signature and the value stored through [sh_offset]. *)
Definition digsig_find_signature32 (C : config) (E : env) (elf_ex elf_shdata : list byte)
    (ino : nat) : option (list byte * Z) * list event :=
  let e_shnum := Z.to_nat (elf32_e_shnum elf_ex) in
  let i := scan_sections C (elf32_sh_type elf_shdata) 0 e_shnum in
  if bool_decide (i = e_shnum) then (None, [])
  else if negb (elf32_sh_type elf_shdata i =? DIGSIG_ELF_SIG_SECTION C) then (None, [])
  else if negb (elf32_sh_size elf_shdata i =? DIGSIG_ELF_SIG_SIZE C) then (None, [])
  else
    match digsig_read_signature C E ino (elf32_sh_offset elf_shdata i) with
    | (None, log) => (None, log)
    | (Some buffer, log) => (Some (buffer, elf32_sh_offset elf_shdata i), log)
    end.

Definition digsig_find_signature64 (C : config) (E : env) (elf_ex elf_shdata : list byte)
    (ino : nat) : option (list byte * Z) * list event :=
  let e_shnum := Z.to_nat (elf64_e_shnum elf_ex) in
  let i := scan_sections C (elf64_sh_type elf_shdata) 0 e_shnum in
  if bool_decide (i = e_shnum) then (None, [])
  else if negb (elf64_sh_type elf_shdata i =? DIGSIG_ELF_SIG_SECTION C) then (None, [])
  else if negb (elf64_sh_size elf_shdata i =? DIGSIG_ELF_SIG_SIZE C) then (None, [])
  else
    match digsig_read_signature C E ino (elf64_sh_offset elf_shdata i) with
    | (None, log) => (None, log)
    | (Some buffer, log) => (Some (buffer, elf64_sh_offset elf_shdata i), log)
    end.

(** ** Streaming verify engine *)

Inductive loop_exit :=
  | LoopDone (ctx : list byte)      (* [offset < i_size] became false *)
  | LoopAbort (retval : Z).         (* [goto out] with this [retval] *)

(** The [for] loop over the blocks of the file.  It need not terminate
    ([offset] is an [unsigned int]), hence the fuel: [None] means that the
    loop is still running after [fuel] iterations. *)
Fixpoint verify_loop (C : config) (E : env) (ino : nat) (sh_offset : Z)
    (fuel : nat) (offset : Z) (read_blocks ctx : list byte)
    : option (loop_exit * list event) :=
  if negb (offset <? i_size_read E ino) then Some (LoopDone ctx, [])
  else
    match fuel with
    | O => None
    | S fuel' =>
        let '(retval, read_blocks) :=
          kernel_read E ino offset read_blocks (DIGSIG_ELF_READ_BLOCK_SIZE C) in
        let ev_read := EvRead RdBlock offset (DIGSIG_ELF_READ_BLOCK_SIZE C) retval in
        if retval <=? 0 then Some (LoopAbort retval, [ev_read])
        else
          let read_blocks := zero_signature C sh_offset offset read_blocks in
          let data := take (Z.to_nat retval) read_blocks in
          let r := digsig_sign_verify_update E ctx data in
          let ev_update := EvVerifyUpdate data r in
          if r <? 0 then Some (LoopAbort r, [ev_read; ev_update])
          else
            match verify_loop C E ino sh_offset fuel'
                    (u32 (offset + DIGSIG_ELF_READ_BLOCK_SIZE C))
                    read_blocks (ctx ++ data) with
            | None => None
            | Some (x, log) => Some (x, ev_read :: ev_update :: log)
            end
    end.

Definition digsig_verify_signature (C : config) (E : env) (fuel : nat)
    (sig_orig : list byte) (ino : nat) (sh_offset : Z) : option (Z * list event) :=
  if digsig_is_revoked_sig E sig_orig then Some (- EPERM, [EvRevocationCheck true])
  else if negb (digsig_sign_verify_init E) then
    Some (- ENOMEM, [EvRevocationCheck false; EvVerifyInit false])
  else
    let pre := [EvRevocationCheck false; EvVerifyInit true] in
    match kmalloc E AllocReadBlocks (DIGSIG_ELF_READ_BLOCK_SIZE C) with
    | None => Some (- ENOMEM, pre)
    | Some read_blocks =>
        match verify_loop C E ino sh_offset fuel 0 read_blocks [] with
        | None => None
        | Some (LoopAbort retval, log) => Some (retval, pre ++ log)
        | Some (LoopDone ctx, log) =>
            let retval :=
              digsig_sign_verify_final E ctx
                (drop (Z.to_nat (DIGSIG_BSIGN_INFOS C)) sig_orig) in
            Some (if negb (retval =? 0) then - EPERM else retval,
                  pre ++ log ++ [EvVerifyFinal retval])
        end
    end.

(** ** Kernel objects and module state *)

(** The fields of [struct inode] the hooks use.  [i_security] is DigSig's
    count of executable mappings; [i_writecount] is the kernel's count of
    writers. *)
Record inode := {
  i_security : Z;
  i_writecount : Z
}.

(** The fields of [struct file] the hooks use.  [f_security] is [0] or
    [1]; the other fields do not change while the file is open:
    [f_inode] is [f_dentry->d_inode], [f_dentry] and [d_name] tell whether
    the two pointers are non-null, [s_type_name] and [bus_name] are the
    names reached through the inode's super block. *)
Record file := {
  f_security : Z;
  f_inode : nat;
  f_dentry : bool;
  d_name : bool;
  s_type_name : string;
  bus_name : string
}.

Record kstate := {
  g_init : Z;
  inodes : gmap nat inode;
  files : list file;
  sig_cache : gset nat
}.

Definition get_inode (st : kstate) (ino : nat) : inode :=
  default {| i_security := 0; i_writecount := 0 |} (inodes st !! ino).

Definition get_inode_security (st : kstate) (ino : nat) : Z :=
  i_security (get_inode st ino).

Definition set_inode_security (st : kstate) (ino : nat) (val : Z) : kstate :=
  {| g_init := g_init st;
     inodes := <[ino := {| i_security := val;
                           i_writecount := i_writecount (get_inode st ino) |}]> (inodes st);
     files := files st;
     sig_cache := sig_cache st |}.

Definition with_f_security (val : Z) (f : file) : file :=
  {| f_security := val; f_inode := f_inode f; f_dentry := f_dentry f;
     d_name := d_name f; s_type_name := s_type_name f; bus_name := bus_name f |}.

Definition set_file_security (st : kstate) (fd : nat) (val : Z) : kstate :=
  {| g_init := g_init st;
     inodes := inodes st;
     files := alter (with_f_security val) fd (files st);
     sig_cache := sig_cache st |}.

(** ** Verdict cache

    [digsig_cache.c] is not among the sources; the cache is the set of
    identities of the spec, with its three operations. *)

(** Modelled from the spec: [is_cached_signature] of [digsig_cache.c],
    the cache's [lookup]. *)
Definition is_cached_signature (st : kstate) (ino : nat) : bool :=
  bool_decide (ino ∈ sig_cache st).

(** Modelled from the spec: [remove_signature] of [digsig_cache.c], the
    cache's [invalidate]. *)
Definition remove_signature (st : kstate) (ino : nat) : kstate :=
  {| g_init := g_init st; inodes := inodes st; files := files st;
     sig_cache := sig_cache st ∖ {[ino]} |}.

(** Modelled from the spec: [digsig_cache_signature] of [digsig_cache.c],
    the cache's idempotent [insert]. *)
Definition digsig_cache_signature (st : kstate) (ino : nat) : kstate :=
  {| g_init := g_init st; inodes := inodes st; files := files st;
     sig_cache := {[ino]} ∪ sig_cache st |}.

(** ** Write/exec guard and the hooks on inodes *)

Definition digsig_inode_permission (st : kstate) (inode : option nat) (mask : Z)
    : Z * kstate * list event :=
  if g_init st =? 0 then (0, st, [])
  else
    match inode with
    | Some ino =>
        if negb (Z.land mask MAY_WRITE =? 0) then
          let isec := get_inode_security st ino in
          if 0 <? isec then (- EPERM, st, [])
          else if is_cached_signature st ino then
            (0, remove_signature st ino, [EvCacheLookup ino true; EvCacheRemove ino])
          else (0, st, [EvCacheLookup ino false])
        else (0, st, [])
    | None => (0, st, [])
    end.

Definition digsig_inode_unlink (st : kstate) (d_inode : nat)
    : Z * kstate * list event :=
  if g_init st =? 0 then (0, st, [])
  else if negb (is_cached_signature st d_inode) then
    (0, st, [EvCacheLookup d_inode false])
  else (0, remove_signature st d_inode,
        [EvCacheLookup d_inode true; EvCacheRemove d_inode]).

Definition digsig_deny_write_access (st : kstate) (fd : nat) (f : file)
    : Z * kstate :=
  let ino := f_inode f in
  let isec := get_inode_security st ino in
  if 0 <? i_writecount (get_inode st ino) then (- ETXTBSY, st)
  else (0, set_file_security (set_inode_security st ino (u64 (isec + 1))) fd 1).

Definition digsig_allow_write_access (st : kstate) (fd : nat) (f : file) : kstate :=
  let ino := f_inode f in
  let isec := get_inode_security st ino in
  set_file_security (set_inode_security st ino (u64 (isec - 1))) fd 0.

Definition digsig_file_free_security (st : kstate) (fd : nat) : kstate :=
  match files st !! fd with
  | Some f => if negb (f_security f =? 0) then digsig_allow_write_access st fd f else st
  | None => st
  end.

Definition digsig_inode_free_security (st : kstate) (ino : nat)
    : kstate * list event :=
  if is_cached_signature st ino then
    (remove_signature st ino, [EvCacheLookup ino true; EvCacheRemove ino])
  else (st, [EvCacheLookup ino false]).

(** ** Execution gate *)

Definition digsig_fs_blacklist : list string := ["nfs"; "cifs"]%string.

Definition is_unprotected_file (C : config) (f : file) : bool :=
  if CONFIG_SECURITY_DIGSIG_RESTRICT_USB_DEVICES C && String.eqb (bus_name f) "usb"
  then true
  else existsb (String.eqb (s_type_name f)) digsig_fs_blacklist.

(** [digsig_mmap_file] from the cache lookup to the label
    [out_file_no_buf]: the return value, the final value of
    [allow_write_on_exit], the state and the log. *)
Definition digsig_mmap_file_check (C : config) (E : env) (fuel : nat)
    (st : kstate) (ino : nat) (die_if_elf : Z) (allow_write_on_exit : bool)
    : option (Z * bool * kstate * list event) :=
  if is_cached_signature st ino then
    Some (0, false, st, [EvCacheLookup ino true])
  else
    let l0 := [EvCacheLookup ino false] in
    match read_elf_header E ino with
    | (NullPtr, l1) => Some (0, allow_write_on_exit, st, l0 ++ l1)
    | (ErrPtr e, l1) => Some (e, allow_write_on_exit, st, l0 ++ l1)
    | (Ptr elf_ex, l1) =>
        if negb (die_if_elf =? 0) then
          Some (die_if_elf, allow_write_on_exit, st, l0 ++ l1)
        else
          let arch32 := e_class elf_ex =? ELFCLASS32 in
          let '(elf_shdata, l2) :=
            if arch32 then
              read_section_header E ino
                (elf32_e_shnum elf_ex * sizeof_Elf32_Shdr) (elf32_e_shoff elf_ex)
            else
              read_section_header E ino
                (elf64_e_shnum elf_ex * sizeof_Elf64_Shdr) (elf64_e_shoff elf_ex) in
          match elf_shdata with
          | inl _ => Some (- EINVAL, allow_write_on_exit, st, l0 ++ l1 ++ l2)
          | inr elf_shdata =>
              let '(sig_orig, l3) :=
                if arch32 then digsig_find_signature32 C E elf_ex elf_shdata ino
                else digsig_find_signature64 C E elf_ex elf_shdata ino in
              match sig_orig with
              | None =>
                  Some (DIGSIG_MODE C, allow_write_on_exit, st, l0 ++ l1 ++ l2 ++ l3)
              | Some (sig_orig, sh_offset) =>
                  match digsig_verify_signature C E fuel sig_orig ino sh_offset with
                  | None => None
                  | Some (retval, l4) =>
                      let log := l0 ++ l1 ++ l2 ++ l3 ++ l4 in
                      if retval =? 0 then
                        Some (retval, false, digsig_cache_signature st ino,
                              log ++ [EvCacheInsert ino])
                      else Some (- EPERM, allow_write_on_exit, st, log)
                  end
              end
          end
    end.

(** The hook.  [file = None] is a null pointer; a number that names no
    open file is treated alike. *)
Definition digsig_mmap_file (C : config) (E : env) (fuel : nat) (st : kstate)
    (file : option nat) (reqprot : Z) : option (Z * kstate * list event) :=
  if g_init st =? 0 then Some (0, st, [])
  else if Z.land reqprot VM_EXEC =? 0 then Some (0, st, [])
  else
    match file ≫= (λ fd, (fd,.) <$> files st !! fd) with
    | None => Some (0, st, [])
    | Some (fd, f) =>
        if negb (f_dentry f) then Some (0, st, [])
        else if negb (d_name f) then Some (0, st, [])
        else if is_unprotected_file C f then Some (DIGSIG_MODE C, st, [])
        else
          let '(die_if_elf, allow_write_on_exit, st1) :=
            if f_security f =? 0 then
              let '(retval, st1) := digsig_deny_write_access st fd f in
              if negb (retval =? 0) then (retval, false, st1) else (0, true, st1)
            else (0, false, st) in
          match digsig_mmap_file_check C E fuel st1 (f_inode f)
                  die_if_elf allow_write_on_exit with
          | None => None
          | Some (retval, allow_write_on_exit, st2, log) =>
              Some (retval,
                    if allow_write_on_exit
                    then digsig_allow_write_access st2 fd f else st2,
                    log)
          end
    end.

(** The requests that the gate examines: the module has its key, the
    mapping is executable, the handle is an open file with a name, and its
    filesystem is not blacklisted. *)
Definition gate_applies (C : config) (st : kstate) (fd : nat) (f : file)
    (reqprot : Z) : Prop :=
  g_init st ≠ 0 ∧ Z.land reqprot VM_EXEC ≠ 0 ∧ files st !! fd = Some f ∧
  f_dentry f = true ∧ d_name f = true ∧ is_unprotected_file C f = false.

(** ** The hooks as a transition system

    The kernel calls the hooks; what it does around them is not in
    [digsig.c].  Following the spec, a write-open first asks
    [digsig_inode_permission] with [MAY_WRITE] and, when allowed, marks the
    writer in [i_writecount]; closing the writer takes the mark back; the
    initialization flag is set when a public key is provided and stays
    set.  Files are open handles on inodes; closing one calls
    [digsig_file_free_security]. *)

(** Modelled from the spec: the store to [g_init] in [digsig_sysfs.c],
    made when a public key is provided. *)
Definition set_g_init (st : kstate) (val : Z) : kstate :=
  {| g_init := val; inodes := inodes st; files := files st;
     sig_cache := sig_cache st |}.

(** The kernel's [get_write_access] ([d = 1]) and [put_write_access]
    ([d = -1]) on [i_writecount]. *)
Definition add_writecount (st : kstate) (ino : nat) (d : Z) : kstate :=
  {| g_init := g_init st;
     inodes := <[ino := {| i_security := get_inode_security st ino;
                           i_writecount := i_writecount (get_inode st ino) + d |}]> (inodes st);
     files := files st;
     sig_cache := sig_cache st |}.

Inductive op :=
  | OpProvideKey
  | OpOpenWrite (ino : nat)
  | OpCloseWrite (ino : nat)
  | OpPermission (inode : option nat) (mask : Z)
  | OpUnlink (ino : nat)
  | OpInodeFree (ino : nat)
  | OpMmap (E : env) (fuel : nat) (file : option nat) (reqprot : Z)
  | OpFileFree (fd : nat).

(** Modelled from the spec: [request_write_open], the kernel's open for
    writing around the permission hook: denied if the hook denies, else
    allowed and the writer marked. *)
Definition request_write_open (st : kstate) (ino : nat) : Z * kstate :=
  let '(retval, st, _) := digsig_inode_permission st (Some ino) MAY_WRITE in
  if retval =? 0 then (retval, add_writecount st ino 1) else (retval, st).

Definition step (C : config) (o : op) (st : kstate) : option kstate :=
  match o with
  | OpProvideKey => Some (set_g_init st 1)
  | OpOpenWrite ino => Some (request_write_open st ino).2
  | OpCloseWrite ino =>
      Some (if 0 <? i_writecount (get_inode st ino)
            then add_writecount st ino (-1) else st)
  | OpPermission inode mask => Some (digsig_inode_permission st inode mask).1.2
  | OpUnlink ino => Some (digsig_inode_unlink st ino).1.2
  | OpInodeFree ino => Some (digsig_inode_free_security st ino).1
  | OpMmap E fuel file reqprot =>
      (λ r, r.1.2) <$> digsig_mmap_file C E fuel st file reqprot
  | OpFileFree fd => Some (digsig_file_free_security st fd)
  end.

Fixpoint run (C : config) (ops : list op) (st : kstate) : option kstate :=
  match ops with
  | [] => Some st
  | o :: ops => step C o st ≫= run C ops
  end.

(** The state at load time: the flag unset, no guard state, an empty
    cache, and the given handles with no lease. *)
Definition boot (handles : list file) : kstate :=
  {| g_init := 0; inodes := ∅; files := with_f_security 0 <$> handles;
     sig_cache := ∅ |}.

(** Does this handle hold a lease on this inode? *)
Definition holds_lease (ino : nat) (f : file) : Prop :=
  f_inode f = ino ∧ f_security f ≠ 0.

#[global] Instance holds_lease_dec ino f : Decision (holds_lease ino f).
Proof. unfold holds_lease. apply _. Defined.

Definition leases (st : kstate) (ino : nat) : nat :=
  length (filter (holds_lease ino) (files st)).

Record guard_inv (st : kstate) : Prop := {
  inv_leases : ∀ ino, get_inode_security st ino = Z.of_nat (leases st ino);
  inv_handles : Z.of_nat (length (files st)) < 2 ^ 64;
  inv_excl : ∀ ino, 0 < i_writecount (get_inode st ino) → get_inode_security st ino = 0;
  inv_cached : ∀ ino, ino ∈ sig_cache st →
               g_init st ≠ 0 ∧ i_writecount (get_inode st ino) ≤ 0;
  inv_disabled : g_init st = 0 → ∀ ino, get_inode_security st ino = 0
}.

(** ** Concrete images and environments

    A configuration with the customary values (a 512-byte signature
    section, 4 KiB blocks) and small ELF images over it, on which the
    hooks are run. *)

Definition SHT_SIG : Z := 0x68676953.

Definition restrictive_config : config :=
  {| DIGSIG_ELF_SIG_SIZE := 512;
     DIGSIG_ELF_READ_BLOCK_SIZE := 4096;
     DIGSIG_ELF_SIG_SECTION := SHT_SIG;
     DIGSIG_BSIGN_INFOS := 9;
     DIGSIG_MODE := - EPERM;
     CONFIG_SECURITY_DIGSIG_RESTRICT_USB_DEVICES := false |}.

Definition permissive_config : config :=
  {| DIGSIG_ELF_SIG_SIZE := 512;
     DIGSIG_ELF_READ_BLOCK_SIZE := 4096;
     DIGSIG_ELF_SIG_SECTION := SHT_SIG;
     DIGSIG_BSIGN_INFOS := 9;
     DIGSIG_MODE := 0;
     CONFIG_SECURITY_DIGSIG_RESTRICT_USB_DEVICES := false |}.

Definition byte_of_Z (v : Z) : byte :=
  default x00 (Byte.of_N (Z.to_N (v mod 256))).

(** [v] in [n] little-endian bytes. *)
Fixpoint le_bytes (n : nat) (v : Z) : list byte :=
  match n with
  | O => []
  | S n' => byte_of_Z v :: le_bytes n' (v / 256)
  end.

(** A 64-bit ELF header: only the fields the reader looks at are set. *)
Definition elf64_header (e_shoff e_shentsize e_shnum : Z) : list byte :=
  ELFMAG ++ [x02] ++ replicate 35 x00
    ++ le_bytes 8 e_shoff ++ replicate 10 x00
    ++ le_bytes 2 e_shentsize ++ le_bytes 2 e_shnum ++ replicate 2 x00.

(** A 32-bit ELF header in the same 64-byte buffer. *)
Definition elf32_header (e_shoff e_shentsize e_shnum : Z) : list byte :=
  ELFMAG ++ [x01] ++ replicate 27 x00
    ++ le_bytes 4 e_shoff ++ replicate 10 x00
    ++ le_bytes 2 e_shentsize ++ le_bytes 2 e_shnum ++ replicate 14 x00.

Definition elf64_shdr (sh_type sh_offset sh_size : Z) : list byte :=
  replicate 4 x00 ++ le_bytes 4 sh_type ++ replicate 16 x00
    ++ le_bytes 8 sh_offset ++ le_bytes 8 sh_size ++ replicate 24 x00.

(** An image of [64 + 128 + sig_size + 64] bytes: header, a table of a
    null section and a section of type [SHT_SIG] of the given size, the
    section's bytes ([xaa]), and some code ([x90]). *)
Definition signed_image (sig_size : Z) : list byte :=
  elf64_header 64 64 2
    ++ elf64_shdr 0 0 0 ++ elf64_shdr SHT_SIG 192 sig_size
    ++ replicate (Z.to_nat sig_size) xaa ++ replicate 64 x90.

(** The same image without a signature section. *)
Definition unsigned_image : list byte :=
  elf64_header 64 64 2
    ++ elf64_shdr 0 0 0 ++ elf64_shdr 1 192 512
    ++ replicate 512 xaa ++ replicate 64 x90.

(** Reading a regular file with the given content. *)
Definition read_content (content : list byte) (offset count : Z) : read_result :=
  if offset <? 0 then ReadErr 22
  else ReadData (take (Z.to_nat count) (drop (Z.to_nat offset) content)).

(** An environment in which every inode has the given content, memory is
    never short, no signature is revoked, and the final verification
    answers [verdict]. *)
Definition file_env (content : list byte) (verdict : Z) : env :=
  {| vfs_read := λ _, read_content content;
     i_size_read := λ _, Z.of_nat (length content);
     kmalloc_memory := λ _, Some [];
     digsig_is_revoked_sig := λ _, false;
     digsig_sign_verify_init := true;
     digsig_sign_verify_update := λ _ _, 0;
     digsig_sign_verify_final := λ _ _, verdict |}.

(** The same, with every signature revoked. *)
Definition revoked_env (content : list byte) : env :=
  {| vfs_read := λ _, read_content content;
     i_size_read := λ _, Z.of_nat (length content);
     kmalloc_memory := λ _, Some [];
     digsig_is_revoked_sig := λ _, true;
     digsig_sign_verify_init := true;
     digsig_sign_verify_update := λ _ _, 0;
     digsig_sign_verify_final := λ _ _, 0 |}.

(** A file of two blocks whose first read delivers only [short] bytes. *)
Definition short_read_env (short : Z) : env :=
  {| vfs_read := λ _ offset count,
       if offset =? 0 then ReadData (replicate (Z.to_nat short) x11)
       else read_content (replicate (Z.to_nat 8192) x22) offset count;
     i_size_read := λ _, 8192;
     kmalloc_memory := λ _, Some [];
     digsig_is_revoked_sig := λ _, false;
     digsig_sign_verify_init := true;
     digsig_sign_verify_update := λ _ _, 0;
     digsig_sign_verify_final := λ _ _, 0 |}.

Definition plain_file (ino : nat) : file :=
  {| f_security := 0; f_inode := ino; f_dentry := true; d_name := true;
     s_type_name := "ext4"; bus_name := "pci" |}.

(** The module with a key loaded and one handle open on inode [7]. *)
Definition ready_state : kstate :=
  {| g_init := 1; inodes := ∅; files := [plain_file 7]; sig_cache := ∅ |}.

(** ** The header reader in the words of the spec *)

(** The outcomes of the header reader, in the words of the spec. *)
Inductive header_outcome :=
  | NotRecognizedFormat
  | Malformed
  | AllocationFailure
  | HeaderView (hdr : list byte).

Definition header_is_32bit (hdr : list byte) : bool := e_class hdr =? ELFCLASS32.

Definition section_table_offset (hdr : list byte) : Z :=
  if header_is_32bit hdr then elf32_e_shoff hdr else elf64_e_shoff hdr.
Definition section_entry_size (hdr : list byte) : Z :=
  if header_is_32bit hdr then elf32_e_shentsize hdr else elf64_e_shentsize hdr.
Definition section_count (hdr : list byte) : Z :=
  if header_is_32bit hdr then elf32_e_shnum hdr else elf64_e_shnum hdr.
Definition expected_entry_size (hdr : list byte) : Z :=
  if header_is_32bit hdr then sizeof_Elf32_Shdr else sizeof_Elf64_Shdr.

(** The checks of the spec, in its order: magic, section-table offset,
    entry size, and the 64 KiB budget on count times entry size. *)
Definition classify_header (hdr : list byte) : header_outcome :=
  if negb (bool_decide (take 4 hdr = ELFMAG)) then NotRecognizedFormat
  else if section_table_offset hdr =? 0 then Malformed
  else if negb (section_entry_size hdr =? expected_entry_size hdr) then Malformed
  else if 65536 <? section_count hdr * expected_entry_size hdr then Malformed
  else HeaderView hdr.

(** How [read_elf_header] encodes an outcome in its pointer result. *)
Definition outcome_ptr (o : header_outcome) : ptr_result (list byte) :=
  match o with
  | NotRecognizedFormat => NullPtr
  | Malformed => ErrPtr (- EINVAL)
  | AllocationFailure => ErrPtr (- ENOMEM)
  | HeaderView hdr => Ptr hdr
  end.

(** The header as [read_elf_header] sees it: the 64 bytes of the
    buffer after the read (whose return value it does not look at). *)
Definition header_buffer (E : env) (ino : nat) (junk : list byte) : list byte :=
  (kernel_read E ino 0 (resize (Z.to_nat sizeof_elf64_hdr) x00 junk)
     sizeof_elf64_hdr).2.


(** ** The signature locator in the words of the spec *)

(** The first entry of the section table whose type is the signature
    marker, as the locator's scan finds it. *)
Definition located_section (C : config) (hdr shdata : list byte) : option nat :=
  let n := Z.to_nat (section_count hdr) in
  let i := scan_sections C
             (if header_is_32bit hdr then elf32_sh_type shdata
              else elf64_sh_type shdata) 0 n in
  if bool_decide (i = n) then None else Some i.

Definition declared_size (hdr shdata : list byte) (i : nat) : Z :=
  if header_is_32bit hdr then elf32_sh_size shdata i else elf64_sh_size shdata i.

(** ** Logs without the hashed data *)

Definition brief (e : event) : event :=
  match e with
  | EvVerifyUpdate d r => EvVerifyUpdate [] r
  | e => e
  end.

Definition brief_log (log : list event) : list event := List.map brief log.

(** The verdict and the abbreviated log of a run of the verify engine. *)
Definition engine_summary (r : option (Z * list event)) : option (Z * list event) :=
  match r with
  | Some (retval, log) => Some (retval, brief_log log)
  | None => None
  end.

(** The verdict and the abbreviated log of a call of the gate. *)
Definition verdict_and_log (r : option (Z * kstate * list event))
    : option (Z * list event) :=
  match r with
  | Some (retval, _, log) => Some (retval, brief_log log)
  | None => None
  end.

(** Inode [7] verified, cached and mapped executable through the handle;
    and inode [7] opened for writing. *)
Definition leased_state : kstate :=
  {| g_init := 1;
     inodes := {[ 7%nat := {| i_security := 1; i_writecount := 0 |} ]};
     files := [with_f_security 1 (plain_file 7)];
     sig_cache := {[ 7%nat ]} |}.

Definition writer_state : kstate :=
  {| g_init := 1;
     inodes := {[ 7%nat := {| i_security := 0; i_writecount := 1 |} ]};
     files := [plain_file 7];
     sig_cache := ∅ |}.

(** A shell script: not an ELF image. *)
Definition script : list byte :=
  [x23; x21; x2f; x62; x69; x6e; x2f; x73; x68; x0a].

(** ** Further notions for the properties of the readers *)

Definition declared_type (hdr shdata : list byte) (i : nat) : Z :=
  if header_is_32bit hdr then elf32_sh_type shdata i else elf64_sh_type shdata i.

Definition declared_offset (hdr shdata : list byte) (i : nat) : Z :=
  if header_is_32bit hdr then elf32_sh_offset shdata i else elf64_sh_offset shdata i.

(** The locator of the header's bitness, as [digsig_mmap_file] picks it. *)
Definition digsig_find_signature (C : config) (E : env) (hdr shdata : list byte)
    (ino : nat) : option (list byte * Z) * list event :=
  if e_class hdr =? ELFCLASS32 then digsig_find_signature32 C E hdr shdata ino
  else digsig_find_signature64 C E hdr shdata ino.

(** A file that cannot be read, and fresh memory that happens to hold a
    well-formed ELF header. *)
Definition unreadable_env (junk : list byte) : env :=
  {| vfs_read := λ _ _ _, ReadErr 5;
     i_size_read := λ _, 0;
     kmalloc_memory := λ _, Some junk;
     digsig_is_revoked_sig := λ _, false;
     digsig_sign_verify_init := true;
     digsig_sign_verify_update := λ _ _, 0;
     digsig_sign_verify_final := λ _ _, 0 |}.

(** A file of [size] bytes, all [x90], given by its read function rather
    than by its content. *)
Definition huge_env (size : Z) : env :=
  {| vfs_read := λ _ offset count,
       ReadData (replicate (Z.to_nat (Z.min count (size - offset))) x90);
     i_size_read := λ _, size;
     kmalloc_memory := λ _, Some [];
     digsig_is_revoked_sig := λ _, false;
     digsig_sign_verify_init := true;
     digsig_sign_verify_update := λ _ _, 0;
     digsig_sign_verify_final := λ _ _, 0 |}.

(** ** Regular files and the canonical form of a whole file *)

(** The inode is a regular file with this content: reads deliver its
    bytes and its size is its length. *)
Definition serves (E : env) (ino : nat) (content : list byte) : Prop :=
  (∀ offset count, vfs_read E ino offset count = read_content content offset count) ∧
  i_size_read E ino = Z.of_nat (length content).

(** The file as the signing tool hashed it: the bytes of the signature
    section replaced by zeros. *)
Definition canonical_file (C : config) (sh_offset : Z) (content : list byte)
    : list byte :=
  canonical_block C sh_offset 0 content.

(** The signed image with other bytes ([xbb]) in its signature section. *)
Definition resigned_image : list byte :=
  elf64_header 64 64 2
    ++ elf64_shdr 0 0 0 ++ elf64_shdr SHT_SIG 192 512
    ++ replicate 512 xbb ++ replicate 64 x90.

(** A final verification that looks at what was hashed: it answers [0]
    when the stream is the canonical form of the signed image. *)
Definition checking_env (content : list byte) : env :=
  {| vfs_read := λ _, read_content content;
     i_size_read := λ _, Z.of_nat (length content);
     kmalloc_memory := λ _, Some [];
     digsig_is_revoked_sig := λ _, false;
     digsig_sign_verify_init := true;
     digsig_sign_verify_update := λ _ _, 0;
     digsig_sign_verify_final := λ ctx _,
       if bool_decide (ctx = canonical_file restrictive_config 192 (signed_image 512))
       then 0 else 1 |}.

(** ** Module initialisation *)

(** The four calls of [digsig_init_module] into code outside [digsig.c],
    by what they return: [security_module_enable] returns non-zero when
    the module may be used, the three others [0] on success. *)
Record init_env := {
  security_module_enable : Z;
  digsig_init_caching : Z;
  digsig_init_sysfs : Z;
  register_security : Z
}.

Inductive init_event :=
  | EvModuleEnable (ret : Z)
  | EvInitCaching (ret : Z)
  | EvInitSysfs (ret : Z)
  | EvRegisterSecurity (ret : Z)
  | EvCleanupSysfs
  | EvCacheCleanup.

#[global] Instance init_event_eq_dec : EqDecision init_event.
Proof. solve_decision. Defined.

Definition digsig_init_module (I : init_env) : Z * list init_event :=
  let l0 := [EvModuleEnable (security_module_enable I)] in
  if security_module_enable I =? 0 then (- ENOMEM, l0)
  else
    let l1 := l0 ++ [EvInitCaching (digsig_init_caching I)] in
    if negb (digsig_init_caching I =? 0) then (- ENOMEM, l1)
    else
      let l2 := l1 ++ [EvInitSysfs (digsig_init_sysfs I)] in
      if negb (digsig_init_sysfs I =? 0) then (- EINVAL, l2 ++ [EvCacheCleanup])
      else
        let l3 := l2 ++ [EvRegisterSecurity (register_security I)] in
        if negb (register_security I =? 0)
        then (- EINVAL, l3 ++ [EvCleanupSysfs; EvCacheCleanup])
        else (0, l3).

(** A file on a network filesystem. *)
Definition nfs_file (ino : nat) : file :=
  {| f_security := 0; f_inode := ino; f_dentry := true; d_name := true;
     s_type_name := "nfs"; bus_name := "pci" |}.

(** ** Bounds on the reads of the gate *)

(** What a read of each kind may ask for: the header is 64 bytes at
    offset [0]; the section table is at a non-zero offset and at most
    64 KiB long; the signature has the mandated size; a block has the
    block size and starts inside the file. *)
Definition bounded_read (C : config) (E : env) (ino : nat) (e : event) : Prop :=
  match e with
  | EvRead RdHeader offset count _ => offset = 0 ∧ count = sizeof_elf64_hdr
  | EvRead RdSectionTable offset count _ => offset ≠ 0 ∧ 0 ≤ count ≤ 65536
  | EvRead RdSignature _ count _ => count = DIGSIG_ELF_SIG_SIZE C
  | EvRead RdBlock offset count _ =>
      0 ≤ offset < i_size_read E ino ∧ count = DIGSIG_ELF_READ_BLOCK_SIZE C
  | _ => True
  end.

(** Two open handles, on inodes 7 and 8, once the key is provided. *)
Definition boot_two_handles : kstate :=
  set_g_init (boot [plain_file 7; plain_file 8]) 1.

(** ** Full verification, in the words of the spec *)

(** What the spec's gate does for an identity that is not in the cache
    (its step 5): the header reader, the section table reader and the
    signature locator; a file of another format is allowed, a malformed
    one denied, a missing signature left to the mode; else the
    revocation check and the verify engine, whose [0] is the only
    outcome that is cached.  The result is the verdict (with the code's
    return values), whether the identity goes into the cache, and the log
    of the stages that ran; [None] when the verify engine does not
    return within the fuel. *)
Definition full_verification (C : config) (E : env) (fuel : nat) (ino : nat)
    : option (Z * bool * list event) :=
  match read_elf_header E ino with
  | (NullPtr, l1) => Some (0, false, l1)
  | (ErrPtr e, l1) => Some (e, false, l1)
  | (Ptr hdr, l1) =>
      match read_section_header E ino
              (section_count hdr * expected_entry_size hdr)
              (section_table_offset hdr) with
      | (inl _, l2) => Some (- EINVAL, false, l1 ++ l2)
      | (inr shdata, l2) =>
          match digsig_find_signature C E hdr shdata ino with
          | (None, l3) => Some (DIGSIG_MODE C, false, l1 ++ l2 ++ l3)
          | (Some (sig_orig, sh_offset), l3) =>
              match digsig_verify_signature C E fuel sig_orig ino sh_offset with
              | None => None
              | Some (retval, l4) =>
                  Some (if retval =? 0 then 0 else - EPERM, retval =? 0,
                        l1 ++ l2 ++ l3 ++ l4)
              end
          end
      end
  end.

(** The log of a call of the gate that ran the full verification. *)
Definition full_verification_log (ino : nat) (cached : bool) (log : list event)
    : list event :=
  EvCacheLookup ino false :: log ++ (if cached then [EvCacheInsert ino] else []).

(** The signed image on a filesystem that reports a size of two blocks
    for it: reads deliver the 768 bytes of the image and nothing after
    them, and the final verification would reject the signature. *)
Definition stale_size_env : env :=
  {| vfs_read := λ _, read_content (signed_image 512);
     i_size_read := λ _, 8192;
     kmalloc_memory := λ _, Some [];
     digsig_is_revoked_sig := λ _, false;
     digsig_sign_verify_init := true;
     digsig_sign_verify_update := λ _ _, 0;
     digsig_sign_verify_final := λ _ _, 1 |}.

(** Inode [7] verified and cached, and its handle closed again. *)
Definition released_state : kstate :=
  {| g_init := 1;
     inodes := {[ 7%nat := {| i_security := 0; i_writecount := 0 |} ]};
     files := [plain_file 7];
     sig_cache := {[ 7%nat ]} |}.

(** The hooks that lead there from the load-time state. *)
Definition verify_and_close : list op :=
  [OpProvideKey;
   OpMmap (file_env (signed_image 512) 0) 1 (Some 0%nat) VM_EXEC;
   OpFileFree 0].

(** * Properties *)

(** ** Machine arithmetic and buffers *)

Lemma memset0_lookup buf start len (i : nat) :
  memset0 buf start len !! i =
  (λ b, if bool_decide (start ≤ Z.of_nat i < start + len) then x00 else b)
    <$> buf !! i.
Proof. unfold memset0. by rewrite list_lookup_imap. Qed.

Lemma u32_small x : 0 ≤ x < 2 ^ 32 → u32 x = x.
Proof. intros. unfold u32. by rewrite Z.mod_small. Qed.

Lemma u64_small x : 0 ≤ x < 2 ^ 64 → u64 x = x.
Proof. intros. unfold u64. by rewrite Z.mod_small. Qed.

(** Within 32-bit offsets the zeroing step computes the canonical form. *)
Lemma zero_signature_canonical C sh_offset offset buf :
  0 ≤ DIGSIG_ELF_SIG_SIZE C →
  0 < DIGSIG_ELF_READ_BLOCK_SIZE C →
  0 ≤ offset →
  offset + DIGSIG_ELF_READ_BLOCK_SIZE C < 2 ^ 32 →
  0 ≤ sh_offset →
  sh_offset + DIGSIG_ELF_SIG_SIZE C < 2 ^ 32 →
  Z.of_nat (length buf) ≤ DIGSIG_ELF_READ_BLOCK_SIZE C →
  zero_signature C sh_offset offset buf = canonical_block C sh_offset offset buf.
Proof.
  intros Hs Hb Ho Hob Hsh Hshs Hlen.
  apply list_eq; intros i.
  unfold zero_signature, canonical_block, in_signature.
  rewrite list_lookup_imap.
  rewrite (u64_small (sh_offset + _)) by lia.
  rewrite (u32_small sh_offset), (u32_small (sh_offset + _)),
    (u32_small (offset + _)) by lia.
  destruct (buf !! i) as [b|] eqn:Hi.
  2:{ case_match; [rewrite memset0_lookup|]; by rewrite Hi. }
  apply lookup_lt_Some in Hi as Hlt.
  case_match eqn:Hc.
  - apply andb_prop in Hc as [H1 H2].
    apply Z.ltb_lt in H1, H2.
    rewrite memset0_lookup, Hi. simpl. f_equal.
    repeat case_match; rewrite ?Z.ltb_lt, ?Z.ltb_ge in *;
      rewrite !u32_small in * by lia;
      repeat case_bool_decide; try done; lia.
  - rewrite Hi. simpl. f_equal.
    apply andb_false_iff in Hc as [Hc|Hc]; apply Z.ltb_ge in Hc;
      case_bool_decide; try done; lia.
Qed.


(** ** Zero-patching (C1) *)

(** C1.  The claim: in every block, exactly the bytes that lie inside the
    signature section are zeroed before hashing, and all others pass
    unchanged.  The code keeps the section's offset in an [unsigned int]:
    for a 64-bit image whose signature section starts at file offset
    [2^32], the first block of the file (bytes [0..4095], none of them in
    the section) reaches the hash with its first 512 bytes zeroed. *)
Theorem zero_signature_truncates_sh_offset :
  let block := replicate (Z.to_nat 4096) xff in
  canonical_block restrictive_config (2 ^ 32) 0 block = block ∧
  hashed_block restrictive_config (2 ^ 32) 0 block 4096
    = replicate 512 x00 ++ replicate (Z.to_nat 3584) xff.
Proof. split; vm_compute; reflexivity. Qed.

(** ** Revocation (C3) *)

(** C3.  For a signature in the revocation set, [digsig_verify_signature]
    returns [-EPERM] at once: the only thing it does is the revocation
    lookup; the verify context is not initialised and no block of the file
    is read or hashed.  This holds whatever the file's size, so the result
    does not depend on the loop terminating. *)
Theorem revoked_signature_rejected_before_hashing
    (C : config) (E : env) (fuel : nat) (sig_orig : list byte) (ino : nat) (sh_offset : Z) :
  digsig_is_revoked_sig E sig_orig = true →
  digsig_verify_signature C E fuel sig_orig ino sh_offset
    = Some (- EPERM, [EvRevocationCheck true]).
Proof. intros H. unfold digsig_verify_signature. by rewrite H. Qed.

Lemma revoked_signature_rejected_witness :
  digsig_is_revoked_sig (revoked_env (signed_image 512)) (replicate 512 xaa) = true ∧
  digsig_verify_signature restrictive_config (revoked_env (signed_image 512))
    0 (replicate 512 xaa) 7 192 = Some (- EPERM, [EvRevocationCheck true]).
Proof.
  split; [reflexivity|].
  apply (revoked_signature_rejected_before_hashing restrictive_config
           (revoked_env (signed_image 512)) 0 (replicate 512 xaa) 7 192).
  reflexivity.
Defined.

(** ** The gate past its entry checks *)

Lemma mmap_file_past_entry C E fuel st fd f reqprot :
  gate_applies C st fd f reqprot →
  digsig_mmap_file C E fuel st (Some fd) reqprot
  = let '(die_if_elf, allow_write_on_exit, st1) :=
      if f_security f =? 0 then
        let '(retval, st1) := digsig_deny_write_access st fd f in
        if negb (retval =? 0) then (retval, false, st1) else (0, true, st1)
      else (0, false, st) in
    match digsig_mmap_file_check C E fuel st1 (f_inode f)
            die_if_elf allow_write_on_exit with
    | None => None
    | Some (retval, allow_write_on_exit, st2, log) =>
        Some (retval,
              if allow_write_on_exit
              then digsig_allow_write_access st2 fd f else st2,
              log)
    end.
Proof.
  intros (Hg & Hp & Hf & Hd & Hn & Hu). unfold digsig_mmap_file.
  rewrite (proj2 (Z.eqb_neq _ _) Hg), (proj2 (Z.eqb_neq _ _) Hp).
  simpl. rewrite Hf. simpl. by rewrite Hd, Hn, Hu.
Qed.

(** A verdict that the check gives whether or not a writer is in the
    way is the verdict of the gate, and the cache stays as it is. *)
Lemma mmap_file_verdict_of_check C E fuel st fd f reqprot r log :
  gate_applies C st fd f reqprot →
  (∀ s d a, sig_cache s = sig_cache st →
     digsig_mmap_file_check C E fuel s (f_inode f) d a = Some (r, a, s, log)) →
  ∃ st', digsig_mmap_file C E fuel st (Some fd) reqprot = Some (r, st', log) ∧
         sig_cache st' = sig_cache st.
Proof.
  intros Hgate Hcheck. rewrite (mmap_file_past_entry _ _ _ _ _ _ _ Hgate).
  unfold digsig_deny_write_access.
  destruct (f_security f =? 0);
    [destruct (0 <? i_writecount (get_inode st (f_inode f)))|]; simpl;
    rewrite Hcheck by done; eauto.
Qed.

(** ** Binary header reader (C5) *)

Lemma elf_sanity_check_classify hdr :
  (if e_class hdr =? ELFCLASS32 then elf_sanity_check32 hdr
   else elf_sanity_check64 hdr)
  = match classify_header hdr with
    | NotRecognizedFormat => -2
    | HeaderView _ => 0
    | _ => -1
    end.
Proof.
  unfold classify_header, section_table_offset, section_entry_size,
    section_count, expected_entry_size, header_is_32bit,
    elf_sanity_check32, elf_sanity_check64.
  destruct (e_class hdr =? ELFCLASS32);
    destruct (bool_decide (take 4 hdr = ELFMAG)) eqn:Hm;
    unfold SELFMAG; rewrite Hm; simpl; try done.
  - destruct (elf32_e_shoff hdr =? 0); [done|].
    destruct (elf32_e_shentsize hdr =? sizeof_Elf32_Shdr); simpl; [|done].
    unfold sizeof_Elf32_Shdr.
    change (65536 / 40) with 1638.
    destruct (1638 <? elf32_e_shnum hdr) eqn:H1;
      destruct (65536 <? elf32_e_shnum hdr * 40) eqn:H2; try done;
      rewrite ?Z.ltb_lt, ?Z.ltb_ge in *; lia.
  - destruct (elf64_e_shoff hdr =? 0); [done|].
    destruct (elf64_e_shentsize hdr =? sizeof_Elf64_Shdr); simpl; [|done].
    unfold sizeof_Elf64_Shdr.
    change (65536 / 64) with 1024.
    destruct (1024 <? elf64_e_shnum hdr) eqn:H1;
      destruct (65536 <? elf64_e_shnum hdr * 64) eqn:H2; try done;
      rewrite ?Z.ltb_lt, ?Z.ltb_ge in *; lia.
Qed.

Lemma classify_header_not_alloc hdr : classify_header hdr ≠ AllocationFailure.
Proof. unfold classify_header. by repeat case_match. Qed.

Lemma classify_header_view hdr h : classify_header hdr = HeaderView h → h = hdr.
Proof. unfold classify_header. repeat case_match; congruence. Qed.

Lemma read_elf_header_classify E ino junk :
  kmalloc_memory E AllocElfHeader = Some junk →
  read_elf_header E ino
  = (outcome_ptr (classify_header (header_buffer E ino junk)),
     [EvRead RdHeader 0 sizeof_elf64_hdr
        (kernel_read E ino 0 (resize (Z.to_nat sizeof_elf64_hdr) x00 junk)
           sizeof_elf64_hdr).1]).
Proof.
  intros Hk. unfold read_elf_header, header_buffer, kmalloc. rewrite Hk. simpl.
  destruct (kernel_read E ino 0 _ sizeof_elf64_hdr) as [r hdr] eqn:Hr. simpl.
  rewrite elf_sanity_check_classify.
  pose proof (classify_header_not_alloc hdr).
  destruct (classify_header hdr) eqn:Hc; try done.
  by apply classify_header_view in Hc as ->.
Qed.

(** C5.  Once its buffer is allocated, the header reader's answer is the
    spec's classification of the header read: a wrong magic gives the
    pass-through result ([NULL]), on which the gate allows the mapping
    ([0]); otherwise a zero section-table offset, an entry size that is not
    the structure size of the detected bitness, or a count whose table
    would exceed 64 KiB gives [-EINVAL], which the gate returns as its
    denial; otherwise the header itself. *)
Theorem read_elf_header_validates (C : config) (E : env) (ino : nat) (junk : list byte) :
  kmalloc_memory E AllocElfHeader = Some junk →
  let hdr := header_buffer E ino junk in
  (read_elf_header E ino).1 = outcome_ptr (classify_header hdr) ∧
  (∀ fuel st fd f reqprot,
     gate_applies C st fd f reqprot → f_inode f = ino →
     is_cached_signature st ino = false →
     classify_header hdr = NotRecognizedFormat →
     ∃ st' log, digsig_mmap_file C E fuel st (Some fd) reqprot
                = Some (0, st', log) ∧ sig_cache st' = sig_cache st) ∧
  (∀ fuel st fd f reqprot,
     gate_applies C st fd f reqprot → f_inode f = ino →
     is_cached_signature st ino = false →
     classify_header hdr = Malformed →
     ∃ st' log, digsig_mmap_file C E fuel st (Some fd) reqprot
                = Some (- EINVAL, st', log) ∧ sig_cache st' = sig_cache st).
Proof.
  intros Hk hdr. pose proof (read_elf_header_classify E ino junk Hk) as Hh.
  fold hdr in Hh. split; [by rewrite Hh|].
  split; intros fuel st fd f reqprot Hgate <- Hc Ho;
    edestruct (mmap_file_verdict_of_check C E fuel st fd f reqprot)
      as (st' & Hm & Hs); eauto;
    intros s d a Hsc; unfold digsig_mmap_file_check;
    (assert (is_cached_signature s (f_inode f) = false) as ->
       by (unfold is_cached_signature in *; by rewrite Hsc));
    rewrite Hh, Ho; simpl; done.
Qed.

Lemma read_elf_header_validates_witness :
  kmalloc_memory (file_env (signed_image 512) 0) AllocElfHeader = Some [] ∧
  (read_elf_header (file_env (signed_image 512) 0) 7).1
  = Ptr (elf64_header 64 64 2).
Proof.
  split; [reflexivity|].
  pose proof (read_elf_header_validates restrictive_config
                (file_env (signed_image 512) 0) 7 [] eq_refl) as [H _].
  rewrite H. vm_compute. reflexivity.
Defined.

(** ** Hooks before a key is provided (C10) *)

(** C10.  While [g_init] is unset, the exec-map hook, the permission
    hook and the unlink hook return [0] whatever their arguments, leave
    the whole state as it is, and call neither the cache nor anything
    else. *)
Theorem hooks_disabled_without_key (st : kstate) :
  g_init st = 0 →
  (∀ C E fuel file reqprot,
     digsig_mmap_file C E fuel st file reqprot = Some (0, st, [])) ∧
  (∀ inode mask, digsig_inode_permission st inode mask = (0, st, [])) ∧
  (∀ d_inode, digsig_inode_unlink st d_inode = (0, st, [])).
Proof.
  intros H. repeat split; intros;
    unfold digsig_mmap_file, digsig_inode_permission, digsig_inode_unlink;
    by rewrite H.
Qed.

Lemma hooks_disabled_without_key_witness :
  g_init (boot [plain_file 7]) = 0 ∧
  digsig_mmap_file restrictive_config (file_env unsigned_image 1) 0
    (boot [plain_file 7]) (Some 0%nat) VM_EXEC
  = Some (0, boot [plain_file 7], []).
Proof.
  split; [reflexivity|].
  apply (hooks_disabled_without_key (boot [plain_file 7]) eq_refl).
Defined.

(** ** Signature locator (C2) *)

Lemma scan_sections_stops C sh_type i n :
  let j := scan_sections C sh_type i n in
  j ≠ (i + n)%nat → sh_type j = DIGSIG_ELF_SIG_SECTION C.
Proof.
  revert i. induction n as [|n IH]; intros i j Hj; subst j; simpl in *.
  - lia.
  - destruct (sh_type i =? DIGSIG_ELF_SIG_SECTION C) eqn:Ht; simpl in *.
    + by apply Z.eqb_eq.
    + apply IH. lia.
Qed.

Lemma find_signature_none C E hdr shdata ino :
  (located_section C hdr shdata = None ∨
   ∃ i, located_section C hdr shdata = Some i ∧
        declared_size hdr shdata i ≠ DIGSIG_ELF_SIG_SIZE C) →
  (if e_class hdr =? ELFCLASS32
   then digsig_find_signature32 C E hdr shdata ino
   else digsig_find_signature64 C E hdr shdata ino) = (None, []).
Proof.
  unfold located_section, declared_size, section_count, header_is_32bit,
    digsig_find_signature32, digsig_find_signature64.
  destruct (e_class hdr =? ELFCLASS32); intros [H|(i & H & Hs)];
    case_bool_decide; simplify_eq; try done;
    repeat case_match; try done;
    by rewrite negb_false_iff, Z.eqb_eq in *.
Qed.

Lemma mmap_file_check_mode_verdict C E fuel st ino awoe hdr shdata l1 l2 :
  is_cached_signature st ino = false →
  read_elf_header E ino = (Ptr hdr, l1) →
  read_section_header E ino (section_count hdr * expected_entry_size hdr)
    (section_table_offset hdr) = (inr shdata, l2) →
  (located_section C hdr shdata = None ∨
   ∃ i, located_section C hdr shdata = Some i ∧
        declared_size hdr shdata i ≠ DIGSIG_ELF_SIG_SIZE C) →
  digsig_mmap_file_check C E fuel st ino 0 awoe
  = Some (DIGSIG_MODE C, awoe, st, EvCacheLookup ino false :: l1 ++ l2).
Proof.
  intros Hc Hh Hs Hl.
  pose proof (find_signature_none C E hdr shdata ino Hl) as Hf.
  unfold digsig_mmap_file_check. rewrite Hc, Hh. simpl.
  unfold section_count, expected_entry_size, section_table_offset,
    header_is_32bit in Hs.
  destruct (e_class hdr =? ELFCLASS32); rewrite Hs, Hf;
    by rewrite !app_nil_r.
Qed.

(** C2 (amended).  For an exec-map request that the gate examines, on a
    file that is not being written and not cached, whose header and
    section table read well: when the scan finds a section with the
    signature marker whose declared size is not [DIGSIG_ELF_SIG_SIZE], the
    request gets the mode verdict [DIGSIG_MODE] ([-EPERM] in a restrictive
    build, [0] in a permissive build), exactly as when no section has the
    marker.  In both cases the gate has read the header and the section
    table and nothing else (no signature bytes, no block), and the cache is
    left as it is. *)
Theorem wrong_size_signature_gets_mode_verdict
    (C : config) (E : env) (fuel : nat) (st : kstate) (fd : nat) (f : file)
    (reqprot : Z) (hdr shdata : list byte) (l1 l2 : list event) :
  gate_applies C st fd f reqprot →
  ¬ 0 < i_writecount (get_inode st (f_inode f)) →
  is_cached_signature st (f_inode f) = false →
  read_elf_header E (f_inode f) = (Ptr hdr, l1) →
  read_section_header E (f_inode f)
    (section_count hdr * expected_entry_size hdr)
    (section_table_offset hdr) = (inr shdata, l2) →
  (located_section C hdr shdata = None ∨
   ∃ i, located_section C hdr shdata = Some i ∧
        declared_size hdr shdata i ≠ DIGSIG_ELF_SIG_SIZE C) →
  ∃ st',
    digsig_mmap_file C E fuel st (Some fd) reqprot
    = Some (DIGSIG_MODE C, st', EvCacheLookup (f_inode f) false :: l1 ++ l2) ∧
    sig_cache st' = sig_cache st.
Proof.
  intros Hgate Hw Hc Hh Hs Hl.
  rewrite (mmap_file_past_entry _ _ _ _ _ _ _ Hgate).
  unfold digsig_deny_write_access.
  rewrite (proj2 (Z.ltb_ge _ _)) by lia.
  destruct (f_security f =? 0); simpl;
    erewrite mmap_file_check_mode_verdict by eauto; eauto.
Qed.

Lemma wrong_size_signature_witness :
  gate_applies restrictive_config ready_state 0 (plain_file 7) VM_EXEC ∧
  located_section restrictive_config (elf64_header 64 64 2)
    (elf64_shdr 0 0 0 ++ elf64_shdr SHT_SIG 192 511) = Some 1%nat ∧
  declared_size (elf64_header 64 64 2)
    (elf64_shdr 0 0 0 ++ elf64_shdr SHT_SIG 192 511) 1 = 511 ∧
  ∃ st',
    digsig_mmap_file restrictive_config (file_env (signed_image 511) 0) 0
      ready_state (Some 0%nat) VM_EXEC
    = Some (- EPERM, st',
            [EvCacheLookup 7 false; EvRead RdHeader 0 64 64;
             EvRead RdSectionTable 64 128 128]) ∧
    sig_cache st' = sig_cache ready_state.
Proof.
  assert (gate_applies restrictive_config ready_state 0 (plain_file 7) VM_EXEC)
    as Hgate by (repeat split; vm_compute; first [reflexivity | lia]).
  split; [exact Hgate|]. split; [vm_compute; reflexivity|].
  split; [vm_compute; reflexivity|].
  apply (wrong_size_signature_gets_mode_verdict restrictive_config
           (file_env (signed_image 511) 0) 0 ready_state 0 (plain_file 7) VM_EXEC
           (elf64_header 64 64 2)
           (elf64_shdr 0 0 0 ++ elf64_shdr SHT_SIG 192 511)
           [EvRead RdHeader 0 64 64] [EvRead RdSectionTable 64 128 128] Hgate).
  - change (¬ 0 < i_writecount (get_inode ready_state 7)).
    assert (i_writecount (get_inode ready_state 7) = 0) as ->
      by (vm_compute; reflexivity).
    lia.
  - reflexivity.
  - vm_compute; reflexivity.
  - vm_compute; reflexivity.
  - right. exists 1%nat. split; vm_compute; [reflexivity|lia].
Defined.

(** C2, as claimed, fails: in a permissive build an image whose signature
    section declares 513 bytes instead of 512 is allowed ([0]), the verdict
    that an image without any signature section gets. *)
Lemma wrong_size_signature_allowed_when_permissive :
  located_section permissive_config (elf64_header 64 64 2)
    (elf64_shdr 0 0 0 ++ elf64_shdr SHT_SIG 192 513) = Some 1%nat ∧
  declared_size (elf64_header 64 64 2)
    (elf64_shdr 0 0 0 ++ elf64_shdr SHT_SIG 192 513) 1 = 513 ∧
  DIGSIG_ELF_SIG_SIZE permissive_config = 512 ∧
  verdict_and_log
    (digsig_mmap_file permissive_config (file_env (signed_image 513) 0) 0
       ready_state (Some 0%nat) VM_EXEC)
  = Some (0, [EvCacheLookup 7 false; EvRead RdHeader 0 64 64;
              EvRead RdSectionTable 64 128 128]) ∧
  verdict_and_log
    (digsig_mmap_file permissive_config (file_env unsigned_image 0) 0
       ready_state (Some 0%nat) VM_EXEC)
  = Some (0, [EvCacheLookup 7 false; EvRead RdHeader 0 64 64;
              EvRead RdSectionTable 64 128 128]).
Proof. repeat split; vm_compute; reflexivity. Qed.

(** ** Termination of the verify loop *)

(** For a file that ends at least one block below [2^32] bytes the loop
    ends: with one unit of fuel per block it gives a result. *)
Lemma verify_loop_terminates C E ino sh_offset (n : nat) offset buf ctx :
  0 < DIGSIG_ELF_READ_BLOCK_SIZE C →
  i_size_read E ino + DIGSIG_ELF_READ_BLOCK_SIZE C ≤ 2 ^ 32 →
  0 ≤ offset →
  i_size_read E ino - offset ≤ Z.of_nat n * DIGSIG_ELF_READ_BLOCK_SIZE C →
  is_Some (verify_loop C E ino sh_offset n offset buf ctx).
Proof.
  intros Hb Hsz. revert offset buf ctx.
  induction n as [|n IH]; intros offset buf ctx Ho Hn.
  - simpl. rewrite (proj2 (Z.ltb_ge offset (i_size_read E ino))) by lia.
    simpl; eauto.
  - cbn [verify_loop].
    destruct (offset <? i_size_read E ino) eqn:Hlt; simpl; [|eauto].
    apply Z.ltb_lt in Hlt.
    destruct (kernel_read E ino offset buf _) as [retval buf'].
    destruct (retval <=? 0); [eauto|].
    destruct (digsig_sign_verify_update E ctx _ <? 0); [eauto|].
    rewrite u32_small by lia.
    destruct (IH (offset + DIGSIG_ELF_READ_BLOCK_SIZE C)
                (zero_signature C sh_offset offset buf')
                (ctx ++ take (Z.to_nat retval) (zero_signature C sh_offset offset buf'))
                ltac:(lia) ltac:(lia)) as [[x log] ->].
    eauto.
Qed.

(** For a file of [2^32] bytes or more whose reads and hash updates all
    succeed the loop never ends: [offset] wraps around before it reaches
    [i_size]. *)
Lemma verify_loop_diverges C E ino sh_offset fuel offset buf ctx :
  2 ^ 32 ≤ i_size_read E ino →
  (∀ off b, 0 < (kernel_read E ino off b (DIGSIG_ELF_READ_BLOCK_SIZE C)).1) →
  (∀ c d, 0 ≤ digsig_sign_verify_update E c d) →
  0 ≤ offset < 2 ^ 32 →
  verify_loop C E ino sh_offset fuel offset buf ctx = None.
Proof.
  intros Hsz Hr Hu. revert offset buf ctx.
  induction fuel as [|fuel IH]; intros offset buf ctx Ho; cbn [verify_loop];
    rewrite (proj2 (Z.ltb_lt offset (i_size_read E ino))) by lia; simpl; [done|].
  specialize (Hr offset buf).
  destruct (kernel_read E ino offset buf _) as [retval buf']. simpl in Hr.
  rewrite (proj2 (Z.leb_gt retval 0)) by lia.
  rewrite (proj2 (Z.ltb_ge _ 0)) by apply Hu.
  rewrite IH; [done|]. unfold u32. apply Z.mod_pos_bound. lia.
Qed.

(** ** Streaming verify loop (C4) *)

(** C4 (amended).  In the loop over the blocks, a read that returns a
    negative value ends the loop at once with that value as the verdict of
    [digsig_verify_signature]: nothing is hashed for that block and nothing
    more is read.  A read that returns a positive number of bytes is never
    an error, however short: these bytes, zero-patched, are hashed, and
    (unless the hash update fails) the loop goes on with the block one full
    block size further. *)
Theorem verify_loop_read_outcomes
    (C : config) (E : env) (ino : nat) (sh_offset : Z) (fuel : nat)
    (offset : Z) (read_blocks ctx : list byte) :
  offset < i_size_read E ino →
  let block_size := DIGSIG_ELF_READ_BLOCK_SIZE C in
  let r := kernel_read E ino offset read_blocks block_size in
  let data := hashed_block C sh_offset offset r.2 r.1 in
  (r.1 < 0 →
   verify_loop C E ino sh_offset (S fuel) offset read_blocks ctx
   = Some (LoopAbort r.1, [EvRead RdBlock offset block_size r.1])) ∧
  (0 < r.1 → 0 ≤ digsig_sign_verify_update E ctx data →
   verify_loop C E ino sh_offset (S fuel) offset read_blocks ctx
   = (λ x, (x.1, EvRead RdBlock offset block_size r.1
                   :: EvVerifyUpdate data (digsig_sign_verify_update E ctx data)
                   :: x.2))
       <$> verify_loop C E ino sh_offset fuel (u32 (offset + block_size))
             (zero_signature C sh_offset offset r.2) (ctx ++ data)).
Proof.
  intros Hlt block_size r data. subst data. unfold hashed_block.
  cbn [verify_loop]. fold block_size. fold r.
  apply Z.ltb_lt in Hlt. rewrite Hlt. cbn [negb].
  destruct r as [retval buf]. cbn [fst snd].
  split.
  - intros Hr. by rewrite (proj2 (Z.leb_le retval 0)) by lia.
  - intros Hr Hu.
    rewrite (proj2 (Z.leb_gt retval 0)) by lia.
    rewrite (proj2 (Z.ltb_ge _ 0)) by lia.
    by destruct (verify_loop _ _ _ _ _ _ _ _) as [[x log]|].
Qed.

Lemma verify_loop_read_outcomes_witness :
  0 < i_size_read (short_read_env 100) 7 ∧
  engine_summary
    (digsig_verify_signature restrictive_config (short_read_env 100) 2
       (replicate 512 xaa) 7 192)
  = Some (0, [EvRevocationCheck false; EvVerifyInit true;
              EvRead RdBlock 0 4096 100; EvVerifyUpdate [] 0;
              EvRead RdBlock 4096 4096 4096; EvVerifyUpdate [] 0;
              EvVerifyFinal 0]).
Proof.
  split; [reflexivity|].
  pose proof (verify_loop_read_outcomes restrictive_config (short_read_env 100)
                7 192 1 0 (resize (Z.to_nat 4096) x00 []) []) as H.
  specialize (H ltac:(reflexivity)).
  destruct H as [_ H].
  specialize (H ltac:(reflexivity) ltac:(simpl; lia)).
  unfold digsig_verify_signature.
  change (digsig_is_revoked_sig (short_read_env 100) (replicate 512 xaa)) with false.
  change (digsig_sign_verify_init (short_read_env 100)) with true.
  cbn [negb].
  change (kmalloc (short_read_env 100) AllocReadBlocks
            (DIGSIG_ELF_READ_BLOCK_SIZE restrictive_config))
    with (Some (resize (Z.to_nat 4096) x00 [])).
  cbv iota beta.
  rewrite H. vm_compute. reflexivity.
Defined.

(** C4, as claimed, fails: the first read of a two-block file delivers 100
    bytes instead of 4096; the loop hashes these 100 bytes, goes on with the
    block at offset 4096, leaving bytes 100 to 4095 unread, and the
    verification ends with the verdict [0], accepted. *)
Lemma short_read_is_hashed_and_accepted :
  (kernel_read (short_read_env 100) 7 0 (replicate (Z.to_nat 4096) x00) 4096).1 = 100 ∧
  engine_summary
    (digsig_verify_signature restrictive_config (short_read_env 100) 2
       (replicate 512 xaa) 7 192)
  = Some (0, [EvRevocationCheck false; EvVerifyInit true;
              EvRead RdBlock 0 4096 100; EvVerifyUpdate [] 0;
              EvRead RdBlock 4096 4096 4096; EvVerifyUpdate [] 0;
              EvVerifyFinal 0]).
Proof. split; vm_compute; reflexivity. Qed.

(** A read of zero bytes does leave the loop, but with [retval = 0], the
    value that [digsig_mmap_file] takes for a successful verification. *)
Example zero_byte_read_returns_zero :
  engine_summary
    (digsig_verify_signature restrictive_config (short_read_env 0) 2
       (replicate 512 xaa) 7 192)
  = Some (0, [EvRevocationCheck false; EvVerifyInit true;
              EvRead RdBlock 0 4096 0]).
Proof. vm_compute. reflexivity. Qed.

(** ** Guard state: how the primitive updates act *)

Lemma get_inode_set_inode_security st i v j :
  get_inode (set_inode_security st i v) j
  = if decide (i = j)
    then {| i_security := v; i_writecount := i_writecount (get_inode st i) |}
    else get_inode st j.
Proof.
  unfold get_inode, set_inode_security; simpl.
  rewrite lookup_insert. by case_decide; simplify_eq.
Qed.

Lemma get_inode_add_writecount st i d j :
  get_inode (add_writecount st i d) j
  = if decide (i = j)
    then {| i_security := get_inode_security st i;
            i_writecount := i_writecount (get_inode st i) + d |}
    else get_inode st j.
Proof.
  unfold get_inode, add_writecount; simpl.
  rewrite lookup_insert. by case_decide; simplify_eq.
Qed.

Lemma isec_set_inode_security st i v j :
  get_inode_security (set_inode_security st i v) j
  = if decide (i = j) then v else get_inode_security st j.
Proof.
  unfold get_inode_security. rewrite get_inode_set_inode_security.
  by case_decide.
Qed.

Lemma wcount_set_inode_security st i v j :
  i_writecount (get_inode (set_inode_security st i v) j)
  = i_writecount (get_inode st j).
Proof. rewrite get_inode_set_inode_security. by case_decide; subst. Qed.

Lemma isec_add_writecount st i d j :
  get_inode_security (add_writecount st i d) j = get_inode_security st j.
Proof.
  unfold get_inode_security. rewrite get_inode_add_writecount.
  by case_decide; subst.
Qed.

Lemma wcount_add_writecount st i d j :
  i_writecount (get_inode (add_writecount st i d) j)
  = if decide (i = j) then i_writecount (get_inode st j) + d
    else i_writecount (get_inode st j).
Proof. rewrite get_inode_add_writecount. by case_decide; subst. Qed.

Lemma isec_set_file_security st fd v j :
  get_inode_security (set_file_security st fd v) j = get_inode_security st j.
Proof. done. Qed.

Lemma wcount_set_file_security st fd v j :
  i_writecount (get_inode (set_file_security st fd v) j)
  = i_writecount (get_inode st j).
Proof. done. Qed.

Lemma leases_set_file_inode st i v fd x j :
  leases (set_file_security (set_inode_security st i v) fd x) j
  = leases (set_file_security st fd x) j.
Proof. done. Qed.

Lemma count_alter (P : file → Prop) `{!∀ x, Decision (P x)} (g : file → file)
    (l : list file) (i : nat) (f : file) :
  l !! i = Some f →
  (length (filter P (alter g i l)) + (if decide (P f) then 1 else 0)
   = length (filter P l) + (if decide (P (g f)) then 1 else 0))%nat.
Proof.
  revert i. induction l as [|x l IH]; intros [|i] Hi; simplify_eq/=.
  - rewrite !filter_cons. repeat case_decide; simpl; lia.
  - specialize (IH i Hi). rewrite !filter_cons.
    repeat case_decide; simpl; lia.
Qed.

Lemma count_pos (P : file → Prop) `{!∀ x, Decision (P x)}
    (l : list file) (i : nat) (f : file) :
  l !! i = Some f → P f → (1 ≤ length (filter P l))%nat.
Proof.
  intros Hi HP.
  assert (f ∈ filter P l) as Hin.
  { apply list_elem_of_filter. split; [done|]. by eapply list_elem_of_lookup_2. }
  destruct (filter P l); [by apply not_elem_of_nil in Hin | simpl; lia].
Qed.

Lemma leases_acquire st fd f ino :
  files st !! fd = Some f → f_security f = 0 →
  leases (set_file_security st fd 1) ino
  = (leases st ino + (if decide (f_inode f = ino) then 1 else 0))%nat.
Proof.
  intros Hf H0. unfold leases, set_file_security; simpl.
  pose proof (count_alter (holds_lease ino) (with_f_security 1) _ _ _ Hf) as Hc.
  unfold holds_lease in *; simpl in *.
  repeat case_decide; simpl in *; try lia; naive_solver.
Qed.

Lemma leases_release st fd f ino :
  files st !! fd = Some f → f_security f ≠ 0 →
  (leases (set_file_security st fd 0) ino
   + (if decide (f_inode f = ino) then 1 else 0))%nat
  = leases st ino.
Proof.
  intros Hf H0. unfold leases, set_file_security; simpl.
  pose proof (count_alter (holds_lease ino) (with_f_security 0) _ _ _ Hf) as Hc.
  unfold holds_lease in *; simpl in *.
  repeat case_decide; simpl in *; try lia; naive_solver.
Qed.

Lemma leases_le st ino : (leases st ino ≤ length (files st))%nat.
Proof. apply length_filter. Qed.

(** ** Guard state: the invariant is kept by every step *)

Lemma boot_inv handles :
  Z.of_nat (length handles) < 2 ^ 64 → guard_inv (boot handles).
Proof.
  intros Hlen. split; simpl; try done.
  - intros ino. unfold get_inode_security, get_inode, leases; simpl.
    rewrite lookup_empty; simpl.
    assert (filter (holds_lease ino) (with_f_security 0 <$> handles) = []) as ->; [|done].
    induction handles as [|h hs IH]; [done|]. simpl in *.
    rewrite filter_cons. case_decide as Hd; [by destruct Hd|]. apply IH. lia.
  - by rewrite length_fmap.
Qed.

Lemma acquire_inv st fd f :
  guard_inv st → g_init st ≠ 0 →
  files st !! fd = Some f → f_security f = 0 →
  ¬ 0 < i_writecount (get_inode st (f_inode f)) →
  guard_inv (set_file_security
               (set_inode_security st (f_inode f)
                  (u64 (get_inode_security st (f_inode f) + 1))) fd 1).
Proof.
  intros [Hl Hh He Hc Hd] Hg Hf H0 Hw.
  set (v := u64 (get_inode_security st (f_inode f) + 1)).
  assert (∀ ino, leases (set_file_security (set_inode_security st (f_inode f) v) fd 1) ino
           = (leases st ino + (if decide (f_inode f = ino) then 1 else 0))%nat) as HL.
  { intros ino. by rewrite (leases_acquire _ fd f). }
  assert (v = get_inode_security st (f_inode f) + 1) as Hu.
  { apply u64_small. rewrite Hl.
    pose proof (HL (f_inode f)) as H1. rewrite decide_True in H1 by done.
    pose proof (leases_le (set_file_security (set_inode_security st (f_inode f) v) fd 1)
                  (f_inode f)) as H2.
    simpl in H2. rewrite length_alter in H2. lia. }
  split.
  - intros ino. rewrite HL, isec_set_file_security, isec_set_inode_security.
    case_decide; subst; rewrite ?Hu, Hl; lia.
  - simpl. by rewrite length_alter.
  - intros ino.
    rewrite wcount_set_file_security, wcount_set_inode_security,
      isec_set_file_security, isec_set_inode_security.
    case_decide; subst; [done|]. apply He.
  - intros ino Hin. split; [done|].
    rewrite wcount_set_file_security, wcount_set_inode_security. by apply Hc.
  - done.
Qed.

Lemma release_inv st fd f f' :
  guard_inv st →
  files st !! fd = Some f' → f_security f' ≠ 0 → f_inode f' = f_inode f →
  guard_inv (digsig_allow_write_access st fd f).
Proof.
  intros [Hl Hh He Hc Hd] Hf H0 Hi. unfold digsig_allow_write_access.
  assert (∀ ino, (leases (set_file_security st fd 0) ino
                  + (if decide (f_inode f = ino) then 1 else 0))%nat
                 = leases st ino) as HL.
  { intros ino. rewrite <- Hi. by rewrite (leases_release _ fd f'). }
  assert (u64 (get_inode_security st (f_inode f) - 1)
          = get_inode_security st (f_inode f) - 1) as ->.
  { apply u64_small. rewrite Hl.
    pose proof (HL (f_inode f)) as H1. rewrite decide_True in H1 by done.
    pose proof (leases_le st (f_inode f)). lia. }
  split.
  - intros ino.
    rewrite leases_set_file_inode, isec_set_file_security, isec_set_inode_security.
    specialize (HL ino).
    destruct (decide (f_inode f = ino)); subst; rewrite Hl; lia.
  - simpl. by rewrite length_alter.
  - intros ino.
    rewrite wcount_set_file_security, wcount_set_inode_security,
      isec_set_file_security, isec_set_inode_security.
    intros Hw. specialize (He ino Hw). specialize (HL ino).
    destruct (decide (f_inode f = ino)); subst; [|done].
    rewrite Hl in *. lia.
  - intros ino Hin. apply Hc in Hin as [? ?]. split; [done|].
    by rewrite wcount_set_file_security, wcount_set_inode_security.
  - intros Hg ino. specialize (Hd Hg). specialize (HL ino).
    rewrite isec_set_file_security, isec_set_inode_security.
    destruct (decide (f_inode f = ino)); subst; [|done].
    pose proof (Hd (f_inode f)) as H1. rewrite Hl in *. lia.
Qed.

Lemma cache_insert_inv st ino :
  guard_inv st → g_init st ≠ 0 → i_writecount (get_inode st ino) ≤ 0 →
  guard_inv (digsig_cache_signature st ino).
Proof.
  intros [Hl Hh He Hc Hd] Hg Hw. split; try done.
  intros j Hj. simpl in Hj. apply elem_of_union in Hj as [Hj|Hj].
  - apply elem_of_singleton in Hj as ->. done.
  - by apply Hc.
Qed.

Lemma cache_remove_inv st ino :
  guard_inv st → guard_inv (remove_signature st ino).
Proof.
  intros [Hl Hh He Hc Hd]. split; try done.
  intros j Hj. simpl in Hj. apply elem_of_difference in Hj as [Hj _]. by apply Hc.
Qed.

Lemma add_writer_inv st ino :
  guard_inv st → get_inode_security st ino = 0 → ino ∉ sig_cache st →
  guard_inv (add_writecount st ino 1).
Proof.
  intros [Hl Hh He Hc Hd] H0 Hn. split; try done.
  - intros j. rewrite isec_add_writecount. apply Hl.
  - intros j. rewrite isec_add_writecount, wcount_add_writecount.
    case_decide; subst; [done|]. apply He.
  - intros j Hj. apply Hc in Hj as Hj'. destruct Hj' as [? ?]. split; [done|].
    rewrite wcount_add_writecount. case_decide; subst; done.
  - intros Hg j. rewrite isec_add_writecount. by apply Hd.
Qed.

Lemma drop_writer_inv st ino :
  guard_inv st → guard_inv (add_writecount st ino (-1)).
Proof.
  intros [Hl Hh He Hc Hd]. split; try done.
  - intros j. rewrite isec_add_writecount. apply Hl.
  - intros j. rewrite isec_add_writecount, wcount_add_writecount.
    case_decide; subst; intros; apply He; lia.
  - intros j Hj. apply Hc in Hj as [? ?]. split; [done|].
    rewrite wcount_add_writecount. case_decide; subst; lia.
  - intros Hg j. rewrite isec_add_writecount. by apply Hd.
Qed.

Lemma provide_key_inv st : guard_inv st → guard_inv (set_g_init st 1).
Proof.
  intros [Hl Hh He Hc Hd]. split; try done.
  intros j Hj. split; [done|]. by apply Hc.
Qed.

(** ** The gate: what a call can do to the state *)

(** The check either leaves the state alone or, with no writer in the way
    and after the engine returned [0], adds the identity to the cache. *)
Lemma mmap_file_check_state C E fuel st ino d a r a' st' log :
  digsig_mmap_file_check C E fuel st ino d a = Some (r, a', st', log) →
  (st' = st ∧ (a' = a ∨ (a' = false ∧ r = 0))) ∨
  (st' = digsig_cache_signature st ino ∧ a' = false ∧ d = 0 ∧ r = 0 ∧
   is_cached_signature st ino = false ∧
   ∃ sig_orig sh_offset l,
     digsig_verify_signature C E fuel sig_orig ino sh_offset = Some (0, l)).
Proof.
  unfold digsig_mmap_file_check. intros H.
  repeat case_match; simplify_eq; eauto.
  all: match goal with
       | Hv : digsig_verify_signature _ _ _ _ _ _ = Some (?r, _) |- _ =>
           assert (r = 0) as -> by (by apply Z.eqb_eq)
       end.
  all: right; repeat split; eauto.
  all: rewrite negb_false_iff in *; by apply Z.eqb_eq.
Qed.

(** Case analysis on the result of the check inside the gate. *)
Ltac destruct_check Hc :=
  destruct (digsig_mmap_file_check _ _ _ _ _ _ _)
    as [[[[? ?] ?] ?]|] eqn:Hc; [|done];
  intros ?; simplify_eq.

Lemma permission_inv st inode mask :
  guard_inv st → guard_inv (digsig_inode_permission st inode mask).1.2.
Proof.
  intros Hinv. unfold digsig_inode_permission.
  repeat case_match; simpl; try done. by apply cache_remove_inv.
Qed.

Lemma request_write_open_inv st ino :
  guard_inv st → guard_inv (request_write_open st ino).2.
Proof.
  intros Hinv. unfold request_write_open, digsig_inode_permission.
  change (Z.land MAY_WRITE MAY_WRITE =? 0) with false. cbn [negb].
  destruct (g_init st =? 0) eqn:Hg; simpl.
  - apply Z.eqb_eq in Hg. apply add_writer_inv; [done|by apply inv_disabled|].
    intros Hin. by apply (inv_cached _ Hinv) in Hin as [? _].
  - destruct (0 <? get_inode_security st ino) eqn:Hs; simpl; [done|].
    apply Z.ltb_ge in Hs.
    assert (get_inode_security st ino = 0) as H0.
    { rewrite (inv_leases _ Hinv) in *. lia. }
    unfold is_cached_signature. case_bool_decide; simpl.
    + apply add_writer_inv; [by apply cache_remove_inv|done|].
      simpl. intros Hin. apply elem_of_difference in Hin as [_ Hn].
      apply Hn. by apply elem_of_singleton.
    + by apply add_writer_inv.
Qed.

Lemma file_free_inv st fd : guard_inv st → guard_inv (digsig_file_free_security st fd).
Proof.
  intros Hinv. unfold digsig_file_free_security.
  destruct (files st !! fd) as [f|] eqn:Hf; [|done].
  destruct (f_security f =? 0) eqn:H0; simpl; [done|].
  apply Z.eqb_neq in H0. by apply (release_inv st fd f f).
Qed.

Lemma mmap_file_inv C E fuel st file reqprot r st' log :
  guard_inv st →
  digsig_mmap_file C E fuel st file reqprot = Some (r, st', log) →
  guard_inv st'.
Proof.
  intros Hinv. unfold digsig_mmap_file.
  destruct (g_init st =? 0) eqn:Hg; [by intros; simplify_eq|].
  apply Z.eqb_neq in Hg.
  destruct (Z.land reqprot VM_EXEC =? 0); [by intros; simplify_eq|].
  destruct file as [fd|]; simpl; [|by intros; simplify_eq].
  destruct (files st !! fd) as [f|] eqn:Hf; simpl; [|by intros; simplify_eq].
  destruct (negb (f_dentry f)); [by intros; simplify_eq|].
  destruct (negb (d_name f)); [by intros; simplify_eq|].
  destruct (is_unprotected_file C f); [by intros; simplify_eq|].
  destruct (f_security f =? 0) eqn:H0.
  - apply Z.eqb_eq in H0. unfold digsig_deny_write_access.
    destruct (0 <? i_writecount (get_inode st (f_inode f))) eqn:Hw; simpl.
    + destruct_check Hc.
      apply mmap_file_check_state in Hc as [[-> [->| [-> _]]]|(_ & _ & ? & _)];
        done.
    + apply Z.ltb_ge in Hw.
      pose proof (acquire_inv st fd f Hinv Hg Hf H0 ltac:(lia)) as Hinv1.
      set (st1 := set_file_security _ fd 1) in *.
      assert (files st1 !! fd = Some (with_f_security 1 f)) as Hf1.
      { simpl. by rewrite list_lookup_alter_eq, Hf. }
      destruct_check Hc.
      apply mmap_file_check_state in Hc as [[-> [->| [-> _]]]|(-> & -> & _)].
      * by apply (release_inv st1 fd f (with_f_security 1 f)).
      * done.
      * apply cache_insert_inv; [done|done|].
        subst st1. rewrite wcount_set_file_security, wcount_set_inode_security.
        done.
  - apply Z.eqb_neq in H0.
    destruct_check Hc.
    apply mmap_file_check_state in Hc as [[-> [->| [-> _]]]|(-> & -> & _)];
      try done.
    apply cache_insert_inv; [done|done|].
    pose proof (count_pos (holds_lease (f_inode f)) _ _ _ Hf ltac:(done)) as Hp.
    fold (leases st (f_inode f)) in Hp.
    destruct (decide (0 < i_writecount (get_inode st (f_inode f)))) as [Hw|]; [|lia].
    apply (inv_excl _ Hinv) in Hw. rewrite (inv_leases _ Hinv) in Hw. lia.
Qed.

Lemma step_inv C o st st' : guard_inv st → step C o st = Some st' → guard_inv st'.
Proof.
  intros Hinv. destruct o; simpl; intros Hs; simplify_eq.
  - by apply provide_key_inv.
  - by apply request_write_open_inv.
  - case_match; [by apply drop_writer_inv|done].
  - by apply permission_inv.
  - unfold digsig_inode_unlink. repeat case_match; simpl; try done.
    by apply cache_remove_inv.
  - unfold digsig_inode_free_security. case_match; simpl; try done.
    by apply cache_remove_inv.
  - destruct (digsig_mmap_file _ _ _ _ _ _) as [[[r st2] log]|] eqn:Hm;
      simplify_eq/=.
    by eapply mmap_file_inv.
  - by apply file_free_inv.
Qed.

Lemma run_inv C ops st st' : guard_inv st → run C ops st = Some st' → guard_inv st'.
Proof.
  revert st. induction ops as [|o ops IH]; intros st Hinv Hr; simplify_eq/=.
  - done.
  - destruct (step C o st) as [st1|] eqn:Hs; simplify_eq/=.
    eapply IH; [|done]. by eapply step_inv.
Qed.

(** ** Write/exec guard (C6) *)

(** C6 (amended).  From the load-time state, after any sequence of hook
    calls (with fewer than [2^64] handles open) no inode has at the same
    time a writer ([i_writecount > 0]) and an executable mapping
    ([i_security > 0]): while [i_security > 0] a write request is denied
    by the permission hook, with the error [-EPERM], and while
    [i_writecount > 0] acquiring the exec-map lease fails, with the
    busy-text error [-ETXTBSY], both leaving the state as it is. *)
Theorem guard_mutual_exclusion
    (C : config) (handles : list file) (ops : list op) (st : kstate) :
  Z.of_nat (length handles) < 2 ^ 64 →
  run C ops (boot handles) = Some st →
  (∀ ino, ¬ (0 < i_writecount (get_inode st ino) ∧ 0 < get_inode_security st ino)) ∧
  (∀ ino mask, 0 < get_inode_security st ino → Z.land mask MAY_WRITE ≠ 0 →
     digsig_inode_permission st (Some ino) mask = (- EPERM, st, []) ∧
     request_write_open st ino = (- EPERM, st)) ∧
  (∀ fd f, 0 < i_writecount (get_inode st (f_inode f)) →
     digsig_deny_write_access st fd f = (- ETXTBSY, st)).
Proof.
  intros Hlen Hrun.
  pose proof (run_inv C ops _ _ (boot_inv handles Hlen) Hrun) as Hinv.
  split; [|split].
  - intros ino [Hw Hs]. apply (inv_excl _ Hinv) in Hw. lia.
  - intros ino mask Hs Hm.
    assert ((g_init st =? 0) = false) as Hg.
    { apply Z.eqb_neq. intros Hg. rewrite (inv_disabled _ Hinv Hg) in Hs. lia. }
    unfold request_write_open, digsig_inode_permission. rewrite Hg.
    change (Z.land MAY_WRITE MAY_WRITE =? 0) with false.
    rewrite (proj2 (Z.eqb_neq _ _) Hm). cbn [negb].
    by rewrite (proj2 (Z.ltb_lt _ _) Hs).
  - intros fd f Hw. unfold digsig_deny_write_access.
    by rewrite (proj2 (Z.ltb_lt _ _) Hw).
Qed.

Lemma guard_mutual_exclusion_witness :
  Z.of_nat (length [plain_file 7]) < 2 ^ 64 ∧
  run restrictive_config
    [OpProvideKey;
     OpMmap (file_env (signed_image 512) 0) 1 (Some 0%nat) VM_EXEC]
    (boot [plain_file 7]) = Some leased_state ∧
  get_inode_security leased_state 7 = 1 ∧
  digsig_inode_permission leased_state (Some 7%nat) MAY_WRITE
  = (- EPERM, leased_state, []).
Proof.
  assert (run restrictive_config
            [OpProvideKey;
             OpMmap (file_env (signed_image 512) 0) 1 (Some 0%nat) VM_EXEC]
            (boot [plain_file 7]) = Some leased_state) as Hrun
    by (vm_compute; reflexivity).
  split; [simpl; lia|]. split; [exact Hrun|]. split; [reflexivity|].
  apply (guard_mutual_exclusion restrictive_config [plain_file 7] _
           leased_state ltac:(simpl; lia) Hrun).
  - assert (get_inode_security leased_state 7 = 1) as ->
      by (vm_compute; reflexivity).
    lia.
  - vm_compute; lia.
Defined.

(** C6, as claimed, fails on the error of the denied write-open: with an
    executable mapping outstanding ([i_security = 1]) the permission hook
    answers a write request with [-EPERM], not with the busy-text error
    [-ETXTBSY]. *)
Lemma write_open_denied_with_eperm :
  get_inode_security leased_state 7 = 1 ∧
  digsig_inode_permission leased_state (Some 7%nat) MAY_WRITE
  = (- EPERM, leased_state, []) ∧
  - EPERM ≠ - ETXTBSY.
Proof. repeat split; vm_compute; congruence. Qed.

(** ** Exec-map requests while the file is written (C7) *)

Lemma read_elf_header_log E ino e :
  e ∈ (read_elf_header E ino).2 → ∃ r, e = EvRead RdHeader 0 sizeof_elf64_hdr r.
Proof.
  unfold read_elf_header. repeat case_match; simpl;
    intros Hin; try by apply not_elem_of_nil in Hin.
  all: apply list_elem_of_singleton in Hin; eauto.
Qed.

(** In every state the hooks can reach, an inode with a writer is not in
    the cache and no handle holds a lease on it. *)
Lemma writer_excludes_cache_and_lease C handles ops st fd f :
  Z.of_nat (length handles) < 2 ^ 64 →
  run C ops (boot handles) = Some st →
  files st !! fd = Some f →
  0 < i_writecount (get_inode st (f_inode f)) →
  is_cached_signature st (f_inode f) = false ∧ f_security f = 0.
Proof.
  intros Hlen Hrun Hf Hw.
  pose proof (run_inv C ops _ _ (boot_inv handles Hlen) Hrun) as Hinv.
  split.
  - unfold is_cached_signature. case_bool_decide as Hin; [|done].
    apply (inv_cached _ Hinv) in Hin as [_ ?]. lia.
  - destruct (decide (f_security f = 0)) as [|Hn]; [done|].
    pose proof (count_pos (holds_lease (f_inode f)) _ _ _ Hf ltac:(done)) as Hp.
    fold (leases st (f_inode f)) in Hp.
    apply (inv_excl _ Hinv) in Hw. rewrite (inv_leases _ Hinv) in Hw. lia.
Qed.

(** C7 (amended).  An exec-map request that the gate examines, by a
    handle without a lease, on an inode that has a writer and is not
    cached, is answered from the header alone: the gate looks up the cache,
    reads and checks the ELF header, and then allows the mapping ([0]) if
    the file is not an ELF image, returns the header reader's error if it
    has one, and denies with [-ETXTBSY] if the header is a well-formed ELF
    header.  In all three cases the section table and the signature are
    not read, nothing is hashed, and the state is left as it is (no lease
    is taken, nothing is cached). *)
Theorem exec_map_with_writer_checks_header_only
    (C : config) (E : env) (fuel : nat) (st : kstate) (fd : nat) (f : file)
    (reqprot : Z) :
  gate_applies C st fd f reqprot →
  f_security f = 0 →
  is_cached_signature st (f_inode f) = false →
  0 < i_writecount (get_inode st (f_inode f)) →
  let hdr := read_elf_header E (f_inode f) in
  digsig_mmap_file C E fuel st (Some fd) reqprot
  = Some (match hdr.1 with
          | NullPtr => 0
          | ErrPtr e => e
          | Ptr _ => - ETXTBSY
          end, st, EvCacheLookup (f_inode f) false :: hdr.2) ∧
  ∀ e, e ∈ hdr.2 → ∃ r, e = EvRead RdHeader 0 sizeof_elf64_hdr r.
Proof.
  intros Hgate H0 Hc Hw hdr.
  split; [|apply read_elf_header_log].
  rewrite (mmap_file_past_entry _ _ _ _ _ _ _ Hgate), H0. simpl.
  unfold digsig_deny_write_access. rewrite (proj2 (Z.ltb_lt _ _) Hw). simpl.
  unfold digsig_mmap_file_check. rewrite Hc.
  subst hdr. destruct (read_elf_header E (f_inode f)) as [[| |] l]; done.
Qed.

Lemma exec_map_with_writer_witness :
  gate_applies restrictive_config writer_state 0 (plain_file 7) VM_EXEC ∧
  0 < i_writecount (get_inode writer_state 7) ∧
  digsig_mmap_file restrictive_config (file_env (signed_image 512) 0) 0
    writer_state (Some 0%nat) VM_EXEC
  = Some (- ETXTBSY, writer_state,
          [EvCacheLookup 7 false; EvRead RdHeader 0 64 64]).
Proof.
  assert (gate_applies restrictive_config writer_state 0 (plain_file 7) VM_EXEC)
    as Hgate by (repeat split; vm_compute; first [reflexivity | lia]).
  split; [exact Hgate|]. split; [vm_compute; reflexivity|].
  unshelve epose proof
    (exec_map_with_writer_checks_header_only restrictive_config
       (file_env (signed_image 512) 0) 0 writer_state 0 (plain_file 7)
       VM_EXEC Hgate _ _ _) as H.
  1-3: vm_compute; reflexivity.
  destruct H as [H _]. rewrite H. vm_compute. reflexivity.
Defined.

(** C7, as claimed, fails: with a writer on the inode, the gate still
    reads the header of the file, and a file that is not an ELF image (here
    a shell script) is allowed to be mapped executable. *)
Lemma exec_map_with_writer_reads_header_and_allows_non_elf :
  0 < i_writecount (get_inode writer_state 7) ∧
  digsig_mmap_file restrictive_config (file_env script 0) 0
    writer_state (Some 0%nat) VM_EXEC
  = Some (0, writer_state, [EvCacheLookup 7 false; EvRead RdHeader 0 64 10]).
Proof. split; vm_compute; reflexivity. Qed.

(** ** Verdict cache (C8, C9) *)

(** The check looks at the state only through the cache lookup. *)
Lemma mmap_file_check_cong C E fuel st sa ino d a :
  is_cached_signature st ino = is_cached_signature sa ino →
  (λ x, (x.1.1.1, x.1.1.2, x.2)) <$> digsig_mmap_file_check C E fuel st ino d a
  = (λ x, (x.1.1.1, x.1.1.2, x.2)) <$> digsig_mmap_file_check C E fuel sa ino d a.
Proof.
  intros Hc. unfold digsig_mmap_file_check. rewrite Hc.
  repeat case_match; simplify_eq; done.
Qed.

(** The gate's verdict and log depend on the state only through the
    flag, the handle, the inode's writers and the cache. *)
Lemma mmap_file_cong C E fuel st sa fd reqprot :
  g_init st = g_init sa →
  files st !! fd = files sa !! fd →
  (∀ ino, i_writecount (get_inode st ino) = i_writecount (get_inode sa ino)) →
  sig_cache st = sig_cache sa →
  (λ x, (x.1.1, x.2)) <$> digsig_mmap_file C E fuel st (Some fd) reqprot
  = (λ x, (x.1.1, x.2)) <$> digsig_mmap_file C E fuel sa (Some fd) reqprot.
Proof.
  intros Hg Hf Hw Hc. unfold digsig_mmap_file. rewrite <- Hg.
  destruct (g_init st =? 0); [done|].
  destruct (Z.land reqprot VM_EXEC =? 0); [done|].
  simpl. rewrite <- Hf. destruct (files st !! fd) as [f|]; simpl; [|done].
  destruct (negb (f_dentry f)); [done|].
  destruct (negb (d_name f)); [done|].
  destruct (is_unprotected_file C f); [done|].
  unfold digsig_deny_write_access. rewrite <- Hw.
  assert (∀ s1 s2 d a, sig_cache s1 = sig_cache s2 →
           (λ x, (x.1.1.1, x.1.1.2, x.2)) <$>
             digsig_mmap_file_check C E fuel s1 (f_inode f) d a
           = (λ x, (x.1.1.1, x.1.1.2, x.2)) <$>
             digsig_mmap_file_check C E fuel s2 (f_inode f) d a) as Hcheck.
  { intros s1 s2 d a Hs. apply mmap_file_check_cong.
    unfold is_cached_signature. by rewrite Hs. }
  destruct (f_security f =? 0);
    [destruct (0 <? i_writecount (get_inode st (f_inode f)))|]; simpl.
  - specialize (Hcheck st sa (- ETXTBSY) false Hc).
    destruct (digsig_mmap_file_check C E fuel st _ _ _) as [[[[? ?] ?] ?]|];
      destruct (digsig_mmap_file_check C E fuel sa _ _ _) as [[[[? ?] ?] ?]|];
      simplify_eq/=; done.
  - match goal with
    | |- context [digsig_mmap_file_check C E fuel ?s1 _ 0 true] =>
        match goal with
        | |- context [_ = _ <$> match digsig_mmap_file_check C E fuel ?s2 _ 0 true with _ => _ end] =>
            specialize (Hcheck s1 s2 0 true Hc)
        end
    end.
    destruct (digsig_mmap_file_check C E fuel _ _ 0 true) as [[[[? ?] ?] ?]|];
      destruct (digsig_mmap_file_check C E fuel _ _ 0 true) as [[[[? ?] ?] ?]|];
      simplify_eq/=; done.
  - specialize (Hcheck st sa 0 false Hc).
    destruct (digsig_mmap_file_check C E fuel st _ _ _) as [[[[? ?] ?] ?]|];
      destruct (digsig_mmap_file_check C E fuel sa _ _ _) as [[[[? ?] ?] ?]|];
      simplify_eq/=; done.
Qed.

Lemma files_release_acquire st fd f i v w :
  files st !! fd = Some f → f_security f = 0 →
  files (digsig_allow_write_access
           (set_file_security (set_inode_security st i v) fd 1) fd w) !! fd
  = Some f.
Proof.
  intros Hf H0. simpl. rewrite !list_lookup_alter_eq, Hf. simpl.
  f_equal. by destruct f; simplify_eq/=.
Qed.

(** What a call of the gate on an open handle leaves behind. *)
Lemma mmap_file_effect C E fuel st fd f reqprot r st' log :
  files st !! fd = Some f →
  digsig_mmap_file C E fuel st (Some fd) reqprot = Some (r, st', log) →
  g_init st' = g_init st ∧
  (∀ ino, i_writecount (get_inode st' ino) = i_writecount (get_inode st ino)) ∧
  (r ≠ 0 → files st' !! fd = Some f) ∧
  (sig_cache st' = sig_cache st ∨
   r = 0 ∧ sig_cache st' = {[f_inode f]} ∪ sig_cache st ∧
   is_cached_signature st (f_inode f) = false ∧
   ∃ sig_orig sh_offset l,
     digsig_verify_signature C E fuel sig_orig (f_inode f) sh_offset
     = Some (0, l)).
Proof.
  intros Hf. unfold digsig_mmap_file.
  destruct (g_init st =? 0); [intros; simplify_eq; eauto|].
  destruct (Z.land reqprot VM_EXEC =? 0); [intros; simplify_eq; eauto|].
  simpl. rewrite Hf. simpl.
  destruct (negb (f_dentry f)); [intros; simplify_eq; eauto|].
  destruct (negb (d_name f)); [intros; simplify_eq; eauto|].
  destruct (is_unprotected_file C f); [intros; simplify_eq; eauto|].
  unfold digsig_deny_write_access.
  destruct (f_security f =? 0) eqn:H0;
    [apply Z.eqb_eq in H0;
     destruct (0 <? i_writecount (get_inode st (f_inode f)))|]; simpl.
  - destruct_check Hc.
    apply mmap_file_check_state in Hc
      as [[-> [->| [-> _]]]|(_ & _ & ? & _)]; try done; eauto.
  - destruct_check Hc.
    apply mmap_file_check_state in Hc
      as [[-> [->| [-> ->]]]|(-> & -> & _ & -> & Hn & Hv)].
    + repeat split; eauto.
      * intros ino. unfold digsig_allow_write_access.
        by rewrite wcount_set_file_security, wcount_set_inode_security,
          wcount_set_file_security, wcount_set_inode_security.
      * intros _. by apply files_release_acquire.
    + repeat split; eauto; try done.
      intros ino.
      by rewrite wcount_set_file_security, wcount_set_inode_security.
    + repeat split; eauto; try done.
      intros ino.
      change (i_writecount (get_inode (digsig_cache_signature ?s _) ino))
        with (i_writecount (get_inode s ino)).
      by rewrite wcount_set_file_security, wcount_set_inode_security.
  - destruct_check Hc.
    apply mmap_file_check_state in Hc
      as [[-> [->| [-> ->]]]|(-> & -> & _ & -> & Hn & Hv)];
      repeat split; eauto; done.
Qed.

Lemma mmap_file_rejected C E fuel st file reqprot r st' log :
  digsig_mmap_file C E fuel st file reqprot = Some (r, st', log) →
  r ≠ 0 →
  sig_cache st' = sig_cache st ∧
  ∃ st'', digsig_mmap_file C E fuel st' file reqprot = Some (r, st'', log).
Proof.
  intros Hm Hr.
  destruct file as [fd|]; [destruct (files st !! fd) as [f|] eqn:Hf|].
  - pose proof (mmap_file_effect _ _ _ _ _ _ _ _ _ _ Hf Hm)
      as (Hg & Hw & Hfiles & Hcache).
    assert (sig_cache st' = sig_cache st) as Hc
      by (by destruct Hcache as [?|[? _]]).
    split; [done|].
    pose proof (mmap_file_cong C E fuel st' st fd reqprot Hg
                  ltac:(by rewrite Hfiles, Hf) Hw Hc) as Heq.
    rewrite Hm in Heq. simpl in Heq.
    destruct (digsig_mmap_file C E fuel st' (Some fd) reqprot)
      as [[[r2 st2] log2]|]; simplify_eq/=. eauto.
  - unfold digsig_mmap_file in Hm. simpl in Hm. rewrite Hf in Hm. simpl in Hm.
    repeat case_match; simplify_eq.
  - unfold digsig_mmap_file in Hm. simpl in Hm.
    repeat case_match; simplify_eq.
Qed.

(** The hooks other than the gate never add to the cache. *)
Lemma other_hooks_only_remove st :
  (∀ inode mask, sig_cache (digsig_inode_permission st inode mask).1.2 ⊆ sig_cache st) ∧
  (∀ ino, sig_cache (request_write_open st ino).2 ⊆ sig_cache st) ∧
  (∀ ino, sig_cache (digsig_inode_unlink st ino).1.2 ⊆ sig_cache st) ∧
  (∀ ino, sig_cache (digsig_inode_free_security st ino).1 ⊆ sig_cache st) ∧
  (∀ fd, sig_cache (digsig_file_free_security st fd) ⊆ sig_cache st).
Proof.
  assert (∀ ino, sig_cache st ∖ {[ino]} ⊆ sig_cache st) as Hd.
  { intros ino x Hx. by apply elem_of_difference in Hx as [? _]. }
  assert (∀ inode mask,
            sig_cache (digsig_inode_permission st inode mask).1.2 ⊆ sig_cache st) as Hp.
  { intros inode mask. unfold digsig_inode_permission.
    repeat case_match; simpl; auto. }
  repeat split; auto.
  - intros ino. unfold request_write_open.
    specialize (Hp (Some ino) MAY_WRITE).
    destruct (digsig_inode_permission st (Some ino) MAY_WRITE) as [[r s1] l].
    by destruct (r =? 0).
  - intros ino. unfold digsig_inode_unlink. repeat case_match; simpl; auto.
  - intros ino. unfold digsig_inode_free_security. case_match; simpl; auto.
  - intros fd. unfold digsig_file_free_security. repeat case_match; simpl; auto.
Qed.

(** In every state the hooks can reach, no inode has a negative number
    of writers. *)
Lemma step_writecount_nonneg C o st st' :
  (∀ ino, 0 ≤ i_writecount (get_inode st ino)) →
  step C o st = Some st' →
  ∀ ino, 0 ≤ i_writecount (get_inode st' ino).
Proof.
  intros H.
  destruct o as [|i|i|inode mask|i|i|E fuel file reqprot|fd0];
    simpl; intros Hs ino; simplify_eq.
  - apply H.
  - unfold request_write_open.
    destruct (digsig_inode_permission st (Some i) MAY_WRITE)
      as [[r s1] l] eqn:Hp.
    assert (∀ j, get_inode s1 j = get_inode st j) as Hget.
    { intros j. unfold digsig_inode_permission in Hp.
      repeat case_match; simplify_eq; done. }
    pose proof (H ino) as Hi.
    destruct (r =? 0); simpl; [|by rewrite Hget].
    rewrite wcount_add_writecount, Hget. case_decide; lia.
  - destruct (0 <? i_writecount (get_inode st i)) eqn:Hw; [|apply H].
    apply Z.ltb_lt in Hw.
    rewrite wcount_add_writecount. case_decide; [subst; lia|apply H].
  - unfold digsig_inode_permission. repeat case_match; simpl; apply H.
  - unfold digsig_inode_unlink. repeat case_match; simpl; apply H.
  - unfold digsig_inode_free_security. case_match; simpl; apply H.
  - destruct (digsig_mmap_file C E fuel st file reqprot)
      as [[[r st2] log]|] eqn:Hm; simplify_eq/=.
    destruct file as [fd|]; [destruct (files st !! fd) as [f|] eqn:Hfd|].
    + pose proof (mmap_file_effect _ _ _ _ _ _ _ _ _ _ Hfd Hm) as (_ & Hw & _).
      rewrite Hw. apply H.
    + unfold digsig_mmap_file in Hm. simpl in Hm. rewrite Hfd in Hm.
      simpl in Hm. repeat case_match; simplify_eq; apply H.
    + unfold digsig_mmap_file in Hm. simpl in Hm.
      repeat case_match; simplify_eq; apply H.
  - unfold digsig_file_free_security. repeat case_match; try apply H.
    unfold digsig_allow_write_access.
    rewrite wcount_set_file_security, wcount_set_inode_security. apply H.
Qed.

Lemma run_writecount_nonneg C handles ops st :
  run C ops (boot handles) = Some st →
  ∀ ino, 0 ≤ i_writecount (get_inode st ino).
Proof.
  assert (∀ s, (∀ ino, 0 ≤ i_writecount (get_inode s ino)) →
               run C ops s = Some st →
               ∀ ino, 0 ≤ i_writecount (get_inode st ino)) as Hgen.
  { induction ops as [|o ops IH]; intros s Hs Hr; simplify_eq/=; [done|].
    destruct (step C o s) as [s1|] eqn:Hstep; simplify_eq/=.
    eapply IH; [|done]. by eapply step_writecount_nonneg. }
  apply Hgen. intros ino. done.
Qed.

(** A check that misses the cache, with no writer in the way, is the
    full verification. *)
Lemma mmap_file_check_full_verification C E fuel st ino a :
  is_cached_signature st ino = false →
  digsig_mmap_file_check C E fuel st ino 0 a
  = match full_verification C E fuel ino with
    | None => None
    | Some (r, cached, log) =>
        Some (r, if cached then false else a,
              if cached then digsig_cache_signature st ino else st,
              full_verification_log ino cached log)
    end.
Proof.
  intros Hc.
  unfold digsig_mmap_file_check, full_verification, full_verification_log,
    digsig_find_signature, section_count, expected_entry_size,
    section_table_offset, header_is_32bit.
  rewrite Hc.
  destruct (read_elf_header E ino) as [[|e|hdr] l1]; simpl;
    rewrite ?app_nil_r; try done.
  destruct (e_class hdr =? ELFCLASS32).
  - destruct (read_section_header E ino _ _) as [[e|sh] l2]; simpl;
      rewrite ?app_nil_r; try done.
    destruct (digsig_find_signature32 C E hdr sh ino) as [[[sig off]|] l3];
      simpl; rewrite ?app_nil_r; try done.
    destruct (digsig_verify_signature C E fuel sig ino off) as [[rv l4]|];
      [|done].
    destruct (rv =? 0) eqn:Hrv; simpl; rewrite ?app_nil_r; [|done].
    apply Z.eqb_eq in Hrv. by subst.
  - destruct (read_section_header E ino _ _) as [[e|sh] l2]; simpl;
      rewrite ?app_nil_r; try done.
    destruct (digsig_find_signature64 C E hdr sh ino) as [[[sig off]|] l3];
      simpl; rewrite ?app_nil_r; try done.
    destruct (digsig_verify_signature C E fuel sig ino off) as [[rv l4]|];
      [|done].
    destruct (rv =? 0) eqn:Hrv; simpl; rewrite ?app_nil_r; [|done].
    apply Z.eqb_eq in Hrv. by subst.
Qed.

(** A request that the gate examines, on an inode that is not in the
    cache and whose writers, if any, are not in the handle's way, runs the
    full verification: what the gate returns and logs is what the full
    verification gives, and the inode is in the cache afterwards exactly
    when it says so. *)
Lemma mmap_file_full_verification C E fuel st fd f reqprot :
  gate_applies C st fd f reqprot →
  is_cached_signature st (f_inode f) = false →
  (f_security f = 0 → i_writecount (get_inode st (f_inode f)) ≤ 0) →
  match full_verification C E fuel (f_inode f) with
  | None => digsig_mmap_file C E fuel st (Some fd) reqprot = None
  | Some (r, cached, log) =>
      ∃ st2,
        digsig_mmap_file C E fuel st (Some fd) reqprot
        = Some (r, st2, full_verification_log (f_inode f) cached log) ∧
        (f_inode f ∈ sig_cache st2 ↔ cached = true)
  end.
Proof.
  intros Hgate Hc Hw.
  assert (f_inode f ∉ sig_cache st) as Hn.
  { unfold is_cached_signature in Hc. by apply bool_decide_eq_false in Hc. }
  rewrite (mmap_file_past_entry _ _ _ _ _ _ _ Hgate).
  unfold digsig_deny_write_access.
  destruct (f_security f =? 0) eqn:H0;
    [apply Z.eqb_eq in H0; rewrite (proj2 (Z.ltb_ge _ _) (Hw H0))|]; simpl;
    rewrite mmap_file_check_full_verification by done;
    destruct (full_verification C E fuel (f_inode f)) as [[[r cached] log]|];
    try done.
  all: destruct cached; eexists; (split; [reflexivity|]); simpl.
  all: split; try done.
  all: intros _; apply elem_of_union_l; by apply elem_of_singleton_2.
Qed.

(** The full verification asks for the cache only when it returns [0]. *)
Lemma full_verification_cached C E fuel ino r cached log :
  full_verification C E fuel ino = Some (r, cached, log) →
  cached = true → r = 0.
Proof.
  unfold full_verification. intros H Hc.
  repeat case_match; simplify_eq; done.
Qed.

(** C8.  The claim: an identity is inserted into the cache only after an
    Accepted verdict, and an outcome that is not Accepted is never
    cached.  The code caches whenever the verify engine returns [0], and
    the engine returns [0] also when a block read delivers no bytes: it
    leaves the loop as for a failed read, but with [retval = 0], and the
    final verification is not run.  Here the signed image lies on a
    filesystem that reports a size of two blocks for it, and the final
    verification would reject its signature.  From the load-time state,
    the gate hashes the 768 bytes of the image, meets the end of the file
    at offset [4096], returns [0] and inserts inode [7] into the cache,
    without a final verification; from then on every exec-map request
    through the handle is answered from the cache. *)
Theorem end_of_file_read_is_cached :
  let request :=
    digsig_mmap_file restrictive_config stale_size_env 2 ready_state
      (Some 0%nat) VM_EXEC in
  run restrictive_config [OpProvideKey] (boot [plain_file 7]) = Some ready_state ∧
  (∀ ctx sig, digsig_sign_verify_final stale_size_env ctx sig ≠ 0) ∧
  verdict_and_log request
  = Some (0, [EvCacheLookup 7 false; EvRead RdHeader 0 64 64;
              EvRead RdSectionTable 64 128 128; EvRead RdSignature 192 512 512;
              EvRevocationCheck false; EvVerifyInit true;
              EvRead RdBlock 0 4096 768; EvVerifyUpdate [] 0;
              EvRead RdBlock 4096 4096 0; EvCacheInsert 7]) ∧
  ∃ st', (λ x, x.1.2) <$> request = Some st' ∧
         7%nat ∈ sig_cache st' ∧
         ∀ E fuel,
           digsig_mmap_file restrictive_config E fuel st' (Some 0%nat) VM_EXEC
           = Some (0, st', [EvCacheLookup 7 true]).
Proof.
  split; [vm_compute; reflexivity|].
  split; [intros ctx sig; simpl; discriminate|].
  split; [vm_compute; reflexivity|].
  eexists. split; [vm_compute; reflexivity|].
  split; [vm_compute; reflexivity|].
  intros E fuel. vm_compute. reflexivity.
Qed.

(** C9 (amended).  In every state the hooks can reach, for an inode in
    the cache: a write request that the permission hook allows removes
    the inode from the cache, and so does the unlink hook.  The next
    exec-map request that the gate examines for the inode, after the
    unlink, or after the write-open once the writer has closed the file,
    misses the cache and runs the full verification: the gate returns
    what the full verification gives, its log is the cache miss followed
    by the reads and the hashing of the full verification, and the inode
    is back in the cache exactly when the verify engine returned [0].
    While the writer still has the file open, the request also misses the
    cache, but is answered from the header alone: an ELF image is denied
    with [-ETXTBSY], unverified. *)
Theorem write_open_and_unlink_invalidate
    (C : config) (handles : list file) (ops : list op) (st : kstate) (ino : nat) :
  Z.of_nat (length handles) < 2 ^ 64 →
  run C ops (boot handles) = Some st →
  ino ∈ sig_cache st →
  (∀ mask st' log,
     Z.land mask MAY_WRITE ≠ 0 →
     digsig_inode_permission st (Some ino) mask = (0, st', log) →
     (ino ∉ sig_cache st') ∧ (EvCacheRemove ino ∈ log)) ∧
  (∀ st', request_write_open st ino = (0, st') → ino ∉ sig_cache st') ∧
  (∃ st', digsig_inode_unlink st ino
          = (0, st', [EvCacheLookup ino true; EvCacheRemove ino]) ∧
          ino ∉ sig_cache st') ∧
  (∀ st1 E fuel fd f reqprot,
     run C [OpUnlink ino] st = Some st1 ∨
     ((request_write_open st ino).1 = 0 ∧
      run C [OpOpenWrite ino; OpCloseWrite ino] st = Some st1) →
     gate_applies C st fd f reqprot → f_inode f = ino →
     match full_verification C E fuel ino with
     | None => digsig_mmap_file C E fuel st1 (Some fd) reqprot = None
     | Some (r, cached, log) =>
         ∃ st2,
           digsig_mmap_file C E fuel st1 (Some fd) reqprot
           = Some (r, st2, full_verification_log ino cached log) ∧
           (ino ∈ sig_cache st2 ↔ cached = true)
     end) ∧
  (∀ st1 E fuel fd f reqprot,
     request_write_open st ino = (0, st1) →
     gate_applies C st fd f reqprot → f_inode f = ino →
     digsig_mmap_file C E fuel st1 (Some fd) reqprot
     = Some (match (read_elf_header E ino).1 with
             | NullPtr => 0
             | ErrPtr e => e
             | Ptr _ => - ETXTBSY
             end, st1, EvCacheLookup ino false :: (read_elf_header E ino).2)).
Proof.
  intros Hlen Hrun Hin.
  pose proof (run_inv C ops _ _ (boot_inv handles Hlen) Hrun) as Hinv.
  pose proof (run_writecount_nonneg C handles ops st Hrun ino) as Hw0.
  destruct (inv_cached _ Hinv _ Hin) as [Hg Hw].
  assert (is_cached_signature st ino = true) as Hc
    by (unfold is_cached_signature; by rewrite bool_decide_eq_true).
  assert (∀ s, ino ∉ sig_cache (remove_signature s ino)) as Hrem.
  { intros s. simpl. intros Hx. apply elem_of_difference in Hx as [_ Hx].
    apply Hx. by apply elem_of_singleton_2. }
  assert (∀ mask st' log,
     Z.land mask MAY_WRITE ≠ 0 →
     digsig_inode_permission st (Some ino) mask = (0, st', log) →
     st' = remove_signature st ino ∧ (EvCacheRemove ino ∈ log)) as Hperm.
  { intros mask st' log Hm. unfold digsig_inode_permission.
    rewrite (proj2 (Z.eqb_neq _ _) Hg), (proj2 (Z.eqb_neq _ _) Hm), Hc. simpl.
    destruct (0 <? get_inode_security st ino); intros ?; simplify_eq.
    split; [done|apply list_elem_of_In; simpl; auto]. }
  assert ((request_write_open st ino).1 = 0 →
          request_write_open st ino
          = (0, add_writecount (remove_signature st ino) ino 1)) as Hopen.
  { unfold request_write_open.
    destruct (digsig_inode_permission st (Some ino) MAY_WRITE)
      as [[r s1] log] eqn:Hp.
    destruct (r =? 0) eqn:Hr; simpl; intros ?; simplify_eq.
    by destruct (Hperm MAY_WRITE s1 log ltac:(by vm_compute) Hp) as [-> _]. }
  assert (digsig_inode_unlink st ino
          = (0, remove_signature st ino,
             [EvCacheLookup ino true; EvCacheRemove ino])) as Hunlink.
  { unfold digsig_inode_unlink.
    by rewrite (proj2 (Z.eqb_neq _ _) Hg), Hc. }
  split; [|split; [|split; [|split]]].
  - intros mask st' log Hm Hp.
    destruct (Hperm mask st' log Hm Hp) as [-> ?]. by split.
  - intros st' Hp. rewrite Hopen in Hp by (by rewrite Hp).
    simplify_eq. apply Hrem.
  - eexists. split; [exact Hunlink|]. apply Hrem.
  - intros st1 E fuel fd f reqprot Hst1 Hgate <-.
    assert (g_init st1 = g_init st ∧ files st1 = files st ∧
            (f_inode f ∉ sig_cache st1) ∧
            i_writecount (get_inode st1 (f_inode f)) ≤ 0)
      as (Hg1 & Hf1 & Hn1 & Hw1).
    { destruct Hst1 as [Hst1|[Hr Hst1]]; simpl in Hst1.
      - rewrite Hunlink in Hst1. simplify_eq/=.
        repeat split; [apply Hrem|done].
      - rewrite (Hopen Hr) in Hst1. simpl in Hst1.
        rewrite wcount_add_writecount, decide_True in Hst1 by done.
        change (get_inode (remove_signature st _) ?j) with (get_inode st j)
          in Hst1.
        destruct (0 <? i_writecount (get_inode st (f_inode f)) + 1) eqn:Hlt;
          simplify_eq/=.
        + repeat split; [apply Hrem|].
          rewrite !wcount_add_writecount, !decide_True by done.
          change (get_inode (remove_signature st _) ?j) with (get_inode st j).
          lia.
        + apply Z.ltb_ge in Hlt. repeat split; [apply Hrem|].
          rewrite wcount_add_writecount, decide_True by done.
          by change (get_inode (remove_signature st _) ?j) with (get_inode st j). }
    destruct Hgate as (Hg' & Hp & Hf & Hd & Hn & Hu).
    apply mmap_file_full_verification; [|by apply bool_decide_eq_false|done].
    repeat split; try done; congruence.
  - intros st1 E fuel fd f reqprot Ho Hgate <-.
    assert ((request_write_open st (f_inode f)).1 = 0) as Hr by (by rewrite Ho).
    rewrite (Hopen Hr) in Ho. simplify_eq.
    assert (get_inode_security st (f_inode f) ≤ 0) as Hs.
    { revert Hr. unfold request_write_open, digsig_inode_permission.
      rewrite (proj2 (Z.eqb_neq _ _) Hg).
      change (Z.land MAY_WRITE MAY_WRITE =? 0) with false. cbn [negb].
      destruct (0 <? get_inode_security st (f_inode f)) eqn:Hlt;
        [intros ?; simplify_eq/=|intros _; by apply Z.ltb_ge in Hlt]. }
    destruct Hgate as (Hg' & Hp & Hf & Hd & Hn & Hu).
    assert (f_security f = 0) as H0.
    { destruct (decide (f_security f = 0)) as [|Hne]; [done|].
      pose proof (count_pos (holds_lease (f_inode f)) _ _ _ Hf ltac:(done)) as Hpos.
      fold (leases st (f_inode f)) in Hpos.
      rewrite (inv_leases _ Hinv) in Hs. lia. }
    rewrite (mmap_file_past_entry C E fuel _ fd f reqprot)
      by (repeat split; done).
    rewrite H0. simpl. unfold digsig_deny_write_access.
    rewrite wcount_add_writecount, decide_True by done.
    change (get_inode (remove_signature st _) ?j) with (get_inode st j).
    rewrite (proj2 (Z.ltb_lt 0 _)) by lia. simpl.
    unfold digsig_mmap_file_check.
    assert (is_cached_signature
              (add_writecount (remove_signature st (f_inode f)) (f_inode f) 1)
              (f_inode f) = false) as ->.
    { unfold is_cached_signature. rewrite bool_decide_eq_false. apply Hrem. }
    destruct (read_elf_header E (f_inode f)) as [[| |] l]; done.
Qed.

Lemma write_open_and_unlink_invalidate_witness :
  let E := file_env (signed_image 512) 0 in
  ∃ st1,
    run restrictive_config [OpOpenWrite 7; OpCloseWrite 7] released_state
    = Some st1 ∧
    verdict_and_log
      (digsig_mmap_file restrictive_config E 1 st1 (Some 0%nat) VM_EXEC)
    = Some (0, [EvCacheLookup 7 false; EvRead RdHeader 0 64 64;
                EvRead RdSectionTable 64 128 128; EvRead RdSignature 192 512 512;
                EvRevocationCheck false; EvVerifyInit true;
                EvRead RdBlock 0 4096 768; EvVerifyUpdate [] 0; EvVerifyFinal 0;
                EvCacheInsert 7]).
Proof.
  intros E.
  assert (run restrictive_config verify_and_close (boot [plain_file 7])
          = Some released_state) as Hrun by (vm_compute; reflexivity).
  assert (7%nat ∈ sig_cache released_state) as Hin by (vm_compute; reflexivity).
  assert (gate_applies restrictive_config released_state 0 (plain_file 7) VM_EXEC)
    as Hgate by (repeat split; vm_compute; first [reflexivity | lia]).
  destruct (run restrictive_config [OpOpenWrite 7; OpCloseWrite 7] released_state)
    as [st1|] eqn:Hst1; [|vm_compute in Hst1; discriminate].
  exists st1. split; [reflexivity|].
  destruct (write_open_and_unlink_invalidate restrictive_config [plain_file 7]
              verify_and_close released_state 7 ltac:(simpl; lia) Hrun Hin)
    as (_ & _ & _ & Hfull & _).
  specialize (Hfull st1 E 1%nat 0%nat (plain_file 7) VM_EXEC
                (or_intror (conj eq_refl Hst1)) Hgate eq_refl).
  destruct (full_verification restrictive_config E 1 7)
    as [[[r cached] log]|] eqn:Hfv; [|vm_compute in Hfv; discriminate].
  destruct Hfull as (st2 & -> & _).
  vm_compute in Hfv. injection Hfv as <- <- <-.
  vm_compute. reflexivity.
Defined.

(** C9, as claimed, fails: inode [7] has been verified and cached and its
    handle closed; a write-open is allowed and empties the cache; the next
    exec-map request for the image, its signature as good as before, is
    denied with [-ETXTBSY] after the header read, without the section
    table or the signature being read and without any hashing, whereas
    the full verification of the file would accept it. *)
Lemma exec_map_after_write_open_is_not_verified :
  let E := file_env (signed_image 512) 0 in
  run restrictive_config verify_and_close (boot [plain_file 7])
  = Some released_state ∧
  (7%nat ∈ sig_cache released_state) ∧
  (request_write_open released_state 7).1 = 0 ∧
  verdict_and_log
    (digsig_mmap_file restrictive_config E 1
       (request_write_open released_state 7).2 (Some 0%nat) VM_EXEC)
  = Some (- ETXTBSY, [EvCacheLookup 7 false; EvRead RdHeader 0 64 64]) ∧
  (λ x, (x.1, brief_log x.2)) <$> full_verification restrictive_config E 1 7
  = Some (0, true,
          [EvRead RdHeader 0 64 64; EvRead RdSectionTable 64 128 128;
           EvRead RdSignature 192 512 512; EvRevocationCheck false;
           EvVerifyInit true; EvRead RdBlock 0 4096 768; EvVerifyUpdate [] 0;
           EvVerifyFinal 0]).
Proof. repeat split; vm_compute; reflexivity. Qed.

(** ** The scenarios of the spec, run on the model *)

Example header_of_script_not_recognized :
  classify_header (resize 64 x00 script) = NotRecognizedFormat.
Proof. vm_compute. reflexivity. Qed.

Example header_without_section_table_malformed :
  classify_header (elf64_header 0 64 2) = Malformed.
Proof. vm_compute. reflexivity. Qed.

Example header_with_wrong_entry_size_malformed :
  classify_header (elf64_header 64 40 2) = Malformed ∧
  classify_header (elf32_header 52 64 2) = Malformed.
Proof. split; vm_compute; reflexivity. Qed.

Example header_section_count_ceiling :
  classify_header (elf64_header 64 64 1024) = HeaderView (elf64_header 64 64 1024) ∧
  classify_header (elf64_header 64 64 1025) = Malformed ∧
  classify_header (elf32_header 52 40 1638) = HeaderView (elf32_header 52 40 1638) ∧
  classify_header (elf32_header 52 40 1639) = Malformed.
Proof. repeat split; vm_compute; reflexivity. Qed.

(** The states used above are reached by the hooks from the load-time
    state. *)
Example writer_state_reachable :
  run restrictive_config [OpProvideKey; OpOpenWrite 7] (boot [plain_file 7])
  = Some writer_state.
Proof. vm_compute. reflexivity. Qed.

Example leased_state_reachable :
  run restrictive_config
    [OpProvideKey; OpMmap (file_env (signed_image 512) 0) 1 (Some 0%nat) VM_EXEC]
    (boot [plain_file 7])
  = Some leased_state.
Proof. vm_compute. reflexivity. Qed.

(** A signed image: the first request verifies it, caches it and keeps
    the lease; the second is answered from the cache without a read; a
    write-open is then refused while the mapping lasts; once the handle is
    closed a write-open is allowed and empties the cache. *)
Example signed_image_lifecycle :
  let E := file_env (signed_image 512) 0 in
  verdict_and_log
    (digsig_mmap_file restrictive_config E 1 ready_state (Some 0%nat) VM_EXEC)
  = Some (0, [EvCacheLookup 7 false; EvRead RdHeader 0 64 64;
              EvRead RdSectionTable 64 128 128; EvRead RdSignature 192 512 512;
              EvRevocationCheck false; EvVerifyInit true;
              EvRead RdBlock 0 4096 768; EvVerifyUpdate [] 0; EvVerifyFinal 0;
              EvCacheInsert 7]) ∧
  verdict_and_log
    (digsig_mmap_file restrictive_config E 1 leased_state (Some 0%nat) VM_EXEC)
  = Some (0, [EvCacheLookup 7 true]) ∧
  (request_write_open leased_state 7).1 = - EPERM ∧
  (request_write_open (digsig_file_free_security leased_state 0) 7).1 = 0 ∧
  sig_cache (request_write_open (digsig_file_free_security leased_state 0) 7).2 = ∅.
Proof. repeat split; vm_compute; reflexivity. Qed.

(** The same image with a mismatching signature, and with a revoked one:
    both denied, the second without a block of the file being read. *)
Example bad_and_revoked_images_denied :
  verdict_and_log
    (digsig_mmap_file restrictive_config (file_env (signed_image 512) 1) 1
       ready_state (Some 0%nat) VM_EXEC)
  = Some (- EPERM,
          [EvCacheLookup 7 false; EvRead RdHeader 0 64 64;
           EvRead RdSectionTable 64 128 128; EvRead RdSignature 192 512 512;
           EvRevocationCheck false; EvVerifyInit true;
           EvRead RdBlock 0 4096 768; EvVerifyUpdate [] 0; EvVerifyFinal 1]) ∧
  verdict_and_log
    (digsig_mmap_file restrictive_config (revoked_env (signed_image 512)) 1
       ready_state (Some 0%nat) VM_EXEC)
  = Some (- EPERM,
          [EvCacheLookup 7 false; EvRead RdHeader 0 64 64;
           EvRead RdSectionTable 64 128 128; EvRead RdSignature 192 512 512;
           EvRevocationCheck true]).
Proof. split; vm_compute; reflexivity. Qed.

(** * Further properties of the code *)

(** ** Reads into fresh buffers *)

Lemma kmalloc_length E site size buf :
  kmalloc E site size = Some buf → length buf = Z.to_nat size.
Proof.
  unfold kmalloc. destruct (kmalloc_memory E site); intros ?; simplify_eq/=.
  by rewrite length_resize.
Qed.

Lemma kernel_read_length E ino offset buf count :
  length buf = Z.to_nat count →
  length (kernel_read E ino offset buf count).2 = Z.to_nat count.
Proof.
  intros Hl. unfold kernel_read. destruct (vfs_read E ino offset count); simpl; [done|].
  rewrite length_app, length_drop, length_take. lia.
Qed.

(** A read that returns exactly [count] has filled the whole buffer with
    the bytes the file delivered. *)
Lemma kernel_read_full E ino offset buf count retval buf' :
  length buf = Z.to_nat count → 0 ≤ count →
  kernel_read E ino offset buf count = (retval, buf') →
  retval = count →
  ∃ d, vfs_read E ino offset count = ReadData d ∧
       (Z.to_nat count ≤ length d)%nat ∧ buf' = take (Z.to_nat count) d.
Proof.
  intros Hl Hc. unfold kernel_read.
  destruct (vfs_read E ino offset count) as [e|d]; intros ? ->; simplify_eq/=.
  - lia.
  - exists d. split; [done|].
    match goal with H : Z.of_nat _ = _ |- _ => rename H into Hlen end.
    rewrite length_take in Hlen |- *.
    split; [lia|].
    rewrite drop_ge by lia. by rewrite app_nil_r.
Qed.

(** A read that returns anything else is short or failed. *)
Lemma kernel_read_not_full E ino offset buf count :
  0 ≤ count →
  (kernel_read E ino offset buf count).1 ≠ count ↔
  match vfs_read E ino offset count with
  | ReadErr _ => True
  | ReadData d => (length d < Z.to_nat count)%nat
  end.
Proof.
  intros Hc. unfold kernel_read.
  destruct (vfs_read E ino offset count) as [e|d]; simpl.
  - split; [done|lia].
  - rewrite length_take. lia.
Qed.

(** ** Section table reader *)

(** X1.  The section table reader is exact: it returns a table only when
    the file delivered all [sh_size] bytes asked for, and the table is
    then precisely these bytes; a failed or short read gives [-EINVAL]
    and a failed allocation [-ENOMEM].  In each case it reads the file at
    most once, at [sh_off]. *)
Theorem read_section_header_exact (E : env) (ino : nat) (sh_size sh_off : Z) :
  0 ≤ sh_size < 2 ^ 64 →
  match kmalloc_memory E AllocSectionTable, vfs_read E ino sh_off sh_size with
  | None, _ => read_section_header E ino sh_size sh_off = (inl (- ENOMEM), [])
  | Some _, ReadErr e =>
      read_section_header E ino sh_size sh_off
      = (inl (- EINVAL), [EvRead RdSectionTable sh_off sh_size (Z.neg e)])
  | Some _, ReadData d =>
      read_section_header E ino sh_size sh_off
      = if decide (Z.to_nat sh_size ≤ length d)%nat
        then (inr (take (Z.to_nat sh_size) d),
              [EvRead RdSectionTable sh_off sh_size sh_size])
        else (inl (- EINVAL),
              [EvRead RdSectionTable sh_off sh_size (Z.of_nat (length d))])
  end.
Proof.
  intros Hs. unfold read_section_header, kmalloc, kernel_read.
  destruct (kmalloc_memory E AllocSectionTable) as [junk|]; simpl; [|done].
  destruct (vfs_read E ino sh_off sh_size) as [e|d]; simpl; [done|].
  rewrite (proj2 (Z.ltb_ge _ 0)) by lia. simpl.
  rewrite length_take.
  case_decide as Hd.
  - rewrite Nat.min_l by lia. rewrite Z2Nat.id by lia.
    rewrite u64_small by lia. rewrite Z.eqb_refl. simpl.
    rewrite drop_ge by (rewrite length_resize; lia). by rewrite app_nil_r.
  - rewrite Nat.min_r by lia.
    rewrite u64_small by lia.
    rewrite (proj2 (Z.eqb_neq _ _)) by lia. done.
Qed.

(** ** Signature reader and locator *)

(** X2.  The signature reader is exact in the same way: the buffer it
    returns holds the [DIGSIG_ELF_SIG_SIZE] bytes the file delivered at the
    section's offset and nothing else; any other outcome of the read, or
    of the allocation, gives [NULL]. *)
Theorem digsig_read_signature_exact (C : config) (E : env) (ino : nat) (offset : Z) :
  0 ≤ DIGSIG_ELF_SIG_SIZE C →
  let size := DIGSIG_ELF_SIG_SIZE C in
  (digsig_read_signature C E ino offset).1
  = match kmalloc_memory E AllocSignature, vfs_read E ino offset size with
    | Some _, ReadData d =>
        if decide (Z.to_nat size ≤ length d)%nat
        then Some (take (Z.to_nat size) d) else None
    | _, _ => None
    end.
Proof.
  intros Hs size. subst size. unfold digsig_read_signature, kmalloc, kernel_read.
  destruct (kmalloc_memory E AllocSignature) as [junk|]; simpl; [|done].
  destruct (vfs_read E ino offset _) as [e|d]; cbn [fst snd].
  - destruct (Z.neg e =? DIGSIG_ELF_SIG_SIZE C) eqn:He; [|done].
    apply Z.eqb_eq in He. lia.
  - rewrite length_take. case_decide as Hd.
    + rewrite Nat.min_l by lia. rewrite Z2Nat.id by lia.
      rewrite Z.eqb_refl. simpl.
      rewrite drop_ge by (rewrite length_resize; lia). by rewrite app_nil_r.
    + rewrite Nat.min_r by lia.
      by rewrite (proj2 (Z.eqb_neq _ _)) by lia.
Qed.

Lemma scan_sections_first C sh_type i n :
  let j := scan_sections C sh_type i n in
  (i ≤ j ≤ i + n)%nat ∧
  (∀ k, (i ≤ k < j)%nat → sh_type k ≠ DIGSIG_ELF_SIG_SECTION C) ∧
  ((j < i + n)%nat → sh_type j = DIGSIG_ELF_SIG_SECTION C).
Proof.
  revert i. induction n as [|n IH]; intros i; simpl.
  - split; [lia|]. split; intros; lia.
  - destruct (sh_type i =? DIGSIG_ELF_SIG_SECTION C) eqn:Ht; simpl.
    + apply Z.eqb_eq in Ht. split; [lia|]. split; [intros; lia|done].
    + apply Z.eqb_neq in Ht. destruct (IH (S i)) as (Hr & Hb & Ha).
      split; [lia|]. split.
      * intros k Hk. destruct (decide (k = i)) as [->|]; [done|].
        apply Hb. lia.
      * intros ?. apply Ha. lia.
Qed.

(** X3.  When the locator returns a signature, it is that of the first
    entry of the section table whose type is the signature marker: the
    entries before it have another type, its declared size is exactly
    [DIGSIG_ELF_SIG_SIZE], the offset handed to the verify engine is its
    declared offset, and the signature is a buffer of that size filled by
    one read at that offset.  Entries after the first marked one are never
    looked at. *)
Theorem find_signature_first_match
    (C : config) (E : env) (hdr shdata : list byte) (ino : nat)
    (sig_orig : list byte) (sh_offset : Z) (log : list event) :
  0 ≤ DIGSIG_ELF_SIG_SIZE C →
  digsig_find_signature C E hdr shdata ino = (Some (sig_orig, sh_offset), log) →
  ∃ i,
    located_section C hdr shdata = Some i ∧
    (i < Z.to_nat (section_count hdr))%nat ∧
    declared_type hdr shdata i = DIGSIG_ELF_SIG_SECTION C ∧
    (∀ j, (j < i)%nat → declared_type hdr shdata j ≠ DIGSIG_ELF_SIG_SECTION C) ∧
    declared_size hdr shdata i = DIGSIG_ELF_SIG_SIZE C ∧
    sh_offset = declared_offset hdr shdata i ∧
    Z.of_nat (length sig_orig) = DIGSIG_ELF_SIG_SIZE C ∧
    log = [EvRead RdSignature sh_offset (DIGSIG_ELF_SIG_SIZE C)
             (DIGSIG_ELF_SIG_SIZE C)].
Proof.
  intros Hsize.
  assert (∀ off buf l,
            digsig_read_signature C E ino off = (Some buf, l) →
            Z.of_nat (length buf) = DIGSIG_ELF_SIG_SIZE C ∧
            l = [EvRead RdSignature off (DIGSIG_ELF_SIG_SIZE C)
                   (DIGSIG_ELF_SIG_SIZE C)]) as Hread.
  { intros off buf l. unfold digsig_read_signature.
    destruct (kmalloc E AllocSignature _) as [b|] eqn:Hk; [|done].
    apply kmalloc_length in Hk.
    pose proof (kernel_read_length E ino off b _ Hk) as Hlen.
    destruct (kernel_read E ino off b _) as [r b'] eqn:Hr. simpl in Hlen.
    destruct (r =? DIGSIG_ELF_SIG_SIZE C) eqn:Heq; simpl; intros ?; simplify_eq.
    apply Z.eqb_eq in Heq. subst r. split; [lia|done]. }
  unfold digsig_find_signature, located_section, declared_type, declared_size,
    declared_offset, section_count, header_is_32bit,
    digsig_find_signature32, digsig_find_signature64.
  destruct (e_class hdr =? ELFCLASS32).
  - pose proof (scan_sections_first C (elf32_sh_type shdata) 0
                  (Z.to_nat (elf32_e_shnum hdr))) as (Hr & Hb & Ha).
    set (i := scan_sections C (elf32_sh_type shdata) 0 _) in *.
    case_bool_decide as Hi; [done|].
    destruct (elf32_sh_type shdata i =? _) eqn:Ht; simpl; [|done].
    destruct (elf32_sh_size shdata i =? _) eqn:Hs; simpl; [|done].
    destruct (digsig_read_signature C E ino _) as [[buf|] l] eqn:Hsig;
      intros ?; simplify_eq.
    apply Hread in Hsig as [Hlen ->].
    apply Z.eqb_eq in Ht, Hs.
    exists i. repeat split; try done; try lia.
    intros j Hj. apply Hb. lia.
  - pose proof (scan_sections_first C (elf64_sh_type shdata) 0
                  (Z.to_nat (elf64_e_shnum hdr))) as (Hr & Hb & Ha).
    set (i := scan_sections C (elf64_sh_type shdata) 0 _) in *.
    case_bool_decide as Hi; [done|].
    destruct (elf64_sh_type shdata i =? _) eqn:Ht; simpl; [|done].
    destruct (elf64_sh_size shdata i =? _) eqn:Hs; simpl; [|done].
    destruct (digsig_read_signature C E ino _) as [[buf|] l] eqn:Hsig;
      intros ?; simplify_eq.
    apply Hread in Hsig as [Hlen ->].
    apply Z.eqb_eq in Ht, Hs.
    exists i. repeat split; try done; try lia.
    intros j Hj. apply Hb. lia.
Qed.

Lemma read_section_header_exact_witness :
  0 ≤ 128 < 2 ^ 64 ∧
  read_section_header (file_env (signed_image 512) 0) 7 128 64
  = (inr (elf64_shdr 0 0 0 ++ elf64_shdr SHT_SIG 192 512),
     [EvRead RdSectionTable 64 128 128]) ∧
  read_section_header (file_env (take 100 (signed_image 512)) 0) 7 128 64
  = (inl (- EINVAL), [EvRead RdSectionTable 64 128 36]).
Proof.
  split; [lia|]. split.
  - pose proof (read_section_header_exact (file_env (signed_image 512) 0) 7 128 64
                  ltac:(lia)) as H.
    vm_compute in H. vm_compute. exact H.
  - pose proof (read_section_header_exact
                  (file_env (take 100 (signed_image 512)) 0) 7 128 64
                  ltac:(lia)) as H.
    vm_compute in H. vm_compute. exact H.
Defined.

Lemma digsig_read_signature_exact_witness :
  0 ≤ DIGSIG_ELF_SIG_SIZE restrictive_config ∧
  (digsig_read_signature restrictive_config (file_env (signed_image 512) 0) 7 192).1
  = Some (replicate 512 xaa) ∧
  (digsig_read_signature restrictive_config (file_env (signed_image 512) 0) 7 300).1
  = None.
Proof.
  split; [vm_compute; discriminate|]. split.
  - pose proof (digsig_read_signature_exact restrictive_config
                  (file_env (signed_image 512) 0) 7 192
                  ltac:(vm_compute; discriminate)) as H.
    vm_compute in H. vm_compute. exact H.
  - pose proof (digsig_read_signature_exact restrictive_config
                  (file_env (signed_image 512) 0) 7 300
                  ltac:(vm_compute; discriminate)) as H.
    vm_compute in H. vm_compute. exact H.
Defined.

Lemma find_signature_first_match_witness :
  0 ≤ DIGSIG_ELF_SIG_SIZE restrictive_config ∧
  digsig_find_signature restrictive_config (file_env (signed_image 512) 0)
    (elf64_header 64 64 2) (elf64_shdr 0 0 0 ++ elf64_shdr SHT_SIG 192 512) 7
  = (Some (replicate 512 xaa, 192), [EvRead RdSignature 192 512 512]) ∧
  ∃ i, located_section restrictive_config (elf64_header 64 64 2)
         (elf64_shdr 0 0 0 ++ elf64_shdr SHT_SIG 192 512) = Some i ∧
       (i < Z.to_nat (section_count (elf64_header 64 64 2)))%nat.
Proof.
  assert (0 ≤ DIGSIG_ELF_SIG_SIZE restrictive_config) as Hs
    by (vm_compute; discriminate).
  assert (digsig_find_signature restrictive_config (file_env (signed_image 512) 0)
            (elf64_header 64 64 2)
            (elf64_shdr 0 0 0 ++ elf64_shdr SHT_SIG 192 512) 7
          = (Some (replicate 512 xaa, 192), [EvRead RdSignature 192 512 512]))
    as Hf by (vm_compute; reflexivity).
  split; [exact Hs|]. split; [exact Hf|].
  destruct (find_signature_first_match _ _ _ _ _ _ _ _ Hs Hf)
    as (i & Hl & Hi & _).
  exists i. split; [exact Hl|exact Hi].
Defined.

(** ** Header reader: what it does with the result of the read *)

(** X4.  [read_elf_header] does not look at what [kernel_read] returns.
    When the read fails, the header it checks is the fresh memory as
    [kmalloc] handed it out, and the outcome (not an ELF image, malformed,
    or a header to go on with) is decided by these bytes alone; a read
    error is never reported.  When the file is shorter than a header, the
    bytes after its end are likewise those of the fresh memory. *)
Theorem read_elf_header_ignores_read_result (E : env) (ino : nat) (junk : list byte) :
  kmalloc_memory E AllocElfHeader = Some junk →
  match vfs_read E ino 0 sizeof_elf64_hdr with
  | ReadErr e =>
      read_elf_header E ino
      = (outcome_ptr (classify_header (resize 64 x00 junk)),
         [EvRead RdHeader 0 sizeof_elf64_hdr (Z.neg e)])
  | ReadData d =>
      (length d < 64)%nat →
      read_elf_header E ino
      = (outcome_ptr (classify_header (d ++ drop (length d) (resize 64 x00 junk))),
         [EvRead RdHeader 0 sizeof_elf64_hdr (Z.of_nat (length d))])
  end.
Proof.
  intros Hk. rewrite (read_elf_header_classify E ino junk Hk).
  unfold header_buffer, kernel_read.
  destruct (vfs_read E ino 0 sizeof_elf64_hdr) as [e|d]; simpl; [done|].
  intros Hd. change (Z.to_nat sizeof_elf64_hdr) with 64%nat.
  by rewrite take_ge by lia.
Qed.

Lemma read_elf_header_ignores_read_result_witness :
  kmalloc_memory (unreadable_env (elf64_header 64 64 2)) AllocElfHeader
  = Some (elf64_header 64 64 2) ∧
  read_elf_header (unreadable_env (elf64_header 64 64 2)) 7
  = (Ptr (elf64_header 64 64 2), [EvRead RdHeader 0 64 (-5)]).
Proof.
  split; [reflexivity|].
  pose proof (read_elf_header_ignores_read_result
                (unreadable_env (elf64_header 64 64 2)) 7 _ eq_refl) as H.
  vm_compute in H. vm_compute. exact H.
Defined.

(** ** Verify engine: its verdicts *)

Lemma verify_loop_abort C E ino sh_offset fuel offset buf ctx r log :
  verify_loop C E ino sh_offset fuel offset buf ctx = Some (LoopAbort r, log) →
  r ≤ 0 ∧
  (r = 0 → ∃ pre off,
     log = pre ++ [EvRead RdBlock off (DIGSIG_ELF_READ_BLOCK_SIZE C) 0]).
Proof.
  revert offset buf ctx log.
  induction fuel as [|fuel IH]; intros offset buf ctx log; cbn [verify_loop];
    destruct (offset <? i_size_read E ino); simpl; try done.
  destruct (kernel_read E ino offset buf _) as [retval buf'].
  destruct (retval <=? 0) eqn:Hr.
  { intros ?; simplify_eq. apply Z.leb_le in Hr. split; [done|].
    intros ->. by exists [], offset. }
  destruct (digsig_sign_verify_update E ctx _ <? 0) eqn:Hu.
  { intros ?; simplify_eq. apply Z.ltb_lt in Hu. split; lia. }
  destruct (verify_loop C E ino sh_offset fuel _ _ _) as [[x l]|] eqn:Hl; [|done].
  intros ?; simplify_eq.
  destruct (IH _ _ _ _ Hl) as [Hle Hz]. split; [done|].
  intros H0. destruct (Hz H0) as (pre & off & ->).
  by exists (EvRead RdBlock offset (DIGSIG_ELF_READ_BLOCK_SIZE C) retval
             :: EvVerifyUpdate (take (Z.to_nat retval)
                                  (zero_signature C sh_offset offset buf'))
                  (digsig_sign_verify_update E ctx
                     (take (Z.to_nat retval)
                        (zero_signature C sh_offset offset buf')))
             :: pre), off.
Qed.

(** X5.  The verify engine never returns a positive value (so the gate's
    branch for [retval > 0] is never taken), and it returns [0] in two
    cases only: the final verification answered [0] after the whole file
    was hashed, or a block read returned zero bytes, which ends the loop
    with [retval = 0] before the final verification is run. *)
Theorem verify_signature_verdicts
    (C : config) (E : env) (fuel : nat) (sig_orig : list byte) (ino : nat)
    (sh_offset r : Z) (log : list event) :
  digsig_verify_signature C E fuel sig_orig ino sh_offset = Some (r, log) →
  r ≤ 0 ∧
  (r = 0 →
   (∃ pre, log = pre ++ [EvVerifyFinal 0]) ∨
   (∃ pre off, log = pre ++ [EvRead RdBlock off (DIGSIG_ELF_READ_BLOCK_SIZE C) 0])).
Proof.
  unfold digsig_verify_signature.
  destruct (digsig_is_revoked_sig E sig_orig).
  { intros ?; simplify_eq. split; [done|]. by intros. }
  destruct (digsig_sign_verify_init E); simpl.
  2:{ intros ?; simplify_eq. split; [done|]. by intros. }
  destruct (kmalloc E AllocReadBlocks _) as [buf|].
  2:{ intros ?; simplify_eq. split; [done|]. by intros. }
  destruct (verify_loop C E ino sh_offset fuel 0 buf []) as [[[ctx|r'] l]|] eqn:Hl;
    intros ?; simplify_eq.
  - destruct (digsig_sign_verify_final E ctx _ =? 0) eqn:Hf; simpl.
    + apply Z.eqb_eq in Hf. rewrite Hf. split; [done|]. intros _. left.
      by exists ([EvRevocationCheck false; EvVerifyInit true] ++ l).
    + split; [done|]. by intros.
  - apply verify_loop_abort in Hl as [Hle Hz]. split; [done|].
    intros H0. destruct (Hz H0) as (pre & off & ->). right.
    by exists ([EvRevocationCheck false; EvVerifyInit true] ++ pre), off.
Qed.

Lemma verify_signature_verdicts_witness :
  digsig_verify_signature restrictive_config (short_read_env 0) 2
    (replicate 512 xaa) 7 192
  = Some (0, [EvRevocationCheck false; EvVerifyInit true;
              EvRead RdBlock 0 4096 0]) ∧
  ((∃ pre, [EvRevocationCheck false; EvVerifyInit true; EvRead RdBlock 0 4096 0]
           = pre ++ [EvVerifyFinal 0]) ∨
   (∃ pre off, [EvRevocationCheck false; EvVerifyInit true; EvRead RdBlock 0 4096 0]
               = pre ++ [EvRead RdBlock off 4096 0])).
Proof.
  assert (digsig_verify_signature restrictive_config (short_read_env 0) 2
            (replicate 512 xaa) 7 192
          = Some (0, [EvRevocationCheck false; EvVerifyInit true;
                      EvRead RdBlock 0 4096 0])) as H
    by (vm_compute; reflexivity).
  split; [exact H|].
  exact (proj2 (verify_signature_verdicts _ _ _ _ _ _ _ _ H) eq_refl).
Defined.

(** ** Verify engine: termination *)

Lemma verify_signature_terminates C E (n : nat) sig_orig ino sh_offset :
  0 < DIGSIG_ELF_READ_BLOCK_SIZE C →
  i_size_read E ino + DIGSIG_ELF_READ_BLOCK_SIZE C ≤ 2 ^ 32 →
  i_size_read E ino ≤ Z.of_nat n * DIGSIG_ELF_READ_BLOCK_SIZE C →
  is_Some (digsig_verify_signature C E n sig_orig ino sh_offset).
Proof.
  intros Hb Hs Hn. unfold digsig_verify_signature.
  destruct (digsig_is_revoked_sig E sig_orig); [eauto|].
  destruct (digsig_sign_verify_init E); simpl; [|eauto].
  destruct (kmalloc E AllocReadBlocks _) as [buf|]; [|eauto].
  destruct (verify_loop_terminates C E ino sh_offset n 0 buf [] Hb Hs
              ltac:(lia) ltac:(lia)) as [[[ctx|r] log] ->]; eauto.
Qed.

(** X6.  The gate returns on ordinary files: when every file ends at
    least one block below [2^32] bytes, a call of the gate finishes within
    one loop iteration per block of the file, whatever the file holds and
    whatever the reads and the signature primitives answer. *)
Theorem gate_returns_below_4GiB
    (C : config) (E : env) (n : nat) (st : kstate) (file : option nat) (reqprot : Z) :
  0 < DIGSIG_ELF_READ_BLOCK_SIZE C →
  (∀ ino, i_size_read E ino + DIGSIG_ELF_READ_BLOCK_SIZE C ≤ 2 ^ 32) →
  (∀ ino, i_size_read E ino ≤ Z.of_nat n * DIGSIG_ELF_READ_BLOCK_SIZE C) →
  is_Some (digsig_mmap_file C E n st file reqprot).
Proof.
  intros Hb Hs Hn.
  assert (∀ s ino d a, is_Some (digsig_mmap_file_check C E n s ino d a)) as Hc.
  { intros s ino d a. unfold digsig_mmap_file_check.
    repeat case_match; eauto.
    all: match goal with
         | H : digsig_verify_signature _ _ _ ?s ?i ?o = None |- _ =>
             destruct (verify_signature_terminates _ _ _ s i o Hb (Hs _) (Hn _))
               as [? Hv]; rewrite Hv in H; done
         end. }
  unfold digsig_mmap_file.
  repeat case_match; eauto.
  all: match goal with
       | H : digsig_mmap_file_check _ _ _ ?s ?i ?d ?a = None |- _ =>
           destruct (Hc s i d a) as [? Hv]; rewrite Hv in H; done
       end.
Qed.

Lemma gate_returns_below_4GiB_witness :
  0 < DIGSIG_ELF_READ_BLOCK_SIZE restrictive_config ∧
  is_Some (digsig_mmap_file restrictive_config (file_env (signed_image 512) 0) 1
             ready_state (Some 0%nat) VM_EXEC).
Proof.
  split; [reflexivity|].
  apply (gate_returns_below_4GiB restrictive_config
           (file_env (signed_image 512) 0) 1 ready_state (Some 0%nat) VM_EXEC).
  - reflexivity.
  - intros ino. vm_compute. discriminate.
  - intros ino. vm_compute. discriminate.
Defined.

(** X7.  On a file of [2^32] bytes or more the verify engine never
    returns: if the signature is not revoked, the context and the block
    buffer are allocated, and the reads and hash updates succeed, then the
    block offset, an [unsigned int], wraps around before it reaches the
    file size, and the loop is still running after any number of
    iterations. *)
Theorem verify_signature_never_returns_from_4GiB
    (C : config) (E : env) (fuel : nat) (sig_orig : list byte) (ino : nat)
    (sh_offset : Z) :
  2 ^ 32 ≤ i_size_read E ino →
  digsig_is_revoked_sig E sig_orig = false →
  digsig_sign_verify_init E = true →
  is_Some (kmalloc_memory E AllocReadBlocks) →
  (∀ off b, 0 ≤ off < 2 ^ 32 →
     0 < (kernel_read E ino off b (DIGSIG_ELF_READ_BLOCK_SIZE C)).1) →
  (∀ c d, 0 ≤ digsig_sign_verify_update E c d) →
  digsig_verify_signature C E fuel sig_orig ino sh_offset = None.
Proof.
  intros Hsz Hrev Hinit [junk Hk] Hr Hu.
  assert (∀ fuel offset buf ctx, 0 ≤ offset < 2 ^ 32 →
            verify_loop C E ino sh_offset fuel offset buf ctx = None) as Hloop.
  { clear fuel. intros fuel.
    induction fuel as [|fuel IH]; intros offset buf ctx Ho; cbn [verify_loop];
      rewrite (proj2 (Z.ltb_lt offset (i_size_read E ino))) by lia; simpl; [done|].
    specialize (Hr offset buf Ho).
    destruct (kernel_read E ino offset buf _) as [retval buf']. simpl in Hr.
    rewrite (proj2 (Z.leb_gt retval 0)) by lia.
    rewrite (proj2 (Z.ltb_ge _ 0)) by apply Hu.
    rewrite IH; [done|]. unfold u32. apply Z.mod_pos_bound. lia. }
  unfold digsig_verify_signature, kmalloc. rewrite Hrev, Hinit, Hk. simpl.
  by rewrite Hloop by lia.
Qed.

Lemma verify_signature_never_returns_witness :
  2 ^ 32 ≤ i_size_read (huge_env (2 ^ 33)) 7 ∧
  digsig_verify_signature restrictive_config (huge_env (2 ^ 33)) 1000
    (replicate 512 xaa) 7 192 = None.
Proof.
  split; [vm_compute; discriminate|].
  apply verify_signature_never_returns_from_4GiB.
  - vm_compute; discriminate.
  - reflexivity.
  - reflexivity.
  - by eexists.
  - intros off b Ho. unfold kernel_read, huge_env. cbn [vfs_read fst].
    rewrite length_take, length_replicate.
    change (DIGSIG_ELF_READ_BLOCK_SIZE restrictive_config) with 4096. lia.
  - intros c d. simpl. lia.
Defined.

(** ** Verify engine: what it hashes *)

Lemma canonical_block_split C sh_offset offset (B : Z) (l : list byte) :
  0 ≤ B →
  canonical_block C sh_offset offset (take (Z.to_nat B) l)
    ++ canonical_block C sh_offset (offset + B) (drop (Z.to_nat B) l)
  = canonical_block C sh_offset offset l.
Proof.
  intros HB. rewrite <- (take_drop (Z.to_nat B) l) at 3.
  unfold canonical_block. rewrite imap_app. f_equal.
  destruct (decide (Z.to_nat B ≤ length l)%nat) as [Hle|Hgt].
  - rewrite length_take_le by done. apply imap_ext. intros i x _. simpl.
    by replace (offset + B + Z.of_nat i) with (offset + Z.of_nat (Z.to_nat B + i))
      by lia.
  - by rewrite drop_ge by lia.
Qed.

Section Canonical.
Variables (C : config) (E : env) (ino : nat) (sh_offset : Z) (content : list byte).
Hypothesis Hserves : serves E ino content.
Hypothesis Hblock : 0 < DIGSIG_ELF_READ_BLOCK_SIZE C.
Hypothesis Hlen : Z.of_nat (length content) + DIGSIG_ELF_READ_BLOCK_SIZE C ≤ 2 ^ 32.
Hypothesis Hsize : 0 ≤ DIGSIG_ELF_SIG_SIZE C.
Hypothesis Hoff : 0 ≤ sh_offset.
Hypothesis Hend : sh_offset + DIGSIG_ELF_SIG_SIZE C < 2 ^ 32.
Hypothesis Hupdate : ∀ c d, 0 ≤ digsig_sign_verify_update E c d.

Lemma verify_loop_canonical (n : nat) offset buf ctx :
  0 ≤ offset →
  length buf = Z.to_nat (DIGSIG_ELF_READ_BLOCK_SIZE C) →
  Z.of_nat (length content) - offset ≤ Z.of_nat n * DIGSIG_ELF_READ_BLOCK_SIZE C →
  ∃ log,
    verify_loop C E ino sh_offset n offset buf ctx
    = Some (LoopDone
              (ctx ++ canonical_block C sh_offset offset
                        (drop (Z.to_nat offset) content)), log).
Proof.
  destruct Hserves as [Hread Hisize].
  revert offset buf ctx.
  induction n as [|n IH]; intros offset buf ctx Ho Hbuf Hn;
    cbn [verify_loop]; rewrite Hisize;
    destruct (offset <? Z.of_nat (length content)) eqn:Hlt; simpl.
  - apply Z.ltb_lt in Hlt. lia.
  - apply Z.ltb_ge in Hlt. exists [].
    rewrite drop_ge by lia. by rewrite app_nil_r.
  - apply Z.ltb_lt in Hlt.
    set (B := DIGSIG_ELF_READ_BLOCK_SIZE C) in *.
    unfold kernel_read. rewrite Hread. unfold read_content.
    rewrite (proj2 (Z.ltb_ge offset 0)) by lia.
    rewrite take_take, Nat.min_id.
    set (rest := drop (Z.to_nat offset) content).
    set (d := take (Z.to_nat B) rest).
    assert (length rest = (length content - Z.to_nat offset)%nat) as Hrest
      by apply length_drop.
    assert (0 < length d ≤ Z.to_nat B)%nat as Hd.
    { subst d. rewrite length_take. lia. }
    rewrite (proj2 (Z.leb_gt (Z.of_nat (length d)) 0)) by lia.
    rewrite zero_signature_canonical; try lia.
    2:{ rewrite length_app, length_drop. lia. }
    rewrite Nat2Z.id.
    assert (take (length d)
              (canonical_block C sh_offset offset (d ++ drop (length d) buf))
            = canonical_block C sh_offset offset d) as ->.
    { unfold canonical_block. rewrite imap_app.
      apply take_app_length'. by rewrite length_imap. }
    rewrite (proj2 (Z.ltb_ge _ 0)) by apply Hupdate.
    rewrite u32_small by lia.
    destruct (IH (offset + B)
                (canonical_block C sh_offset offset (d ++ drop (length d) buf))
                (ctx ++ canonical_block C sh_offset offset d))
      as [log ->].
    + lia.
    + unfold canonical_block. rewrite length_imap, length_app, length_drop. lia.
    + lia.
    + eexists. do 3 f_equal.
      rewrite <- app_assoc. f_equal.
      rewrite Z2Nat.inj_add by lia. rewrite <- drop_drop. fold rest.
      subst d. apply canonical_block_split. lia.
  - apply Z.ltb_ge in Hlt. exists [].
    rewrite drop_ge by lia. by rewrite app_nil_r.
Qed.
End Canonical.

(** X8.  What the verify engine hashes.  For a regular file that ends at
    least one block below [2^32] bytes, with the signature section below
    [2^32] as well, and when nothing fails on the way (signature not
    revoked, allocations and hash updates succeed), the bytes fed to the
    hash, block after block, are the whole file with the bytes of the
    signature section replaced by zeros, and the verdict is that of the
    final verification of this stream against the signature without its
    [DIGSIG_BSIGN_INFOS] leading bytes: [0] if it answers [0], [-EPERM]
    otherwise. *)
Theorem verify_signature_hashes_canonical_file
    (C : config) (E : env) (fuel : nat) (sig_orig : list byte) (ino : nat)
    (sh_offset : Z) (content : list byte) :
  serves E ino content →
  0 < DIGSIG_ELF_READ_BLOCK_SIZE C →
  Z.of_nat (length content) + DIGSIG_ELF_READ_BLOCK_SIZE C ≤ 2 ^ 32 →
  Z.of_nat (length content) ≤ Z.of_nat fuel * DIGSIG_ELF_READ_BLOCK_SIZE C →
  0 ≤ DIGSIG_ELF_SIG_SIZE C → 0 ≤ sh_offset →
  sh_offset + DIGSIG_ELF_SIG_SIZE C < 2 ^ 32 →
  digsig_is_revoked_sig E sig_orig = false →
  digsig_sign_verify_init E = true →
  is_Some (kmalloc_memory E AllocReadBlocks) →
  (∀ c d, 0 ≤ digsig_sign_verify_update E c d) →
  ∃ log,
    digsig_verify_signature C E fuel sig_orig ino sh_offset
    = Some (if digsig_sign_verify_final E (canonical_file C sh_offset content)
                 (drop (Z.to_nat (DIGSIG_BSIGN_INFOS C)) sig_orig) =? 0
            then 0 else - EPERM, log).
Proof.
  intros Hserves Hb Hlen Hfuel Hs Ho Hend Hrev Hinit [junk Hk] Hu.
  unfold digsig_verify_signature, kmalloc. rewrite Hrev, Hinit, Hk. simpl.
  destruct (verify_loop_canonical C E ino sh_offset content Hserves Hb Hlen Hs Ho
              Hend Hu fuel 0 (resize (Z.to_nat (DIGSIG_ELF_READ_BLOCK_SIZE C)) x00 junk) [])
    as [log Hl]; [lia|by rewrite length_resize|lia|].
  rewrite Hl. simpl. fold (canonical_file C sh_offset content).
  eexists. f_equal. f_equal.
  destruct (digsig_sign_verify_final E _ _ =? 0) eqn:Hf; simpl; [|done].
  by apply Z.eqb_eq in Hf.
Qed.

Lemma verify_signature_hashes_canonical_file_witness :
  serves (checking_env resigned_image) 7 resigned_image ∧
  ∃ log,
    digsig_verify_signature restrictive_config (checking_env resigned_image) 1
      (replicate 512 xbb) 7 192 = Some (0, log).
Proof.
  assert (serves (checking_env resigned_image) 7 resigned_image) as Hs
    by (split; [intros; reflexivity | reflexivity]).
  split; [exact Hs|].
  destruct (verify_signature_hashes_canonical_file restrictive_config
              (checking_env resigned_image) 1 (replicate 512 xbb) 7 192
              resigned_image Hs) as [log H].
  - reflexivity.
  - vm_compute; discriminate.
  - vm_compute; discriminate.
  - vm_compute; discriminate.
  - lia.
  - vm_compute; reflexivity.
  - reflexivity.
  - reflexivity.
  - by eexists.
  - intros; simpl; lia.
  - exists log. rewrite H. f_equal.
Defined.

(** The canonical form of a file laid out as the bytes before the
    signature section, the section, and the bytes after it. *)
Lemma canonical_file_layout C sh_offset (pre sec post : list byte) :
  Z.of_nat (length pre) = sh_offset →
  Z.of_nat (length sec) = DIGSIG_ELF_SIG_SIZE C →
  canonical_file C sh_offset (pre ++ sec ++ post)
  = pre ++ replicate (length sec) x00 ++ post.
Proof.
  intros Hp Hs. unfold canonical_file, canonical_block, in_signature.
  rewrite !imap_app. f_equal; [|f_equal].
  - rewrite <- (list_fmap_id pre) at 2. rewrite <- imap_const.
    apply imap_ext. intros i x Hi. apply lookup_lt_Some in Hi.
    rewrite bool_decide_eq_false_2 by lia. done.
  - rewrite <- (const_fmap (λ _, x00) sec x00) by done. rewrite <- imap_const.
    apply imap_ext. intros i x Hi. apply lookup_lt_Some in Hi. simpl.
    rewrite bool_decide_eq_true_2 by lia. done.
  - rewrite <- (list_fmap_id post) at 2. rewrite <- imap_const.
    apply imap_ext. intros i x Hi. simpl.
    rewrite bool_decide_eq_false_2 by lia. done.
Qed.

(** X9.  The verdict does not depend on the bytes stored in the signature
    section.  Two regular files that differ only there (the same bytes
    before the section, any [DIGSIG_ELF_SIG_SIZE] bytes in it, the same
    bytes after it), checked against the same signature by the same final
    verification, under the conditions of X8, get the same verdict. *)
Theorem verdict_blind_to_signature_section
    (C : config) (E1 E2 : env) (fuel : nat) (sig_orig : list byte) (ino : nat)
    (pre sec1 sec2 post : list byte) :
  let sh_offset := Z.of_nat (length pre) in
  serves E1 ino (pre ++ sec1 ++ post) →
  serves E2 ino (pre ++ sec2 ++ post) →
  Z.of_nat (length sec1) = DIGSIG_ELF_SIG_SIZE C →
  Z.of_nat (length sec2) = DIGSIG_ELF_SIG_SIZE C →
  0 < DIGSIG_ELF_READ_BLOCK_SIZE C →
  Z.of_nat (length (pre ++ sec1 ++ post)) + DIGSIG_ELF_READ_BLOCK_SIZE C ≤ 2 ^ 32 →
  Z.of_nat (length (pre ++ sec1 ++ post))
    ≤ Z.of_nat fuel * DIGSIG_ELF_READ_BLOCK_SIZE C →
  (∀ E, E = E1 ∨ E = E2 →
     digsig_is_revoked_sig E sig_orig = false ∧
     digsig_sign_verify_init E = true ∧
     is_Some (kmalloc_memory E AllocReadBlocks) ∧
     ∀ c d, 0 ≤ digsig_sign_verify_update E c d) →
  (∀ ctx s, digsig_sign_verify_final E1 ctx s = digsig_sign_verify_final E2 ctx s) →
  ∃ r log1 log2,
    digsig_verify_signature C E1 fuel sig_orig ino sh_offset = Some (r, log1) ∧
    digsig_verify_signature C E2 fuel sig_orig ino sh_offset = Some (r, log2).
Proof.
  intros sh_offset Hs1 Hs2 Hl1 Hl2 Hb Hlen Hfuel Hready Hfinal.
  assert (length (pre ++ sec2 ++ post) = length (pre ++ sec1 ++ post)) as Heq
    by (rewrite !length_app; lia).
  assert (sh_offset + DIGSIG_ELF_SIG_SIZE C < 2 ^ 32) as Hend.
  { subst sh_offset. rewrite !length_app in Hlen. lia. }
  destruct (Hready E1 (or_introl eq_refl)) as (Hr1 & Hi1 & Hk1 & Hu1).
  destruct (Hready E2 (or_intror eq_refl)) as (Hr2 & Hi2 & Hk2 & Hu2).
  destruct (verify_signature_hashes_canonical_file C E1 fuel sig_orig ino
              sh_offset _ Hs1 Hb Hlen Hfuel ltac:(lia) ltac:(lia) Hend
              Hr1 Hi1 Hk1 Hu1) as [log1 H1].
  destruct (verify_signature_hashes_canonical_file C E2 fuel sig_orig ino
              sh_offset _ Hs2 Hb ltac:(rewrite Heq; exact Hlen)
              ltac:(rewrite Heq; exact Hfuel) ltac:(lia) ltac:(lia) Hend
              Hr2 Hi2 Hk2 Hu2) as [log2 H2].
  rewrite (canonical_file_layout C sh_offset pre sec1 post) in H1 by done.
  rewrite (canonical_file_layout C sh_offset pre sec2 post) in H2 by done.
  assert (length sec1 = length sec2) as Hsec by lia.
  rewrite Hsec, Hfinal in H1.
  eauto.
Qed.

Lemma verdict_blind_to_signature_section_witness :
  ∃ r log1 log2,
    digsig_verify_signature restrictive_config (checking_env (signed_image 512)) 1
      (replicate 512 xaa) 7 192 = Some (r, log1) ∧
    digsig_verify_signature restrictive_config (checking_env resigned_image) 1
      (replicate 512 xaa) 7 192 = Some (r, log2).
Proof.
  apply (verdict_blind_to_signature_section restrictive_config
           (checking_env (signed_image 512)) (checking_env resigned_image) 1
           (replicate 512 xaa) 7
           (elf64_header 64 64 2 ++ elf64_shdr 0 0 0 ++ elf64_shdr SHT_SIG 192 512)
           (replicate 512 xaa) (replicate 512 xbb) (replicate 64 x90)).
  - split; [intros; reflexivity | reflexivity].
  - split; [intros; reflexivity | reflexivity].
  - reflexivity.
  - reflexivity.
  - reflexivity.
  - vm_compute; discriminate.
  - vm_compute; discriminate.
  - intros E [-> | ->]; (repeat split; [by eexists | intros; simpl; lia]).
  - intros; reflexivity.
Defined.

(** ** The gate: the states it can leave *)

(** The state after a call of the gate on an open handle is one of four:
    the state as it was; the state after taking and giving back the lease;
    the state with the lease taken; or one of the last two with the inode
    added to the cache.  The lease is kept only by a call that returns
    [0]. *)
Lemma mmap_file_shapes C E fuel st fd f reqprot r st' log :
  files st !! fd = Some f →
  digsig_mmap_file C E fuel st (Some fd) reqprot = Some (r, st', log) →
  let ino := f_inode f in
  let acq := set_file_security
               (set_inode_security st ino (u64 (get_inode_security st ino + 1)))
               fd 1 in
  st' = st ∨
  (g_init st ≠ 0 ∧ f_security f = 0 ∧ ¬ 0 < i_writecount (get_inode st ino) ∧
   (st' = digsig_allow_write_access acq fd f ∨
    r = 0 ∧ (st' = acq ∨ st' = digsig_cache_signature acq ino))) ∨
  (g_init st ≠ 0 ∧ r = 0 ∧ f_security f ≠ 0 ∧ st' = digsig_cache_signature st ino).
Proof.
  intros Hf. unfold digsig_mmap_file.
  destruct (g_init st =? 0) eqn:Hg; [intros; simplify_eq; eauto|].
  apply Z.eqb_neq in Hg.
  destruct (Z.land reqprot VM_EXEC =? 0); [intros; simplify_eq; eauto|].
  simpl. rewrite Hf. simpl.
  destruct (negb (f_dentry f)); [intros; simplify_eq; eauto|].
  destruct (negb (d_name f)); [intros; simplify_eq; eauto|].
  destruct (is_unprotected_file C f); [intros; simplify_eq; eauto|].
  unfold digsig_deny_write_access.
  destruct (f_security f =? 0) eqn:H0;
    [apply Z.eqb_eq in H0;
     destruct (0 <? i_writecount (get_inode st (f_inode f))) eqn:Hw|
     apply Z.eqb_neq in H0]; simpl.
  - destruct_check Hc.
    apply mmap_file_check_state in Hc
      as [[-> [->| [-> _]]]|(_ & _ & ? & _)]; [by left|by left|done].
  - apply Z.ltb_ge in Hw. destruct_check Hc.
    apply mmap_file_check_state in Hc
      as [[-> [->| [-> ->]]]|(-> & -> & _ & -> & _)];
      right; left; (split; [done|split; [done|split; [lia|]]]); eauto.
  - destruct_check Hc.
    apply mmap_file_check_state in Hc
      as [[-> [->| [-> ->]]]|(-> & -> & _ & -> & _)]; eauto.
    right; right. eauto.
Qed.

Lemma alter_alter_restores (l : list file) fd f :
  l !! fd = Some f → f_security f = 0 →
  alter (with_f_security 0) fd (alter (with_f_security 1) fd l) = l.
Proof.
  intros Hf H0. apply list_eq. intros j.
  destruct (decide (fd = j)) as [->|Hne].
  - rewrite !list_lookup_alter_eq, Hf. simpl. f_equal.
    by destruct f; simplify_eq/=.
  - by rewrite !list_lookup_alter_ne.
Qed.

(** Taking the lease and giving it back leaves the handles and every
    inode as they were. *)
Lemma acquire_release_restores st fd f :
  guard_inv st → g_init st ≠ 0 →
  files st !! fd = Some f → f_security f = 0 →
  ¬ 0 < i_writecount (get_inode st (f_inode f)) →
  let st' := digsig_allow_write_access
               (set_file_security
                  (set_inode_security st (f_inode f)
                     (u64 (get_inode_security st (f_inode f) + 1))) fd 1) fd f in
  g_init st' = g_init st ∧ sig_cache st' = sig_cache st ∧
  files st' = files st ∧ ∀ ino, get_inode st' ino = get_inode st ino.
Proof.
  intros Hinv Hg Hf H0 Hw st'.
  pose proof (acquire_inv st fd f Hinv Hg Hf H0 Hw) as Hinv1.
  set (ino := f_inode f) in *.
  set (acq := set_file_security _ fd 1) in *.
  assert (get_inode_security acq ino = get_inode_security st ino + 1) as Hacq.
  { rewrite (inv_leases _ Hinv1), (inv_leases _ Hinv).
    subst acq. rewrite leases_set_file_inode, (leases_acquire _ fd f) by done.
    rewrite decide_True by done. lia. }
  assert (0 ≤ get_inode_security st ino < 2 ^ 64 - 1) as Hrange.
  { pose proof (inv_handles _ Hinv1) as Hh.
    pose proof (leases_le acq ino) as Hle.
    pose proof (inv_leases _ Hinv1 ino) as H1.
    pose proof (inv_leases _ Hinv ino) as H2.
    lia. }
  repeat split; try done.
  - subst st' acq. simpl. by apply (alter_alter_restores _ fd f).
  - intros j. subst st'. unfold digsig_allow_write_access. fold ino.
    rewrite Hacq.
    change (get_inode (set_file_security ?s _ _) j) with (get_inode s j).
    rewrite get_inode_set_inode_security.
    destruct (decide (ino = j)) as [<-|Hne].
    + subst acq.
      change (get_inode (set_file_security ?s _ _) ino) with (get_inode s ino).
      rewrite get_inode_set_inode_security, decide_True by done. simpl.
      rewrite u64_small by lia.
      replace (get_inode_security st ino + 1 - 1) with (get_inode_security st ino)
        by lia.
      unfold get_inode_security. by destruct (get_inode st ino).
    + subst acq.
      change (get_inode (set_file_security ?s _ _) j) with (get_inode s j).
      by rewrite get_inode_set_inode_security, decide_False by done.
Qed.

(** X10.  A request that the gate does not answer with [0] leaves the
    module as it found it: in every state the hooks can reach, after a
    call of the gate that returns a denial the flag, the cache, every
    handle and every inode (its mapping count and its writers) are what
    they were before the call.  A lease taken for the time of the
    verification has been given back. *)
Theorem denied_request_leaves_no_trace
    (C : config) (handles : list file) (ops : list op) (st : kstate)
    (E : env) (fuel : nat) (file : option nat) (reqprot r : Z)
    (st' : kstate) (log : list event) :
  Z.of_nat (length handles) < 2 ^ 64 →
  run C ops (boot handles) = Some st →
  digsig_mmap_file C E fuel st file reqprot = Some (r, st', log) →
  r ≠ 0 →
  g_init st' = g_init st ∧ sig_cache st' = sig_cache st ∧
  files st' = files st ∧ ∀ ino, get_inode st' ino = get_inode st ino.
Proof.
  intros Hlen Hrun Hm Hr.
  pose proof (run_inv C ops _ _ (boot_inv handles Hlen) Hrun) as Hinv.
  destruct file as [fd|]; [destruct (files st !! fd) as [f|] eqn:Hf|].
  - destruct (mmap_file_shapes _ _ _ _ _ _ _ _ _ _ Hf Hm)
      as [->|[(Hg & H0 & Hw & [->|[? _]])|(_ & ? & _)]]; try done.
    by apply acquire_release_restores.
  - unfold digsig_mmap_file in Hm. simpl in Hm. rewrite Hf in Hm. simpl in Hm.
    by repeat case_match; simplify_eq.
  - unfold digsig_mmap_file in Hm. simpl in Hm.
    by repeat case_match; simplify_eq.
Qed.

Lemma denied_request_leaves_no_trace_witness :
  ∃ st' log,
    digsig_mmap_file restrictive_config (file_env (signed_image 512) 1) 1
      ready_state (Some 0%nat) VM_EXEC = Some (- EPERM, st', log) ∧
    files st' = files ready_state ∧
    ∀ ino, get_inode st' ino = get_inode ready_state ino.
Proof.
  destruct (digsig_mmap_file restrictive_config (file_env (signed_image 512) 1) 1
              ready_state (Some 0%nat) VM_EXEC) as [[[r st'] log]|] eqn:Hm;
    [|by vm_compute in Hm].
  assert (r = - EPERM) as ->.
  { vm_compute in Hm. by injection Hm as <- _ _. }
  exists st', log. split; [reflexivity|].
  assert (run restrictive_config [OpProvideKey] (boot [plain_file 7])
          = Some ready_state) as Hrun by (vm_compute; reflexivity).
  destruct (denied_request_leaves_no_trace restrictive_config [plain_file 7]
              [OpProvideKey] ready_state _ _ _ _ _ _ _
              ltac:(simpl; lia) Hrun Hm ltac:(unfold EPERM; lia))
    as (_ & _ & Hfiles & Hino).
  split; [exact Hfiles|exact Hino].
Defined.

(** ** Guard state: what the counters mean *)

Lemma f_security_set_file_security st fd v j f :
  (v = 0 ∨ v = 1) →
  (∀ k g, files st !! k = Some g → f_security g = 0 ∨ f_security g = 1) →
  files (set_file_security st fd v) !! j = Some f →
  f_security f = 0 ∨ f_security f = 1.
Proof.
  intros Hv Hall. simpl. rewrite list_lookup_alter.
  case_decide; [subst|by apply Hall].
  destruct (files st !! j) as [g|]; intros ?; simplify_eq/=. done.
Qed.

Lemma step_f_security C o st st' :
  (∀ k g, files st !! k = Some g → f_security g = 0 ∨ f_security g = 1) →
  step C o st = Some st' →
  ∀ k g, files st' !! k = Some g → f_security g = 0 ∨ f_security g = 1.
Proof.
  intros Hall Hs.
  assert (∀ s, files s = files st →
            ∀ k g, files s !! k = Some g → f_security g = 0 ∨ f_security g = 1)
    as Hsame by (intros s ->; done).
  destruct o as [|i|i|inode mask|i|i|E fuel file reqprot|fd0];
    simpl in Hs; simplify_eq.
  - by apply Hsame.
  - apply Hsame. unfold request_write_open.
    destruct (digsig_inode_permission st (Some i) MAY_WRITE) as [[r s] l] eqn:Hp.
    assert (files s = files st).
    { unfold digsig_inode_permission in Hp. by repeat case_match; simplify_eq. }
    by destruct (r =? 0).
  - apply Hsame. by case_match.
  - apply Hsame. unfold digsig_inode_permission. by repeat case_match.
  - apply Hsame. unfold digsig_inode_unlink. by repeat case_match.
  - apply Hsame. unfold digsig_inode_free_security. by case_match.
  - destruct (digsig_mmap_file C E fuel st file reqprot)
      as [[[r s2] log]|] eqn:Hm; simplify_eq/=.
    destruct file as [fd|]; [destruct (files st !! fd) as [f|] eqn:Hf|].
    + destruct (mmap_file_shapes _ _ _ _ _ _ _ _ _ _ Hf Hm)
        as [->|[(_ & _ & _ & [->|[_ [->| ->]]])|(_ & _ & _ & ->)]]; try done.
      * intros k g. unfold digsig_allow_write_access.
        apply f_security_set_file_security; [by left|].
        intros k' g'. apply f_security_set_file_security; [by right|done].
      * intros k g. apply f_security_set_file_security; [by right|done].
      * intros k g. apply f_security_set_file_security; [by right|done].
    + unfold digsig_mmap_file in Hm. simpl in Hm. rewrite Hf in Hm. simpl in Hm.
      by repeat case_match; simplify_eq.
    + unfold digsig_mmap_file in Hm. simpl in Hm.
      by repeat case_match; simplify_eq.
  - unfold digsig_file_free_security. repeat case_match; try done.
    intros k g. unfold digsig_allow_write_access.
    apply f_security_set_file_security; [by left|done].
Qed.

(** X11.  The two counters are what the comment in the source says they
    are.  In every state the hooks can reach (with fewer than [2^64]
    handles), [f_security] of every handle is [0] or [1], and
    [i_security] of every inode is the number of handles on it whose
    [f_security] is set. *)
Theorem counters_mean_what_the_source_says
    (C : config) (handles : list file) (ops : list op) (st : kstate) :
  Z.of_nat (length handles) < 2 ^ 64 →
  run C ops (boot handles) = Some st →
  (∀ fd f, files st !! fd = Some f → f_security f = 0 ∨ f_security f = 1) ∧
  (∀ ino, get_inode_security st ino = Z.of_nat (leases st ino)).
Proof.
  intros Hlen Hrun. split.
  - assert (∀ k g, files (boot handles) !! k = Some g →
              f_security g = 0 ∨ f_security g = 1) as Hboot.
    { intros k g. simpl. rewrite list_lookup_fmap.
      destruct (handles !! k); intros ?; simplify_eq/=. by left. }
    revert Hboot Hrun. generalize (boot handles). clear Hlen.
    induction ops as [|o ops IH]; intros s Hs Hrun; simplify_eq/=; [done|].
    destruct (step C o s) as [s1|] eqn:Hstep; simplify_eq/=.
    eapply IH; [|done]. by eapply step_f_security.
  - apply (inv_leases _ (run_inv C ops _ _ (boot_inv handles Hlen) Hrun)).
Qed.

Lemma counters_mean_what_the_source_says_witness :
  Z.of_nat (length [plain_file 7; plain_file 7]) < 2 ^ 64 ∧
  ∃ st,
    run restrictive_config
      [OpProvideKey;
       OpMmap (file_env (signed_image 512) 0) 1 (Some 0%nat) VM_EXEC;
       OpMmap (file_env (signed_image 512) 0) 1 (Some 1%nat) VM_EXEC;
       OpMmap (file_env (signed_image 512) 0) 1 (Some 1%nat) VM_EXEC]
      (boot [plain_file 7; plain_file 7]) = Some st ∧
    get_inode_security st 7 = 2 ∧ leases st 7 = 2%nat.
Proof.
  split; [simpl; lia|].
  destruct (run restrictive_config
      [OpProvideKey;
       OpMmap (file_env (signed_image 512) 0) 1 (Some 0%nat) VM_EXEC;
       OpMmap (file_env (signed_image 512) 0) 1 (Some 1%nat) VM_EXEC;
       OpMmap (file_env (signed_image 512) 0) 1 (Some 1%nat) VM_EXEC]
      (boot [plain_file 7; plain_file 7])) as [st|] eqn:Hrun;
    [|by vm_compute in Hrun].
  exists st. split; [reflexivity|].
  destruct (counters_mean_what_the_source_says restrictive_config
              [plain_file 7; plain_file 7] _ st ltac:(simpl; lia) Hrun)
    as [_ Hcount].
  assert (leases st 7 = 2%nat) as Hl.
  { vm_compute in Hrun. injection Hrun as <-. vm_compute. reflexivity. }
  split; [|exact Hl]. rewrite Hcount, Hl. reflexivity.
Defined.

(** X12.  Closing a handle gives its lease back once: the first call of
    [digsig_file_free_security] clears [f_security], so a second call
    changes nothing, and a handle that never took a lease is left alone
    by the first already. *)
Theorem file_free_security_idempotent (st : kstate) (fd : nat) :
  digsig_file_free_security (digsig_file_free_security st fd) fd
  = digsig_file_free_security st fd ∧
  (∀ f, files st !! fd = Some f → f_security f = 0 →
        digsig_file_free_security st fd = st) ∧
  (∀ f, files (digsig_file_free_security st fd) !! fd = Some f →
        f_security f = 0).
Proof.
  assert (∀ f, files (digsig_file_free_security st fd) !! fd = Some f →
               f_security f = 0) as Hclear.
  { intros f. unfold digsig_file_free_security.
    destruct (files st !! fd) as [g|] eqn:Hg; [|by rewrite Hg].
    destruct (f_security g =? 0) eqn:H0; simpl.
    - rewrite Hg. intros ?; simplify_eq. by apply Z.eqb_eq.
    - rewrite list_lookup_alter_eq, Hg. by intros ?; simplify_eq/=. }
  split; [|split; [|done]].
  - unfold digsig_file_free_security at 1.
    destruct (files (digsig_file_free_security st fd) !! fd) as [f|] eqn:Hf;
      [|done].
    by rewrite (proj2 (Z.eqb_eq _ _) (Hclear f eq_refl)).
  - intros f Hf H0. unfold digsig_file_free_security.
    by rewrite Hf, (proj2 (Z.eqb_eq _ _) H0).
Qed.

(** ** The gate: the cache fast path and the blacklist *)

(** X13.  Once a call of the gate has put an identity into the cache, a
    later executable mapping through the same handle is answered from the
    cache alone: it returns [0] after the cache lookup, reads nothing from
    the file, calls no signature primitive, whatever the file now holds,
    and leaves the state as it is. *)
Theorem accepted_then_cache_hit
    (C : config) (E : env) (fuel : nat) (st : kstate) (fd : nat) (f : file)
    (reqprot r : Z) (st' : kstate) (log : list event) :
  files st !! fd = Some f →
  digsig_mmap_file C E fuel st (Some fd) reqprot = Some (r, st', log) →
  f_inode f ∉ sig_cache st →
  f_inode f ∈ sig_cache st' →
  ∀ E' fuel' reqprot',
    Z.land reqprot' VM_EXEC ≠ 0 →
    digsig_mmap_file C E' fuel' st' (Some fd) reqprot'
    = Some (0, st', [EvCacheLookup (f_inode f) true]).
Proof.
  intros Hf Hm Hn Hin E' fuel' reqprot' Hp.
  assert (f_dentry f = true ∧ d_name f = true ∧ is_unprotected_file C f = false)
    as (Hd & Hna & Hu).
  { unfold digsig_mmap_file in Hm. simpl in Hm. rewrite Hf in Hm. simpl in Hm.
    destruct (g_init st =? 0); [simplify_eq; exfalso; by apply Hn|].
    destruct (Z.land reqprot VM_EXEC =? 0); [simplify_eq; exfalso; by apply Hn|].
    destruct (f_dentry f); simpl in Hm; [|simplify_eq; exfalso; by apply Hn].
    destruct (d_name f); simpl in Hm; [|simplify_eq; exfalso; by apply Hn].
    destruct (is_unprotected_file C f); [simplify_eq; exfalso; by apply Hn|done]. }
  destruct (mmap_file_shapes _ _ _ _ _ _ _ _ _ _ Hf Hm)
    as [->|[(Hg & H0 & _ & [->|[_ [->| ->]]])|(Hg & _ & H0 & ->)]];
    try done.
  - set (acq := set_file_security _ fd 1).
    unfold digsig_mmap_file. simpl.
    rewrite (proj2 (Z.eqb_neq _ _) Hg), (proj2 (Z.eqb_neq _ _) Hp).
    rewrite list_lookup_alter_eq, Hf. simpl. rewrite Hd, Hna. simpl.
    change (is_unprotected_file C (with_f_security 1 f))
      with (is_unprotected_file C f). rewrite Hu. simpl.
    unfold digsig_mmap_file_check, is_cached_signature.
    by rewrite bool_decide_eq_true_2.
  - unfold digsig_mmap_file. simpl.
    rewrite (proj2 (Z.eqb_neq _ _) Hg), (proj2 (Z.eqb_neq _ _) Hp).
    rewrite Hf. simpl. rewrite Hd, Hna, Hu. simpl.
    rewrite (proj2 (Z.eqb_neq _ _) H0).
    unfold digsig_mmap_file_check, is_cached_signature.
    by rewrite bool_decide_eq_true_2.
Qed.

Lemma accepted_then_cache_hit_witness :
  ∃ log,
    digsig_mmap_file restrictive_config (file_env (signed_image 512) 0) 1
      ready_state (Some 0%nat) VM_EXEC = Some (0, leased_state, log) ∧
    digsig_mmap_file restrictive_config (file_env script 1) 0
      leased_state (Some 0%nat) VM_EXEC
    = Some (0, leased_state, [EvCacheLookup 7 true]).
Proof.
  assert (∃ log, digsig_mmap_file restrictive_config
                   (file_env (signed_image 512) 0) 1
                   ready_state (Some 0%nat) VM_EXEC
                 = Some (0, leased_state, log)) as [log Hm].
  { destruct (digsig_mmap_file restrictive_config (file_env (signed_image 512) 0) 1
                ready_state (Some 0%nat) VM_EXEC) as [[[r st'] log]|] eqn:Hm;
      [|by vm_compute in Hm].
    exists log. vm_compute in Hm. injection Hm as <- <- _. vm_compute.
    reflexivity. }
  exists log. split; [exact Hm|].
  apply (accepted_then_cache_hit restrictive_config _ _ ready_state 0
           (plain_file 7) VM_EXEC 0 leased_state log eq_refl Hm).
  - vm_compute. intros H. discriminate H.
  - vm_compute. reflexivity.
  - vm_compute. discriminate.
Defined.

Lemma is_unprotected_file_spec C f :
  is_unprotected_file C f = true ↔
  (CONFIG_SECURITY_DIGSIG_RESTRICT_USB_DEVICES C = true ∧ bus_name f = "usb"%string) ∨
  s_type_name f = "nfs"%string ∨ s_type_name f = "cifs"%string.
Proof.
  unfold is_unprotected_file, digsig_fs_blacklist. simpl.
  destruct (CONFIG_SECURITY_DIGSIG_RESTRICT_USB_DEVICES C); simpl;
    destruct (String.eqb_spec (bus_name f) "usb");
    destruct (String.eqb_spec (s_type_name f) "nfs");
    destruct (String.eqb_spec (s_type_name f) "cifs"); simpl;
    split; intros H; try done; auto;
    destruct H as [[? ?]|[?|?]]; congruence.
Qed.

Lemma mmap_file_check_log_head C E fuel st ino d a r a' st' log :
  digsig_mmap_file_check C E fuel st ino d a = Some (r, a', st', log) →
  ∃ hit rest, log = EvCacheLookup ino hit :: rest.
Proof.
  unfold digsig_mmap_file_check. repeat case_match; intros ?; simplify_eq; eauto.
Qed.

(** X14.  A file on a blacklisted filesystem ([nfs], [cifs]; a USB device
    too when the build restricts them) is never examined: the gate
    answers an executable mapping of it with the mode verdict
    [DIGSIG_MODE] at once, without a lease, a cache lookup or a read, even
    if its identity is in the cache; on any other filesystem the request
    goes on to the cache lookup. *)
Theorem blacklisted_filesystem_gets_mode_verdict
    (C : config) (E : env) (fuel : nat) (st : kstate) (fd : nat) (f : file)
    (reqprot : Z) :
  g_init st ≠ 0 → Z.land reqprot VM_EXEC ≠ 0 →
  files st !! fd = Some f → f_dentry f = true → d_name f = true →
  if bool_decide
       ((CONFIG_SECURITY_DIGSIG_RESTRICT_USB_DEVICES C = true ∧
         bus_name f = "usb"%string) ∨
        s_type_name f = "nfs"%string ∨ s_type_name f = "cifs"%string)
  then digsig_mmap_file C E fuel st (Some fd) reqprot = Some (DIGSIG_MODE C, st, [])
  else ∀ r st' log,
         digsig_mmap_file C E fuel st (Some fd) reqprot = Some (r, st', log) →
         ∃ hit rest, log = EvCacheLookup (f_inode f) hit :: rest.
Proof.
  intros Hg Hp Hf Hd Hn.
  pose proof (is_unprotected_file_spec C f) as Hspec.
  unfold digsig_mmap_file.
  rewrite (proj2 (Z.eqb_neq _ _) Hg), (proj2 (Z.eqb_neq _ _) Hp).
  simpl. rewrite Hf. simpl. rewrite Hd, Hn. simpl.
  case_bool_decide as Hb.
  - by rewrite (proj2 Hspec Hb).
  - destruct (is_unprotected_file C f); [by destruct Hb; apply Hspec|].
    intros r st' log. unfold digsig_deny_write_access.
    repeat case_match; intros ?; simplify_eq;
      by eapply mmap_file_check_log_head.
Qed.

Lemma blacklisted_filesystem_witness :
  digsig_mmap_file restrictive_config (file_env (signed_image 512) 0) 1
    {| g_init := 1; inodes := ∅; files := [nfs_file 7]; sig_cache := {[ 7%nat ]} |}
    (Some 0%nat) VM_EXEC
  = Some (- EPERM,
          {| g_init := 1; inodes := ∅; files := [nfs_file 7];
             sig_cache := {[ 7%nat ]} |}, []).
Proof.
  pose proof (blacklisted_filesystem_gets_mode_verdict restrictive_config
                (file_env (signed_image 512) 0) 1
                {| g_init := 1; inodes := ∅; files := [nfs_file 7];
                   sig_cache := {[ 7%nat ]} |} 0 (nfs_file 7) VM_EXEC) as H.
  rewrite bool_decide_eq_true_2 in H by (right; left; reflexivity).
  apply H; first [reflexivity | vm_compute; discriminate].
Defined.

(** ** The gate: its verdicts *)

(** Membership in a list given by its elements. *)
Ltac in_list :=
  solve [apply list_elem_of_In; simpl;
         repeat (first [left; reflexivity | right])].

Lemma read_elf_header_errors E ino e l :
  read_elf_header E ino = (ErrPtr e, l) → e = - ENOMEM ∨ e = - EINVAL.
Proof.
  unfold read_elf_header. repeat case_match; intros ?; simplify_eq; eauto.
Qed.

(** X15.  The gate only ever returns one of six values: [0], the mode
    verdict [DIGSIG_MODE], [-EPERM], [-EINVAL], [-ENOMEM] and [-ETXTBSY].
    Whatever the verify engine or a read returned is folded into these;
    in particular no positive value and no error of the file system
    reaches the caller. *)
Theorem gate_verdicts
    (C : config) (E : env) (fuel : nat) (st : kstate) (file : option nat)
    (reqprot r : Z) (st' : kstate) (log : list event) :
  digsig_mmap_file C E fuel st file reqprot = Some (r, st', log) →
  r ∈ [0; DIGSIG_MODE C; - EPERM; - EINVAL; - ENOMEM; - ETXTBSY].
Proof.
  assert (∀ s ino d a r a' s' l,
            (d = 0 ∨ d = - ETXTBSY) →
            digsig_mmap_file_check C E fuel s ino d a = Some (r, a', s', l) →
            r ∈ [0; DIGSIG_MODE C; - EPERM; - EINVAL; - ENOMEM; - ETXTBSY]) as Hc.
  { intros s ino d a r0 a' s' l Hd. unfold digsig_mmap_file_check.
    destruct (is_cached_signature s ino); [intros ?; simplify_eq; in_list|].
    destruct (read_elf_header E ino) as [[| e | hdr] l1] eqn:Hh.
    - intros ?; simplify_eq. in_list.
    - intros ?; simplify_eq.
      destruct (read_elf_header_errors _ _ _ _ Hh) as [-> | ->]; in_list.
    - repeat case_match; intros ?; simplify_eq; try in_list.
      all: try match goal with
               | H : (?x =? 0) = true |- ?x ∈ _ =>
                   apply Z.eqb_eq in H; rewrite H; in_list
               end.
      all: destruct Hd as [-> | ->]; try done; in_list. }
  unfold digsig_mmap_file, digsig_deny_write_access.
  repeat case_match; intros ?; simplify_eq; try in_list.
  all: match goal with
       | H : digsig_mmap_file_check _ _ _ _ _ ?d _ = Some _ |- _ =>
           apply Hc in H; [done|]
       end.
  all: rewrite ?negb_true_iff, ?negb_false_iff, ?Z.eqb_eq, ?Z.eqb_neq in *;
    auto.
Qed.

Lemma gate_verdicts_witness :
  ∃ st' log,
    digsig_mmap_file restrictive_config (file_env (signed_image 512) 1) 1
      ready_state (Some 0%nat) VM_EXEC = Some (- EPERM, st', log) ∧
    - EPERM ∈ [0; DIGSIG_MODE restrictive_config; - EPERM; - EINVAL; - ENOMEM;
               - ETXTBSY].
Proof.
  destruct (digsig_mmap_file restrictive_config (file_env (signed_image 512) 1) 1
              ready_state (Some 0%nat) VM_EXEC) as [[[r st'] log]|] eqn:Hm;
    [|by vm_compute in Hm].
  assert (r = - EPERM) as ->.
  { vm_compute in Hm. by injection Hm as <- _ _. }
  exists st', log. split; [reflexivity|].
  exact (gate_verdicts _ _ _ _ _ _ _ _ _ Hm).
Defined.

(** ** Module initialisation *)

(** X16.  [digsig_init_module] succeeds (returns [0]) exactly when the
    module may be enabled and the cache, the sysfs entries and the
    registration are all set up; it fails with [-ENOMEM] or [-EINVAL]
    otherwise.  On success nothing is torn down.  On failure, whatever was
    set up before the failing step is torn down again: the cache is
    cleaned up if and only if it had been initialised, and so are the
    sysfs entries. *)
Theorem init_module_cleans_up (I : init_env) :
  let r := (digsig_init_module I).1 in
  let log := (digsig_init_module I).2 in
  (r = 0 ↔ security_module_enable I ≠ 0 ∧ digsig_init_caching I = 0 ∧
           digsig_init_sysfs I = 0 ∧ register_security I = 0) ∧
  (r = 0 ∨ r = - ENOMEM ∨ r = - EINVAL) ∧
  (r = 0 → (EvCacheCleanup ∉ log) ∧ (EvCleanupSysfs ∉ log)) ∧
  (r ≠ 0 →
   (EvInitCaching 0 ∈ log ↔ EvCacheCleanup ∈ log) ∧
   (EvInitSysfs 0 ∈ log ↔ EvCleanupSysfs ∈ log)).
Proof.
  unfold digsig_init_module.
  destruct (security_module_enable I =? 0) eqn:He;
    [|destruct (digsig_init_caching I =? 0) eqn:Hc;
      [destruct (digsig_init_sysfs I =? 0) eqn:Hs;
       [destruct (register_security I =? 0) eqn:Hr|]|]];
    rewrite ?Z.eqb_eq, ?Z.eqb_neq in *; simpl;
    rewrite ?Hc, ?Hs, ?Hr;
    rewrite !list_elem_of_In; simpl;
    unfold ENOMEM, EINVAL;
    intuition (try congruence; try lia).
Qed.

(** ** Guard state: closing the last mapping *)

(** X17.  When the inode's only executable mapping is closed, writing is
    allowed again, as the comment in the source says.  In a reachable
    state where a handle holds the one lease of its inode, a write-open is
    denied with [-EPERM]; once [digsig_file_free_security] has run for
    that handle the count is [0], a write-open is allowed, the writer is
    marked, and the inode is no longer in the cache. *)
Theorem closing_last_mapping_allows_writing
    (C : config) (handles : list file) (ops : list op) (st : kstate)
    (fd : nat) (f : file) :
  Z.of_nat (length handles) < 2 ^ 64 →
  run C ops (boot handles) = Some st →
  files st !! fd = Some f → f_security f ≠ 0 →
  get_inode_security st (f_inode f) = 1 →
  let ino := f_inode f in
  let st1 := digsig_file_free_security st fd in
  (request_write_open st ino).1 = - EPERM ∧
  get_inode_security st1 ino = 0 ∧
  (request_write_open st1 ino).1 = 0 ∧
  (ino ∉ sig_cache (request_write_open st1 ino).2) ∧
  i_writecount (get_inode (request_write_open st1 ino).2 ino)
  = i_writecount (get_inode st ino) + 1.
Proof.
  intros Hlen Hrun Hf H0 H1 ino st1.
  pose proof (run_inv C ops _ _ (boot_inv handles Hlen) Hrun) as Hinv.
  assert ((g_init st =? 0) = false) as Hg.
  { apply Z.eqb_neq. intros Hg.
    pose proof (inv_disabled _ Hinv Hg ino). subst ino. lia. }
  assert (st1 = digsig_allow_write_access st fd f) as Hst1.
  { subst st1. unfold digsig_file_free_security.
    by rewrite Hf, (proj2 (Z.eqb_neq _ _) H0). }
  assert (get_inode_security st1 ino = 0) as Hsec.
  { rewrite Hst1. unfold digsig_allow_write_access. fold ino.
    rewrite isec_set_file_security, isec_set_inode_security, decide_True by done.
    subst ino. rewrite H1. reflexivity. }
  assert (i_writecount (get_inode st1 ino) = i_writecount (get_inode st ino)) as Hwc.
  { rewrite Hst1. unfold digsig_allow_write_access.
    by rewrite wcount_set_file_security, wcount_set_inode_security. }
  assert (g_init st1 = g_init st) as Hg1 by (by rewrite Hst1).
  split; [|split; [done|]].
  - unfold request_write_open, digsig_inode_permission. rewrite Hg.
    change (Z.land MAY_WRITE MAY_WRITE =? 0) with false. cbn [negb].
    subst ino. by rewrite H1.
  - unfold request_write_open, digsig_inode_permission. rewrite Hg1, Hg.
    change (Z.land MAY_WRITE MAY_WRITE =? 0) with false. cbn [negb].
    rewrite Hsec. simpl.
    unfold is_cached_signature. case_bool_decide as Hin; simpl.
    + split; [done|]. split.
      * intros Hx. apply elem_of_difference in Hx as [_ Hx].
        apply Hx. by apply elem_of_singleton_2.
      * rewrite wcount_add_writecount, decide_True by done.
        change (get_inode (remove_signature ?s _) ino) with (get_inode s ino).
        by rewrite Hwc.
    + split; [done|]. split; [done|].
      rewrite wcount_add_writecount, decide_True by done. by rewrite Hwc.
Qed.

Lemma closing_last_mapping_witness :
  get_inode_security leased_state 7 = 1 ∧
  (request_write_open leased_state 7).1 = - EPERM ∧
  (request_write_open (digsig_file_free_security leased_state 0) 7).1 = 0.
Proof.
  assert (run restrictive_config
            [OpProvideKey;
             OpMmap (file_env (signed_image 512) 0) 1 (Some 0%nat) VM_EXEC]
            (boot [plain_file 7]) = Some leased_state) as Hrun
    by (vm_compute; reflexivity).
  assert (get_inode_security leased_state 7 = 1) as H1
    by (vm_compute; reflexivity).
  destruct (closing_last_mapping_allows_writing restrictive_config
              [plain_file 7] _ leased_state 0 (with_f_security 1 (plain_file 7))
              ltac:(simpl; lia) Hrun eq_refl ltac:(vm_compute; discriminate) H1)
    as (Ha & _ & Hb & _).
  split; [exact H1|]. split; [exact Ha|exact Hb].
Defined.

(** ** Gate: what it reads *)

Ltac forall_list :=
  repeat (apply Forall_cons; split; [simpl; try done; try lia|]);
  try apply Forall_nil_2.

Lemma le_word_nonneg bs : 0 ≤ le_word bs.
Proof.
  induction bs as [|b t IH]; simpl; [done|]. unfold byte_val. lia.
Qed.

Lemma field_nonneg buf off len : 0 ≤ field buf off len.
Proof. apply le_word_nonneg. Qed.

Lemma read_elf_header_bounded C E ino :
  Forall (bounded_read C E ino) (read_elf_header E ino).2.
Proof.
  apply Forall_forall. intros e He.
  apply read_elf_header_log in He as [r ->]. by simpl.
Qed.

(** A header that [read_elf_header] hands out has passed its sanity check. *)
Lemma read_elf_header_sane E ino hdr l :
  read_elf_header E ino = (Ptr hdr, l) →
  if e_class hdr =? ELFCLASS32
  then elf32_e_shoff hdr ≠ 0 ∧ elf32_e_shnum hdr ≤ 65536 / sizeof_Elf32_Shdr
  else elf64_e_shoff hdr ≠ 0 ∧ elf64_e_shnum hdr ≤ 65536 / sizeof_Elf64_Shdr.
Proof.
  unfold read_elf_header.
  destruct (kmalloc E AllocElfHeader sizeof_elf64_hdr) as [buf|]; [|done].
  destruct (kernel_read E ino 0 buf sizeof_elf64_hdr) as [r h].
  destruct (e_class h =? ELFCLASS32) eqn:Hc.
  - destruct (elf_sanity_check32 h =? 0) eqn:Hs; simpl.
    + intros ?; simplify_eq. rewrite Hc. apply Z.eqb_eq in Hs.
      unfold elf_sanity_check32 in Hs.
      repeat case_match; try done.
      split; [by apply Z.eqb_neq|by apply Z.ltb_ge].
    + by case_match.
  - destruct (elf_sanity_check64 h =? 0) eqn:Hs; simpl.
    + intros ?; simplify_eq. rewrite Hc. apply Z.eqb_eq in Hs.
      unfold elf_sanity_check64 in Hs.
      repeat case_match; try done.
      split; [by apply Z.eqb_neq|by apply Z.ltb_ge].
    + by case_match.
Qed.

Lemma read_section_header_bounded C E ino sh_size sh_off :
  sh_off ≠ 0 → 0 ≤ sh_size ≤ 65536 →
  Forall (bounded_read C E ino) (read_section_header E ino sh_size sh_off).2.
Proof.
  intros Ho Hs. unfold read_section_header.
  repeat case_match; simpl; forall_list.
Qed.

Lemma digsig_read_signature_bounded C E ino offset :
  Forall (bounded_read C E ino) (digsig_read_signature C E ino offset).2.
Proof.
  unfold digsig_read_signature.
  repeat case_match; simpl; forall_list.
Qed.

Lemma find_signature_bounded C E hdr shdata ino :
  Forall (bounded_read C E ino) (digsig_find_signature32 C E hdr shdata ino).2 ∧
  Forall (bounded_read C E ino) (digsig_find_signature64 C E hdr shdata ino).2.
Proof.
  unfold digsig_find_signature32, digsig_find_signature64. split.
  - repeat case_match; simpl; try apply Forall_nil_2.
    all: match goal with
         | H : digsig_read_signature _ _ _ ?o = (_, ?l) |- Forall _ ?l =>
             pose proof (digsig_read_signature_bounded C E ino o) as Hb;
             by rewrite H in Hb
         end.
  - repeat case_match; simpl; try apply Forall_nil_2.
    all: match goal with
         | H : digsig_read_signature _ _ _ ?o = (_, ?l) |- Forall _ ?l =>
             pose proof (digsig_read_signature_bounded C E ino o) as Hb;
             by rewrite H in Hb
         end.
Qed.

Lemma verify_loop_bounded C E ino sh_offset fuel offset buf ctx x log :
  0 ≤ offset →
  verify_loop C E ino sh_offset fuel offset buf ctx = Some (x, log) →
  Forall (bounded_read C E ino) log.
Proof.
  revert offset buf ctx log.
  induction fuel as [|fuel IH]; intros offset buf ctx log H0; cbn [verify_loop];
    destruct (offset <? i_size_read E ino) eqn:Hlt; simpl;
    try (intros ?; simplify_eq; apply Forall_nil_2).
  apply Z.ltb_lt in Hlt.
  destruct (kernel_read E ino offset buf _) as [retval buf'].
  destruct (retval <=? 0).
  { intros ?; simplify_eq. forall_list. }
  destruct (digsig_sign_verify_update E ctx _ <? 0).
  { intros ?; simplify_eq. forall_list. }
  destruct (verify_loop C E ino sh_offset fuel _ _ _) as [[y l]|] eqn:Hl; [|done].
  intros ?; simplify_eq.
  apply IH in Hl; [|unfold u32; apply Z.mod_pos_bound; lia].
  forall_list. done.
Qed.

Lemma verify_signature_bounded C E fuel sig_orig ino sh_offset r log :
  digsig_verify_signature C E fuel sig_orig ino sh_offset = Some (r, log) →
  Forall (bounded_read C E ino) log.
Proof.
  unfold digsig_verify_signature.
  repeat case_match; intros ?; simplify_eq; try solve [forall_list].
  all: match goal with
       | H : verify_loop _ _ _ _ _ _ _ _ = Some _ |- _ =>
           apply verify_loop_bounded in H; [|done]
       end.
  all: repeat (apply Forall_cons; split; [done|]); try done.
  all: apply Forall_app; split; [done|]; forall_list.
Qed.

Lemma mmap_file_check_bounded C E fuel st ino d a r a' st' log :
  digsig_mmap_file_check C E fuel st ino d a = Some (r, a', st', log) →
  Forall (bounded_read C E ino) log.
Proof.
  unfold digsig_mmap_file_check.
  destruct (is_cached_signature st ino).
  { intros ?; simplify_eq. forall_list. }
  pose proof (read_elf_header_bounded C E ino) as H1.
  destruct (read_elf_header E ino) as [[| e |hdr] l1] eqn:Hh; simpl in H1.
  1,2: intros ?; simplify_eq; by apply Forall_cons.
  destruct (negb (d =? 0)).
  { intros ?; simplify_eq. by apply Forall_cons. }
  pose proof (read_elf_header_sane _ _ _ _ Hh) as Hsane.
  pose proof (find_signature_bounded C E hdr) as Hfind.
  assert (∀ sh, Forall (bounded_read C E ino)
            (if e_class hdr =? ELFCLASS32
             then read_section_header E ino
                    (elf32_e_shnum hdr * sizeof_Elf32_Shdr) (elf32_e_shoff hdr)
             else read_section_header E ino
                    (elf64_e_shnum hdr * sizeof_Elf64_Shdr) (elf64_e_shoff hdr)).2
          ∧ Forall (bounded_read C E ino)
              (if e_class hdr =? ELFCLASS32
               then digsig_find_signature32 C E hdr sh ino
               else digsig_find_signature64 C E hdr sh ino).2) as Hb.
  { intros sh. destruct (e_class hdr =? ELFCLASS32); destruct Hsane as [Ho Hn].
    - split; [|apply Hfind]. apply read_section_header_bounded; [done|].
      pose proof (field_nonneg hdr 48 2). unfold elf32_e_shnum in *.
      change (65536 / sizeof_Elf32_Shdr) with 1638 in Hn.
      unfold sizeof_Elf32_Shdr. lia.
    - split; [|apply Hfind]. apply read_section_header_bounded; [done|].
      pose proof (field_nonneg hdr 60 2). unfold elf64_e_shnum in *.
      change (65536 / sizeof_Elf64_Shdr) with 1024 in Hn.
      unfold sizeof_Elf64_Shdr. lia. }
  destruct (if e_class hdr =? ELFCLASS32 then read_section_header _ _ _ _
            else read_section_header _ _ _ _) as [[e|sh] l2] eqn:Hsh.
  { intros ?; simplify_eq. apply Forall_cons; split; [done|].
    apply Forall_app; split; [done|]. apply (Hb []). }
  specialize (Hb sh). destruct Hb as [H2 H3]. simpl in H2.
  destruct (if e_class hdr =? ELFCLASS32 then digsig_find_signature32 _ _ _ _ _
            else digsig_find_signature64 _ _ _ _ _) as [[[sig off]|] l3] eqn:Hsig;
    simpl in H3.
  2: { intros ?; simplify_eq. apply Forall_cons; split; [done|].
       by rewrite !Forall_app. }
  destruct (digsig_verify_signature C E fuel sig ino off) as [[rv l4]|] eqn:Hv;
    [|done].
  apply verify_signature_bounded in Hv.
  destruct (rv =? 0); intros ?; simplify_eq.
  - apply Forall_app; split; [|forall_list].
    apply Forall_cons; split; [done|]. by rewrite !Forall_app.
  - apply Forall_cons; split; [done|]. by rewrite !Forall_app.
Qed.

(** X18.  Whatever the file contains, the gate's reads are bounded.  The
    header read asks for 64 bytes at offset [0]; the section table is read
    at most 64 KiB long and never from offset [0] (the sanity check of
    the header has vouched for both); a signature read asks for exactly
    [DIGSIG_ELF_SIG_SIZE] bytes; every block read asks for exactly
    [DIGSIG_ELF_READ_BLOCK_SIZE] bytes and starts inside the file. *)
Theorem gate_reads_are_bounded
    (C : config) (E : env) (fuel : nat) (st : kstate) (fd : nat) (f : file)
    (reqprot : Z) (r : Z) (st' : kstate) (log : list event) :
  files st !! fd = Some f →
  digsig_mmap_file C E fuel st (Some fd) reqprot = Some (r, st', log) →
  Forall (bounded_read C E (f_inode f)) log.
Proof.
  intros Hf. unfold digsig_mmap_file. simpl. rewrite Hf. simpl.
  repeat case_match; intros ?; simplify_eq; try apply Forall_nil_2.
  all: match goal with
       | H : digsig_mmap_file_check _ _ _ _ _ _ _ = Some _ |- _ =>
           by apply mmap_file_check_bounded in H
       end.
Qed.

Lemma gate_reads_are_bounded_witness :
  ∃ log,
    snd <$> digsig_mmap_file restrictive_config (file_env (signed_image 512) 0) 1
              ready_state (Some 0%nat) VM_EXEC = Some log ∧
    EvRead RdSectionTable 64 128 128 ∈ log ∧
    Forall (bounded_read restrictive_config (file_env (signed_image 512) 0) 7) log.
Proof.
  destruct (digsig_mmap_file restrictive_config (file_env (signed_image 512) 0) 1
              ready_state (Some 0%nat) VM_EXEC) as [[[r st'] log]|] eqn:Hm;
    [|vm_compute in Hm; discriminate].
  exists log. split; [reflexivity|]. split.
  - vm_compute in Hm. injection Hm as _ _ <-. in_list.
  - exact (gate_reads_are_bounded restrictive_config _ 1 ready_state 0
             (plain_file 7) VM_EXEC r st' log eq_refl Hm).
Defined.

(** ** Gate: what it leaves alone *)

(** X19.  A call of the gate on a handle touches nothing but that handle
    and its inode: every other handle, the guard state of every other
    inode and the cache membership of every other inode are as before,
    and of the handle itself only the lease mark [f_security] can have
    changed. *)
Theorem gate_touches_only_its_file
    (C : config) (E : env) (fuel : nat) (st : kstate) (fd : nat) (f : file)
    (reqprot : Z) (r : Z) (st' : kstate) (log : list event) :
  files st !! fd = Some f →
  digsig_mmap_file C E fuel st (Some fd) reqprot = Some (r, st', log) →
  (∀ fd', fd' ≠ fd → files st' !! fd' = files st !! fd') ∧
  (∀ ino', ino' ≠ f_inode f →
     get_inode st' ino' = get_inode st ino' ∧
     (ino' ∈ sig_cache st' ↔ ino' ∈ sig_cache st)) ∧
  (∃ v, files st' !! fd = Some (with_f_security v f)).
Proof.
  intros Hf Hm.
  assert (f = with_f_security (f_security f) f) as Heta by (by destruct f).
  assert (∀ s (ino' : nat), ino' ≠ f_inode f →
            (ino' ∈ sig_cache (digsig_cache_signature s (f_inode f))
             ↔ ino' ∈ sig_cache s)) as Hcache.
  { intros s ino' Hne. simpl. rewrite elem_of_union, elem_of_singleton.
    split; [intros [?|?]; [done|done]|by right]. }
  assert (∀ v w (ino' : nat), ino' ≠ f_inode f →
            get_inode (set_file_security
                         (set_inode_security st (f_inode f) v) fd w) ino'
            = get_inode st ino') as Hacq.
  { intros v w ino' Hne.
    change (get_inode (set_file_security ?s _ _) ino') with (get_inode s ino').
    by rewrite get_inode_set_inode_security, decide_False. }
  destruct (mmap_file_shapes _ _ _ _ _ _ _ _ _ _ Hf Hm)
    as [->|[(_ & _ & _ & [->|[_ [->| ->]]])|(_ & _ & _ & ->)]].
  - split; [done|]. split; [done|]. exists (f_security f). by rewrite Hf, Heta at 1.
  - split; [|split].
    + intros fd' Hne. simpl. by rewrite !list_lookup_alter_ne.
    + intros ino' Hne. split; [|done].
      unfold digsig_allow_write_access.
      change (get_inode (set_file_security ?s _ _) ino') with (get_inode s ino').
      rewrite get_inode_set_inode_security, decide_False by done.
      by apply Hacq.
    + exists 0. simpl. by rewrite !list_lookup_alter_eq, Hf.
  - split; [|split].
    + intros fd' Hne. simpl. by rewrite list_lookup_alter_ne.
    + intros ino' Hne. split; [by apply Hacq|done].
    + exists 1. simpl. by rewrite list_lookup_alter_eq, Hf.
  - split; [|split].
    + intros fd' Hne. simpl. by rewrite list_lookup_alter_ne.
    + intros ino' Hne. split; [|by rewrite Hcache].
      change (get_inode (digsig_cache_signature ?s _) ino') with (get_inode s ino').
      by apply Hacq.
    + exists 1. simpl. by rewrite list_lookup_alter_eq, Hf.
  - split; [done|]. split.
    + intros ino' Hne. split; [done|by apply Hcache].
    + exists (f_security f). simpl. by rewrite Hf, Heta at 1.
Qed.

Lemma gate_touches_only_its_file_witness :
  ∃ st',
    (λ x, x.1.2) <$> digsig_mmap_file restrictive_config
                       (file_env (signed_image 512) 0) 1
                       (boot_two_handles) (Some 0%nat) VM_EXEC = Some st' ∧
    files st' !! 0%nat = Some (with_f_security 1 (plain_file 7)) ∧
    files st' !! 1%nat = Some (plain_file 8) ∧
    get_inode st' 8 = get_inode boot_two_handles 8.
Proof.
  destruct (digsig_mmap_file restrictive_config (file_env (signed_image 512) 0) 1
              boot_two_handles (Some 0%nat) VM_EXEC) as [[[r st'] log]|] eqn:Hm;
    [|vm_compute in Hm; discriminate].
  exists st'. split; [reflexivity|].
  destruct (gate_touches_only_its_file restrictive_config _ 1 boot_two_handles 0
              (plain_file 7) VM_EXEC r st' log eq_refl Hm) as (Hfd & Hino & _).
  split; [|split].
  - vm_compute in Hm. by injection Hm as _ <- _.
  - by rewrite (Hfd 1%nat ltac:(lia)).
  - by destruct (Hino 8%nat ltac:(simpl; lia)) as [-> _].
Defined.

Lemma file_free_security_idempotent_witness :
  get_inode_security leased_state 7 = 1 ∧
  get_inode_security (digsig_file_free_security leased_state 0) 7 = 0 ∧
  digsig_file_free_security (digsig_file_free_security leased_state 0) 0
  = digsig_file_free_security leased_state 0.
Proof.
  split; [vm_compute; reflexivity|]. split; [vm_compute; reflexivity|].
  exact (proj1 (file_free_security_idempotent leased_state 0)).
Defined.

Lemma init_module_cleans_up_witness :
  let I := {| security_module_enable := 1; digsig_init_caching := 0;
              digsig_init_sysfs := -12; register_security := 0 |} in
  (digsig_init_module I).1 = - EINVAL ∧
  (EvCacheCleanup ∈ (digsig_init_module I).2) ∧
  (EvCleanupSysfs ∉ (digsig_init_module I).2).
Proof.
  intros I.
  destruct (init_module_cleans_up I) as (_ & _ & _ & H).
  destruct (H ltac:(vm_compute; discriminate)) as [[Hc _] [_ Hs]].
  split; [reflexivity|]. split.
  - apply Hc. in_list.
  - intros Hin. apply Hs in Hin.
    apply list_elem_of_In in Hin. simpl in Hin.
    repeat (destruct Hin as [Hin|Hin]; [discriminate Hin|]). exact Hin.
Defined.

(** ** Verdict cache: how an entry gets in, and what a denial leaves *)

(** A call of the gate that changes the cache has passed the entry
    checks, and no writer was in the handle's way. *)
Lemma mmap_file_changes_cache C E fuel st fd f reqprot r st' log :
  files st !! fd = Some f →
  digsig_mmap_file C E fuel st (Some fd) reqprot = Some (r, st', log) →
  sig_cache st' ≠ sig_cache st →
  gate_applies C st fd f reqprot ∧
  (f_security f = 0 → i_writecount (get_inode st (f_inode f)) ≤ 0).
Proof.
  intros Hf. unfold digsig_mmap_file, gate_applies.
  destruct (g_init st =? 0) eqn:Hg;
    [intros ? Hne; simplify_eq; by destruct Hne|].
  destruct (Z.land reqprot VM_EXEC =? 0) eqn:Hp;
    [intros ? Hne; simplify_eq; by destruct Hne|].
  simpl. rewrite Hf. simpl.
  destruct (f_dentry f) eqn:Hd; simpl;
    [|intros ? Hne; simplify_eq; by destruct Hne].
  destruct (d_name f) eqn:Hn; simpl;
    [|intros ? Hne; simplify_eq; by destruct Hne].
  destruct (is_unprotected_file C f) eqn:Hu;
    [intros ? Hne; simplify_eq; by destruct Hne|].
  apply Z.eqb_neq in Hg, Hp.
  intros Hm Hne. split; [done|].
  intros H0. rewrite H0 in Hm. simpl in Hm.
  unfold digsig_deny_write_access in Hm.
  destruct (0 <? i_writecount (get_inode st (f_inode f))) eqn:Hw;
    [|by apply Z.ltb_ge in Hw].
  simpl in Hm. exfalso. revert Hm. destruct_check Hc.
  apply mmap_file_check_state in Hc
    as [[-> [->| [-> _]]]|(_ & _ & ? & _)]; done.
Qed.

(** X20.  How an identity gets into the cache.  Whatever hook the kernel
    calls, an identity that was not in the cache before the call and is
    in it afterwards was put there by the gate, called on a handle of
    that identity: the call returned [0], and it ran the full
    verification of the file, header, section table, signature and verify
    engine, whose return value was [0]. *)
Theorem cache_entry_comes_from_full_verification
    (C : config) (o : op) (st st' : kstate) (ino : nat) :
  step C o st = Some st' →
  ino ∉ sig_cache st →
  ino ∈ sig_cache st' →
  ∃ E fuel fd f reqprot flog,
    o = OpMmap E fuel (Some fd) reqprot ∧
    files st !! fd = Some f ∧ f_inode f = ino ∧
    full_verification C E fuel ino = Some (0, true, flog) ∧
    digsig_mmap_file C E fuel st (Some fd) reqprot
    = Some (0, st', full_verification_log ino true flog).
Proof.
  intros Hs Hn Hin.
  pose proof (other_hooks_only_remove st) as (Hp & Hw & Hu & Hf & Hc).
  destruct o as [|i|i|inode mask|i|i|E fuel file reqprot|fd0];
    simpl in Hs; simplify_eq; try done.
  - by apply Hw in Hin.
  - case_match; done.
  - by apply Hp in Hin.
  - by apply Hu in Hin.
  - by apply Hf in Hin.
  - destruct (digsig_mmap_file C E fuel st file reqprot)
      as [[[r st2] log]|] eqn:Hm; simplify_eq/=.
    destruct file as [fd|]; [destruct (files st !! fd) as [f|] eqn:Hfd|].
    + assert (sig_cache st' ≠ sig_cache st) as Hne
        by (intros Heq; by rewrite Heq in Hin).
      pose proof (mmap_file_effect _ _ _ _ _ _ _ _ _ _ Hfd Hm)
        as (_ & _ & _ & [Heq|(_ & Heq & Hcf & _)]); [done|].
      rewrite Heq in Hin. apply elem_of_union in Hin as [Hin|Hin]; [|done].
      apply elem_of_singleton in Hin as ->.
      destruct (mmap_file_changes_cache _ _ _ _ _ _ _ _ _ _ Hfd Hm Hne)
        as [Hgate Hwr].
      pose proof (mmap_file_full_verification C E fuel st fd f reqprot
                    Hgate Hcf Hwr) as Hfull.
      destruct (full_verification C E fuel (f_inode f))
        as [[[r' cached] flog]|] eqn:Hfv; [|by rewrite Hm in Hfull].
      destruct Hfull as (st3 & Hm' & Hcached).
      rewrite Hm in Hm'. simplify_eq.
      assert (cached = true) as ->.
      { apply Hcached. rewrite Heq. apply elem_of_union_l.
        by apply elem_of_singleton_2. }
      pose proof (full_verification_cached _ _ _ _ _ _ _ Hfv eq_refl) as ->.
      by exists E, fuel, fd, f, reqprot, flog.
    + unfold digsig_mmap_file in Hm. simpl in Hm. rewrite Hfd in Hm.
      simpl in Hm. by repeat case_match; simplify_eq.
    + unfold digsig_mmap_file in Hm. simpl in Hm.
      by repeat case_match; simplify_eq.
  - by apply Hc in Hin.
Qed.

Lemma cache_entry_comes_from_full_verification_witness :
  ∃ flog,
    full_verification restrictive_config (file_env (signed_image 512) 0) 1 7
    = Some (0, true, flog) ∧
    EvVerifyFinal 0 ∈ flog.
Proof.
  assert (step restrictive_config
            (OpMmap (file_env (signed_image 512) 0) 1 (Some 0%nat) VM_EXEC)
            ready_state = Some leased_state) as Hs by (vm_compute; reflexivity).
  destruct (cache_entry_comes_from_full_verification restrictive_config _ _ _ 7
              Hs ltac:(vm_compute; discriminate) ltac:(vm_compute; reflexivity))
    as (E & fuel & fd & f & reqprot & flog & Ho & _ & _ & Hfv & _).
  injection Ho as <- <- _ _.
  exists flog. split; [exact Hfv|].
  vm_compute in Hfv. injection Hfv as <-. in_list.
Defined.

(** X21.  No negative caching.  When the gate examines a request, with
    no writer on the inode, and does not return [0], the denial is the
    outcome of a full verification of the file: the gate's log is the
    cache miss followed by the reads and the hashing of the full
    verification, and its return value is the full verification's.
    Nothing is cached, and the same request in the state the call left
    is verified in full again, with the same log and the same verdict. *)
Theorem denied_request_is_verified_again
    (C : config) (E : env) (fuel : nat) (st : kstate) (fd : nat) (f : file)
    (reqprot r : Z) (st' : kstate) (log : list event) :
  gate_applies C st fd f reqprot →
  i_writecount (get_inode st (f_inode f)) ≤ 0 →
  digsig_mmap_file C E fuel st (Some fd) reqprot = Some (r, st', log) →
  r ≠ 0 →
  ∃ flog,
    full_verification C E fuel (f_inode f) = Some (r, false, flog) ∧
    log = full_verification_log (f_inode f) false flog ∧
    sig_cache st' = sig_cache st ∧
    ∃ st'', digsig_mmap_file C E fuel st' (Some fd) reqprot
            = Some (r, st'', full_verification_log (f_inode f) false flog).
Proof.
  intros Hgate Hw Hm Hr.
  destruct (is_cached_signature st (f_inode f)) eqn:Hc.
  - exfalso. rewrite (mmap_file_past_entry _ _ _ _ _ _ _ Hgate) in Hm.
    unfold digsig_deny_write_access in Hm.
    rewrite (proj2 (Z.ltb_ge _ _) Hw) in Hm.
    destruct (f_security f =? 0); simpl in Hm;
      unfold digsig_mmap_file_check in Hm.
    + change (is_cached_signature (set_file_security _ _ _) ?i)
        with (is_cached_signature st i) in Hm.
      rewrite Hc in Hm. by simplify_eq.
    + rewrite Hc in Hm. by simplify_eq.
  - pose proof (mmap_file_full_verification C E fuel st fd f reqprot
                  Hgate Hc ltac:(done)) as Hfull.
    destruct (full_verification C E fuel (f_inode f))
      as [[[r' cached] flog]|] eqn:Hfv; [|by rewrite Hm in Hfull].
    destruct Hfull as (st2 & Hm' & _).
    rewrite Hm in Hm'. simplify_eq.
    destruct cached.
    { by pose proof (full_verification_cached _ _ _ _ _ _ _ Hfv eq_refl). }
    exists flog. split; [done|]. split; [done|].
    by apply mmap_file_rejected.
Qed.

Lemma denied_request_is_verified_again_witness :
  let E := file_env (signed_image 512) 1 in
  ∃ st' flog,
    digsig_mmap_file restrictive_config E 1 ready_state (Some 0%nat) VM_EXEC
    = Some (- EPERM, st', full_verification_log 7 false flog) ∧
    EvVerifyFinal 1 ∈ flog ∧
    ∃ st'', digsig_mmap_file restrictive_config E 1 st' (Some 0%nat) VM_EXEC
            = Some (- EPERM, st'', full_verification_log 7 false flog).
Proof.
  intros E.
  assert (gate_applies restrictive_config ready_state 0 (plain_file 7) VM_EXEC)
    as Hgate by (repeat split; vm_compute; first [reflexivity | lia]).
  destruct (digsig_mmap_file restrictive_config E 1 ready_state (Some 0%nat) VM_EXEC)
    as [[[r st'] log]|] eqn:Hm; [|vm_compute in Hm; discriminate].
  assert (r = - EPERM) as ->.
  { vm_compute in Hm. by injection Hm as <- _ _. }
  destruct (denied_request_is_verified_again restrictive_config E 1 ready_state
              0 (plain_file 7) VM_EXEC (- EPERM) st' log Hgate
              ltac:(vm_compute; discriminate) Hm ltac:(vm_compute; discriminate))
    as (flog & Hfv & -> & _ & Hagain).
  exists st', flog. split; [reflexivity|]. split; [|exact Hagain].
  vm_compute in Hfv. injection Hfv as <-. in_list.
Defined.
